(** * recurse-invaders: a shallow embedding of [src/main.cpp]

    The program is one translation unit: a path utility ([invaders::fs]),
    the global scene state ([player], [enemy], [elapsed_time]) and [main],
    which initialises SDL, loads two textures and runs a fixed-step loop.

    - [i32] values are integers of [Z] with the wrap-around written out;
    - [f32] values are IEEE-754 binary32 numbers, modelled by the Standard
      Library's [spec_float] at precision 24 and maximal exponent 128;
    - [char] buffers are lists of [ascii], indexed with stdpp's lookup and
      insert, every access checked against the array bounds;
    - the calls into SDL, libc and libm are the environment: their results
      are inputs of the model ([sinf], the init results, the event queue). *)

From Stdlib Require Import ZArith List Bool Ascii String QArith Qabs Lia.
From Stdlib Require Import Floats.SpecFloat.
From stdpp Require Import base list.
Import ListNotations.
Local Open Scope Z_scope.

(** ** Machine integers: [typedef int32_t i32] *)

Definition i32_min : Z := - 2 ^ 31.
Definition i32_max : Z := 2 ^ 31 - 1.

Definition in_i32 (z : Z) : bool := (i32_min <=? z) && (z <=? i32_max).

(** Two's complement wrap-around of an [i32] result. *)
Definition wrap_i32 (z : Z) : Z := (z + 2 ^ 31) mod 2 ^ 32 - 2 ^ 31.

(** ** Binary32 floats: [typedef float f32] *)

Definition f32 : Type := spec_float.

Definition f32_prec : Z := 24.
Definition f32_emax : Z := 128.

Definition f32_add : f32 -> f32 -> f32 := SFadd f32_prec f32_emax.
Definition f32_mul : f32 -> f32 -> f32 := SFmul f32_prec f32_emax.
Definition f32_div : f32 -> f32 -> f32 := SFdiv f32_prec f32_emax.
Definition f32_leb : f32 -> f32 -> bool := SFleb.

(** Conversion of an integer to [f32], rounding to nearest even (exact up to
    2^24 in magnitude); also the value of the literals [1.f] and [60.f]. *)
Definition f32_of_i32 (z : Z) : f32 := binary_normalize f32_prec f32_emax z 0 false.

(** The integer part of a finite float, truncated toward zero; [None] for
    infinities and NaN.  A negative [e] shifts the mantissa right. *)
Definition f32_trunc (f : f32) : option Z :=
  match f with
  | S754_zero _ => Some 0
  | S754_finite s m e => Some (cond_Zopp s (Z.shiftl (Zpos m) e))
  | S754_infinity _ | S754_nan => None
  end.

(** Conversion of an [f32] to [i32], as in [enemy.position.x = <float>]: the
    value is truncated toward zero.  C++ leaves the conversion undefined when
    the truncated value does not fit; the [cvttss2si] instruction, which the
    x86-64 build named in the header comment of [main.cpp] uses, then yields
    the "integer indefinite" value [i32_min], and so does the model. *)
Definition i32_of_f32 (f : f32) : Z :=
  match f32_trunc f with
  | Some z => if in_i32 z then z else i32_min
  | None => i32_min
  end.

(** The exact rational value of a finite float. *)
Definition f32_to_Q (f : f32) : option Q :=
  match f with
  | S754_zero _ => Some 0%Q
  | S754_finite s m e =>
      Some (match e with
            | Zneg p => Qmake (cond_Zopp s (Zpos m)) (2 ^ p)
            | _ => inject_Z (cond_Zopp s (Zpos m * 2 ^ e))
            end)
  | S754_infinity _ | S754_nan => None
  end.

(** ** Constants and scene state *)

Record Vector2 := { x : Z; y : Z }.

Definition screen_width : Z := 640.
Definition screen_height : Z := 480.
Definition max_path_len : Z := 256.

(** [constexpr f32 frame_time = 1.f / 60.f] *)
Definition frame_time : f32 := f32_div (f32_of_i32 1) (f32_of_i32 60).

Module Player.
Record t := { position : Vector2; size : Vector2; speed : Z }.
End Player.

Module Enemy.
Record t := { position : Vector2; size : Vector2 }.
End Enemy.

(** The globals [player], [enemy] and [elapsed_time]. *)
Record Game := { player : Player.t; enemy : Enemy.t; elapsed_time : f32 }.

Definition init_game : Game :=
  {| player := {| Player.position := {| x := 0; y := 400 |};
                  Player.size := {| x := 64; y := 64 |};
                  Player.speed := 4 |};
     enemy := {| Enemy.position := {| x := 0; y := 0 |};
                 Enemy.size := {| x := 64; y := 64 |} |};
     elapsed_time := S754_zero false |}.

(** The locals [move_left] and [move_right] of [main]. *)
Record Flags := { move_left : bool; move_right : bool }.

Definition no_input : Flags := {| move_left := false; move_right := false |}.

(** ** The asset locator: [namespace invaders::fs] *)

Module fs.

(** A [char] array; its length is the array's size. *)
Abbreviation buffer := (list ascii).

Definition NUL : ascii := Ascii.zero.

(** [char root [max_path_len] = {0}] *)
Definition zeroed (n : Z) : buffer := replicate (Z.to_nat n) NUL.

(** Code over one array is a state-and-error computation: [None] is an
    access outside the array (undefined behaviour in C++). *)
Definition M (A : Type) : Type := buffer -> option (A * buffer).

Definition ret {A} (a : A) : M A := fun b => Some (a, b).

Definition bind {A B} (m : M A) (k : A -> M B) : M B :=
  fun b => match m b with
           | Some (a, b') => k a b'
           | None => None
           end.

Notation "'let*' v ':=' m 'in' k" := (bind m (fun v => k))
  (at level 10, v binder, m at level 200, k at level 200).

(** [buffer[i]] read and written, with the bounds of the array checked. *)
Definition load (i : Z) : M ascii :=
  fun b => if i <? 0 then None
           else match b !! Z.to_nat i with
                | Some c => Some (c, b)
                | None => None
                end.

Definition store (i : Z) (c : ascii) : M unit :=
  fun b => if (0 <=? i) && (i <? Z.of_nat (length b))
           then Some (tt, <[Z.to_nat i := c]> b)
           else None.

(** POSIX [readlink]: copies at most [bufsiz] bytes of the link's target to
    the start of the array, appends no terminator, and returns the number of
    bytes placed; on failure it returns -1 and leaves the array as it was.
    [target] is the path of the running executable ([None]: the call fails). *)
Definition readlink (target : option (list ascii)) (bufsiz : Z) : M Z :=
  fun b => match target with
           | None => Some (-1, b)
           | Some p =>
               let n := Nat.min (length p) (Z.to_nat bufsiz) in
               if (n <=? length b)%nat
               then Some (Z.of_nat n, take n p ++ drop n b)
               else None
           end.

(** Index of the first [NUL] of an array; [None] when the scan leaves it. *)
Fixpoint first_nul (b : list ascii) : option nat :=
  match b with
  | [] => None
  | c :: b' => if Ascii.eqb c NUL then Some O
               else match first_nul b' with
                    | Some n => Some (S n)
                    | None => None
                    end
  end.

(** libc [strlen]: reads the array from index 0 until it meets a [NUL]. *)
Definition strlen : M Z :=
  fun b => match first_nul b with
           | Some n => Some (Z.of_nat n, b)
           | None => None
           end.

(** The loop of [set_install_dir], entered with [i] and [removed]:
    [for (; i > 0; i--) { if (buffer[i] == '/') removed++; buffer[i] = 0;
    if (removed == 3) break; }].  The loop leaves as soon as [i <= 0], so
    the index is a [nat] here; the result is the final [removed]. *)
Fixpoint strip_loop (i : nat) (removed : Z) : M Z :=
  match i with
  | O => ret removed
  | S i' =>
      let* c := load (Z.of_nat i) in
      let removed := if Ascii.eqb c "/" then wrap_i32 (removed + 1) else removed in
      let* _ := store (Z.of_nat i) NUL in
      if removed =? 3 then ret removed else strip_loop i' removed
  end.

(** [void set_install_dir(char* buffer, i32 buffer_len)]; the result is the
    final value of the local [removed]. *)
Definition set_install_dir (exe : option (list ascii)) (buffer_len : Z) : M Z :=
  let* _ := readlink exe buffer_len in
  let* len := strlen in
  let len := wrap_i32 len in
  strip_loop (Z.to_nat (len - 1)) 0.

(** The C string an array holds: the bytes before its first [NUL]. *)
Definition c_str (b : buffer) : option (list ascii) :=
  match first_nul b with
  | Some n => Some (take n b)
  | None => None
  end.

(** The conversion of an [int] argument to a [size_t] parameter (64 bits):
    a negative [i32] arrives as [2^64 + z], beyond the size of any array. *)
Definition size_t_of_int (z : Z) : Z := if z <? 0 then z + 2 ^ 64 else z.

(** libc [snprintf(buffer, n, ...)] for an output [s], with [n] the value
    of its [size_t] parameter: at most [n - 1] bytes of [s] and a terminator
    are written at the start of the array (nothing at all when [n] is 0). *)
Definition snprintf (n : Z) (s : list ascii) : M unit :=
  fun b => if n <=? 0 then Some (tt, b)
           else
             let out := take (Z.to_nat (n - 1)) s ++ [NUL] in
             if (length out <=? length b)%nat
             then Some (tt, out ++ drop (length out) b)
             else None.

(** The globals [root] and [assets]. *)
Record Dirs := { root : buffer; assets : buffer }.

Definition init_dirs : Dirs :=
  {| root := zeroed max_path_len; assets := zeroed max_path_len |}.

Definition slash : list ascii := ["/"%char].

(** [void init()] *)
Definition init (exe : option (list ascii)) (d : Dirs) : option Dirs :=
  match set_install_dir exe max_path_len (root d) with
  | None => None
  | Some (_, root') =>
      match c_str root' with
      | None => None
      | Some r =>
          match snprintf max_path_len (r ++ list_ascii_of_string "/assets") (assets d) with
          | None => None
          | Some (_, assets') => Some {| root := root'; assets := assets' |}
          end
      end
  end.

(** [void asset(const char* asset_name, char* buffer, i32 buffer_len)]: the
    [i32 buffer_len] is passed for the [size_t] of [snprintf], which (as in
    glibc) takes a size of any magnitude. *)
Definition asset (d : Dirs) (asset_name : list ascii) (buffer_len : Z) : M unit :=
  fun b => match c_str (assets d) with
           | None => None
           | Some a => snprintf (size_t_of_int buffer_len) (a ++ slash ++ asset_name) b
           end.

(** The base directory [set_install_dir] leaves in a zeroed array of
    [max_path_len] bytes, as a C string. *)
Definition install_dir (exe : option (list ascii)) : option (list ascii) :=
  match set_install_dir exe max_path_len (zeroed max_path_len) with
  | Some (_, b) => c_str b
  | None => None
  end.

End fs.

(** ** The update step, the renderer and the main loop *)

(** One [SDL_Rect] handed to [SDL_RenderCopy] as the destination. *)
Record SDL_Rect := { rect_x : Z; rect_y : Z; rect_w : Z; rect_h : Z }.

(** What one pass of the loop draws: the ship's rectangle, then the enemy's. *)
Record Frame := { ship_draw : SDL_Rect; enemy_draw : SDL_Rect }.

Inductive SDL_Keycode := SDLK_LEFT | SDLK_RIGHT | SDLK_other.

Inductive SDL_Event :=
  | SDL_QUIT
  | SDL_KEYDOWN (sym : SDL_Keycode)
  | SDL_KEYUP (sym : SDL_Keycode)
  | SDL_other.

(** [while (SDL_PollEvent(&event)) ...] over the events that are queued when
    a pass of the loop starts; [None] is the [return 0] of [SDL_QUIT]. *)
Fixpoint poll_events (queue : list SDL_Event) (fl : Flags) : option Flags :=
  match queue with
  | [] => Some fl
  | SDL_QUIT :: _ => None
  | SDL_KEYDOWN SDLK_LEFT :: q =>
      poll_events q {| move_left := true; move_right := move_right fl |}
  | SDL_KEYDOWN SDLK_RIGHT :: q =>
      poll_events q {| move_left := move_left fl; move_right := true |}
  | SDL_KEYUP SDLK_LEFT :: q =>
      poll_events q {| move_left := false; move_right := move_right fl |}
  | SDL_KEYUP SDLK_RIGHT :: q =>
      poll_events q {| move_left := move_left fl; move_right := false |}
  | _ :: q => poll_events q fl
  end.

(** The lambda [clamp_position] of [main]. *)
Definition clamp_position (position size : Vector2) : Vector2 :=
  let position := {| x := Z.max (x position) 0; y := y position |} in
  {| x := Z.min (x position) (wrap_i32 (screen_width - x size)); y := y position |}.

Section Scene.

(** libm's [sinf], a function of the environment. *)
Variable sinf : f32 -> f32.

(** [auto oscillator = (sinf(elapsed_time) + 1) / 2] *)
Definition oscillator (t : f32) : f32 :=
  f32_div (f32_add (sinf t) (f32_of_i32 1)) (f32_of_i32 2).

(** The product [oscillator * enemy_max_x], still a float. *)
Definition enemy_target (t : f32) (enemy_max_x : Z) : f32 :=
  f32_mul (oscillator t) (f32_of_i32 enemy_max_x).

(** "Run the game update": lines 170 to 182 of [main.cpp]. *)
Definition update (g : Game) (fl : Flags) : Game :=
  let p := player g in
  let px := x (Player.position p) in
  let px := if move_left fl then wrap_i32 (px - Player.speed p) else px in
  let px := if move_right fl then wrap_i32 (px + Player.speed p) else px in
  let e := enemy g in
  let enemy_max_x := wrap_i32 (screen_width - x (Enemy.size e)) in
  let ex := i32_of_f32 (enemy_target (elapsed_time g) enemy_max_x) in
  {| player :=
       {| Player.position :=
            clamp_position {| x := px; y := y (Player.position p) |} (Player.size p);
          Player.size := Player.size p;
          Player.speed := Player.speed p |};
     enemy :=
       {| Enemy.position :=
            clamp_position {| x := ex; y := y (Enemy.position e) |} (Enemy.size e);
          Enemy.size := Enemy.size e |};
     elapsed_time := elapsed_time g |}.

(** The two destination rectangles of lines 187 to 197. *)
Definition render (g : Game) : Frame :=
  let p := player g in
  let e := enemy g in
  {| ship_draw := {| rect_x := x (Player.position p); rect_y := y (Player.position p);
                     rect_w := x (Player.size p); rect_h := y (Player.size p) |};
     enemy_draw := {| rect_x := x (Enemy.position e); rect_y := y (Enemy.position e);
                      rect_w := x (Enemy.size e); rect_h := y (Enemy.size e) |} |}.

(** [elapsed_time += frame_time] *)
Definition tick (g : Game) : Game :=
  {| player := player g; enemy := enemy g;
     elapsed_time := f32_add (elapsed_time g) frame_time |}.

(** The effect of one pass of the loop on the globals, for the flags the
    pass ends up with: update, (render,) advance the clock. *)
Definition step (fl : Flags) (g : Game) : Game := tick (update g fl).

(** Consecutive passes, one entry of [fls] per pass. *)
Definition run (fls : list Flags) (g : Game) : Game :=
  fold_left (fun g fl => step fl g) fls g.

Inductive Outcome :=
  | Exit (status : Z)   (* [return status] from [main] *)
  | Undefined           (* a null dereference or an access outside an array *)
  | Running.            (* still in the loop when the recorded input ends *)

Record Trace := { outcome : Outcome; game : Game; flags : Flags; rendered : list Frame }.

(** [while (true) { ... }]: [frames] holds, for each pass, the events queued
    when the pass starts; [out] collects what is drawn.  [SDL_Delay] only
    lets time pass. *)
Fixpoint main_loop (frames : list (list SDL_Event)) (g : Game) (fl : Flags)
    (out : list Frame) : Trace :=
  match frames with
  | [] => {| outcome := Running; game := g; flags := fl; rendered := out |}
  | queue :: frames' =>
      match poll_events queue fl with
      | None => {| outcome := Exit 0; game := g; flags := fl; rendered := out |}
      | Some fl' =>
          let g' := update g fl' in
          main_loop frames' (tick g') fl' (out ++ [render g'])
      end
  end.

(** What the environment answers to [main]: the results of the SDL calls it
    checks or dereferences, the path of the executable, and the input. *)
Record Env := {
  SDL_Init : Z;
  SDL_CreateWindowAndRenderer : Z;
  SDL_GetWindowSurface : Z;                 (* a pointer, 0 is NULL *)
  proc_self_exe : option (list ascii);
  IMG_LoadTexture : list ascii -> Z;        (* a pointer, 0 is NULL *)
  events : list (list SDL_Event) }.

Definition stopped (o : Outcome) : Trace :=
  {| outcome := o; game := init_game; flags := no_input; rendered := [] |}.

(** The path [asset] leaves in a fresh [char [max_path_len] = {0}]. *)
Definition asset_path (d : fs.Dirs) (asset_name : string) : option (list ascii) :=
  match fs.asset d (list_ascii_of_string asset_name) max_path_len
          (fs.zeroed max_path_len) with
  | Some (_, b) => fs.c_str b
  | None => None
  end.

(** [int main(int num_args, char** args)] *)
Definition main (env : Env) : Trace :=
  if SDL_Init env <? 0 then stopped (Exit 1)
  else if SDL_CreateWindowAndRenderer env <? 0 then stopped (Exit 1)
  else if SDL_GetWindowSurface env =? 0 then stopped Undefined
  else
    match fs.init (proc_self_exe env) fs.init_dirs with
    | None => stopped Undefined
    | Some d =>
        match asset_path d "ship.png" with
        | None => stopped Undefined
        | Some ship_path =>
            if IMG_LoadTexture env ship_path =? 0 then stopped (Exit 1)
            else
              match asset_path d "enemy.png" with
              | None => stopped Undefined
              | Some enemy_path =>
                  if IMG_LoadTexture env enemy_path =? 0 then stopped (Exit 1)
                  else main_loop (events env) init_game no_input []
              end
        end
    end.

End Scene.

(** * Vocabulary of the properties

    Observations of the state, the inputs the statements range over, and
    the readings of the specification's sentences that the code is compared
    with. *)

(** The four coordinates of the scene. *)
Definition player_x (g : Game) : Z := x (Player.position (player g)).
Definition enemy_x (g : Game) : Z := x (Enemy.position (enemy g)).
Definition player_y (g : Game) : Z := y (Player.position (player g)).
Definition enemy_y (g : Game) : Z := y (Enemy.position (enemy g)).

(** The part of the state no statement of the loop assigns to. *)
Definition same_shape (g g' : Game) : Prop :=
  Player.size (player g') = Player.size (player g) /\
  Player.speed (player g') = Player.speed (player g) /\
  Enemy.size (enemy g') = Enemy.size (enemy g) /\
  player_y g' = player_y g /\
  enemy_y g' = enemy_y g.

(** [clamp_position] on a 64-wide entity. *)
Definition clamp_x (z : Z) : Z := Z.min (Z.max z 0) (screen_width - 64).

(** [n] additions of [frame_time], each rounded to binary32. *)
Definition accumulate (n : nat) (t : f32) : f32 :=
  Nat.iter n (fun t => f32_add t frame_time) t.

(** "Move left" alone, and both flags at once. *)
Definition left_only : Flags := {| move_left := true; move_right := false |}.
Definition both_held : Flags := {| move_left := true; move_right := true |}.

(** A destination rectangle that is 64 wide and lies within the screen. *)
Definition in_range (r : SDL_Rect) : Prop :=
  rect_w r = 64 /\ 0 <= rect_x r <= screen_width - rect_w r.

(** The reading of "[elapsed_time] equals [N * (1/60)] exactly": the float
    has the rational value [N / 60]. *)
Definition elapsed_exact (sinf : f32 -> f32) (fls : list Flags) : Prop :=
  exists q, f32_to_Q (elapsed_time (run sinf fls init_game)) = Some q /\
            (q == inject_Z (Z.of_nat (length fls)) * (1 # 60))%Q.

(** A clock value within 1/1000 of [n / 60]. *)
Definition near_sixtieths (n : Z) (t : f32) : bool :=
  match f32_to_Q t with
  | Some q => Qle_bool (Qabs (q - Qmake n 60)) (1 # 1000)
  | None => false
  end.

(** [near_sixtieths] along [k] further additions of [frame_time]. *)
Fixpoint stays_near (k : nat) (n : Z) (t : f32) : bool :=
  near_sixtieths n t &&
  match k with
  | O => true
  | S k' => stays_near k' (n + 1) (f32_add t frame_time)
  end.

(** The nearest integer to a finite float, halves away from zero (C's
    [round]): the conversion the specification's formula names. *)
Definition f32_round (f : f32) : option Z :=
  match f with
  | S754_zero _ => Some 0
  | S754_finite s m e => Some (cond_Zopp s ((Z.shiftl (Zpos m) (e + 1) + 1) / 2))
  | S754_infinity _ | S754_nan => None
  end.

(** The specification's formula for the enemy, in the code's binary32
    arithmetic: [round(((sin(t)+1)/2) * (screen_width - enemy.size.x))]. *)
Definition rounded_enemy_x (sinf : f32 -> f32) (g : Game) : option Z :=
  f32_round (enemy_target sinf (elapsed_time g) (screen_width - 64)).

(** The float product of the update step as a function of the sine. *)
Definition target_of_sine (s : f32) : f32 :=
  f32_mul (f32_div (f32_add s (f32_of_i32 1)) (f32_of_i32 2)) (f32_of_i32 576).

(** 0.01666 and 0.01667 rounded inwards to binary32: the real
    sin(1/60) = 0.0166658... lies well between them. *)
Definition sine_lo : f32 := S754_finite false 8944270 (-29).
Definition sine_hi : f32 := S754_finite false 8949638 (-29).

(** What the first two passes need of libm: [sinf(+0)] is [+0] (C, Annex F),
    and [sinf(frame_time)] is the sine of 1/60 to four significant digits. *)
Definition libm_plausible (sinf : f32 -> f32) : Prop :=
  sinf (S754_zero false) = S754_zero false /\
  f32_leb sine_lo (sinf frame_time) = true /\
  f32_leb (sinf frame_time) sine_hi = true.

(** A function with these two values: the binary32 number nearest to
    sin(frame_time) at [frame_time], and the small-angle value elsewhere. *)
Definition sinf_sample (t : f32) : f32 :=
  if SFeqb t frame_time then S754_finite false 8947435 (-29) else t.

(** [P] on the positive floats [m * 2^e], for [n] mantissas from [m] on. *)
Fixpoint all_mantissas (P : f32 -> bool) (e : Z) (m : positive) (n : nat) : bool :=
  match n with
  | O => true
  | S n' => P (S754_finite false m e) && all_mantissas P e (Pos.succ m) n'
  end.

(** The two conversions of the product, checked on one sine. *)
Definition truncates_to_292_rounds_to_293 (s : f32) : bool :=
  (i32_of_f32 (target_of_sine s) =? 292) &&
  match f32_round (target_of_sine s) with Some r => r =? 293 | None => false end.

(** A shifted mantissa that has lost no set bit so far. *)
Definition rec_exact (mrs : shr_record) : Prop := shr_r mrs = false /\ shr_s mrs = false.

(** The constants 1, 2 and -1 as floats. *)
Definition f32_one : f32 := f32_of_i32 1.
Definition f32_two : f32 := f32_of_i32 2.
Definition f32_minus_one : f32 := f32_of_i32 (-1).

(** A float that is [+0] or positive and at most [c * 2^j]. *)
Definition nonneg_le (f : f32) (c j : Z) : Prop :=
  f = S754_zero false \/
  exists m e, f = S754_finite false m e /\ e <= j /\ Zpos m <= c * 2 ^ (j - e).

(** A sine as libm may return it: a valid binary32 number of [-1, 1]. *)
Definition unit_sine (s : f32) : Prop :=
  valid_binary f32_prec f32_emax s = true /\
  f32_leb f32_minus_one s = true /\
  f32_leb s f32_one = true.

(** The scenario "initial state, no input, one update step" as the
    specification words it: the enemy's x is computed from sin(1/60). *)
Definition first_step_claim (sinf : f32 -> f32) : Prop :=
  Player.position (player (step sinf no_input init_game)) = {| x := 0; y := 400 |} /\
  enemy_x (step sinf no_input init_game) =
    i32_of_f32 (enemy_target sinf frame_time (screen_width - 64)).

(** The number of separators in a path. *)
Definition count_slash (p : list ascii) : nat := count_occ ascii_dec p "/"%char.

(** A path as the file system has them: no byte of it is [NUL]. *)
Definition no_nul (p : list ascii) : Prop := Forall (fun c => c <> fs.NUL) p.

(** The array [set_install_dir] works on once [readlink] has written a path
    shorter than the array: the path, then the zeros that were there. *)
Definition path_buffer (p : list ascii) : fs.buffer :=
  p ++ replicate (Z.to_nat max_path_len - length p) fs.NUL.

(** The executable's path fits the array with room for a terminator (or
    [readlink] failed and left the zeroed array alone). *)
Definition exe_fits (exe : option (list ascii)) : Prop :=
  match exe with
  | Some p => (length p < Z.to_nat max_path_len)%nat
  | None => True
  end.

(** Index of the last separator of a path. *)
Fixpoint last_slash (p : list ascii) : option nat :=
  match p with
  | [] => None
  | c :: p' => match last_slash p' with
               | Some i => Some (S i)
               | None => if Ascii.eqb c "/" then Some O else None
               end
  end.

(** One directory level up, as the path-parent operation the design notes
    of the specification name (C++17's [parent_path]): the text before the
    last separator; the root directory is its own parent. *)
Definition parent_path (p : list ascii) : list ascii :=
  match last_slash p with
  | None => []
  | Some O => take 1 p
  | Some i => take i p
  end.

(** "Go up three directory levels from the executable path." *)
Definition three_levels_up (p : list ascii) : list ascii :=
  parent_path (parent_path (parent_path p)).

(** The failure mode as the specification words it: the base directory is
    longer than the intended three-levels-up prefix. *)
Definition too_long (p : list ascii) : Prop :=
  exists d, fs.install_dir (Some p) = Some d /\
            (length (three_levels_up p) < length d)%nat.

(** A queue of events that holds a quit event. *)
Definition has_quit (queue : list SDL_Event) : Prop := In SDL_QUIT queue.

(** A quit event is among those the loop polls. *)
Definition quit_received (env : Env) : Prop := Exists has_quit (events env).

(** The pointer [IMG_LoadTexture] returns for an asset, when its path is
    defined. *)
Definition texture (env : Env) (name : string) : option Z :=
  match fs.init (proc_self_exe env) fs.init_dirs with
  | Some d => match asset_path d name with
              | Some path => Some (IMG_LoadTexture env path)
              | None => None
              end
  | None => None
  end.

(** One of the checked initialisation steps fails. *)
Definition init_fails (env : Env) : Prop :=
  SDL_Init env < 0 \/
  SDL_CreateWindowAndRenderer env < 0 \/
  texture env "ship.png" = Some 0 \/
  texture env "enemy.png" = Some 0.

(** An environment in which everything succeeds and the window is closed
    during the third pass. *)
Definition sample_env : Env :=
  {| SDL_Init := 0;
     SDL_CreateWindowAndRenderer := 0;
     SDL_GetWindowSurface := 1;
     proc_self_exe := Some (list_ascii_of_string "/r/build/linux/recurse_invaders");
     IMG_LoadTexture := fun _ => 1;
     events := [[SDL_KEYDOWN SDLK_LEFT]; []; [SDL_KEYDOWN SDLK_RIGHT; SDL_QUIT]] |}.

(** ** Further vocabulary: input, ship, start-up and clock *)

(** An event the reader does nothing with: neither a quit event nor one of
    the two arrow keys. *)
Definition inert (e : SDL_Event) : Prop :=
  match e with
  | SDL_other | SDL_KEYDOWN SDLK_other | SDL_KEYUP SDLK_other => True
  | _ => False
  end.

(** An event that is not about key [k]. *)
Definition not_about (k : SDL_Keycode) (e : SDL_Event) : Prop :=
  e <> SDL_KEYDOWN k /\ e <> SDL_KEYUP k.

(** The flag of an arrow key. *)
Definition key_flag (k : SDL_Keycode) (fl : Flags) : bool :=
  match k with
  | SDLK_LEFT => move_left fl
  | SDLK_RIGHT => move_right fl
  | SDLK_other => false
  end.

(** The flags each pass of the loop ends up with, up to the pass that polls
    a quit event. *)
Fixpoint pass_flags (frames : list (list SDL_Event)) (fl : Flags) : list Flags :=
  match frames with
  | [] => []
  | queue :: frames' =>
      match poll_events queue fl with
      | None => []
      | Some fl' => fl' :: pass_flags frames' fl'
      end
  end.

(** What consecutive passes draw: each pass shows the state right after its
    own update. *)
Fixpoint drawn (sinf : f32 -> f32) (fls : list Flags) (g : Game) : list Frame :=
  match fls with
  | [] => []
  | fl :: fls' => render (update sinf g fl) :: drawn sinf fls' (step sinf fl g)
  end.

(** "Move right" alone. *)
Definition right_only : Flags := {| move_left := false; move_right := true |}.

(** The direction the flags ask for: -1, 0 or 1. *)
Definition heading (fl : Flags) : Z :=
  (if move_right fl then 1 else 0) - (if move_left fl then 1 else 0).

(** The ship as [main] keeps it: speed 4, 64 wide, within the screen and on
    a multiple of 4. *)
Definition ship_ok (g : Game) : Prop :=
  Player.speed (player g) = 4 /\
  x (Player.size (player g)) = 64 /\
  0 <= player_x g <= screen_width - 64 /\
  (4 | player_x g).

(** An environment in which every call [main] checks succeeds, the window
    has a surface and the path of the executable fits its array. *)
Definition starts (env : Env) : Prop :=
  0 <= SDL_Init env /\
  0 <= SDL_CreateWindowAndRenderer env /\
  SDL_GetWindowSurface env <> 0 /\
  exe_fits (proc_self_exe env) /\
  forall path, IMG_LoadTexture env path <> 0.

(** The value 2^19 = 524288, in its binary32 form. *)
Definition clock_max : f32 := S754_finite false 8388608 (-4).

(** A value the clock takes: [+0], or a positive float with a mantissa
    below [2^24], an exponent of the format and a value of at most [2^19]. *)
Definition clock_ok (t : f32) : Prop :=
  t = S754_zero false \/
  exists m e, t = S754_finite false m e /\
              Zpos m < 2 ^ 24 /\ -149 <= e <= 19 /\ Zpos m <= 2 ^ (19 - e).

(** The value of a non-negative float in units of [2^-149], the smallest
    positive binary32 number. *)
Definition scaled (t : f32) : Z :=
  match t with
  | S754_finite false m e => Zpos m * 2 ^ (e + 149)
  | _ => 0
  end.

(** [mrs] is [N] shifted right by [n] bits: the quotient, the bit shifted
    out last and whether a lower bit was set. *)
Definition shifted (N n : Z) (mrs : shr_record) : Prop :=
  shr_m mrs = N / 2 ^ n /\
  (shr_r mrs = true <-> 2 ^ n <= 2 * (N mod 2 ^ n)) /\
  (shr_s mrs = true <-> N mod 2 ^ n <> 0 /\ 2 * (N mod 2 ^ n) <> 2 ^ n).

(** An environment in which SDL and the window come up, the window has no
    surface, and a quit event is queued. *)
Definition null_surface_env : Env :=
  {| SDL_Init := 0;
     SDL_CreateWindowAndRenderer := 0;
     SDL_GetWindowSurface := 0;
     proc_self_exe := Some (list_ascii_of_string "/r/build/linux/recurse_invaders");
     IMG_LoadTexture := fun _ => 1;
     events := [[SDL_QUIT]] |}.

(** The initial scene with the enemy and the clock elsewhere, and with the
    ship elsewhere. *)
Definition late_game : Game :=
  {| player := player init_game;
     enemy := {| Enemy.position := {| x := 100; y := 0 |};
                 Enemy.size := {| x := 64; y := 64 |} |};
     elapsed_time := frame_time |}.

Definition ship_moved_game : Game :=
  {| player := {| Player.position := {| x := 200; y := 400 |};
                  Player.size := {| x := 64; y := 64 |};
                  Player.speed := 4 |};
     enemy := enemy init_game;
     elapsed_time := elapsed_time init_game |}.

(** * Properties *)

Example asset_path_repo :
  match fs.init (Some (list_ascii_of_string "/a/b/c/build/linux/recurse_invaders"))
          fs.init_dirs with
  | Some d => asset_path d "ship.png"
  | None => None
  end = Some (list_ascii_of_string "/a/b/c/assets/ship.png").
Proof. vm_compute. reflexivity. Qed.

Example install_dir_repo :
  fs.install_dir (Some (list_ascii_of_string "/home/u/repo/build/linux/recurse_invaders"))
  = Some (list_ascii_of_string "/home/u/repo").
Proof. vm_compute. reflexivity. Qed.

(** ** Machine arithmetic *)

Lemma wrap_i32_id (z : Z) : i32_min <= z <= i32_max -> wrap_i32 z = z.
Proof.
  unfold wrap_i32, i32_min, i32_max. intros H.
  rewrite Z.mod_small; lia.
Qed.

Lemma wrap_i32_range (z : Z) : i32_min <= wrap_i32 z <= i32_max.
Proof.
  unfold wrap_i32, i32_min, i32_max.
  pose proof (Z.mod_pos_bound (z + 2 ^ 31) (2 ^ 32)). lia.
Qed.

(** Subtracting and adding the same amount cancels, whatever wraps between. *)
Lemma wrap_i32_sub_add (z s : Z) :
  i32_min <= z <= i32_max -> wrap_i32 (wrap_i32 (z - s) + s) = z.
Proof.
  intros H. unfold wrap_i32.
  replace ((z - s + 2 ^ 31) mod 2 ^ 32 - 2 ^ 31 + s + 2 ^ 31)
    with ((z - s + 2 ^ 31) mod 2 ^ 32 + s) by lia.
  rewrite Zplus_mod_idemp_l.
  replace (z - s + 2 ^ 31 + s) with (z + 2 ^ 31) by lia.
  unfold i32_min, i32_max in H. rewrite Z.mod_small; lia.
Qed.

(** ** The scene: what a pass of the loop keeps and what it bounds *)

Lemma same_shape_refl g : same_shape g g.
Proof. repeat split. Qed.

Lemma same_shape_trans g1 g2 g3 :
  same_shape g1 g2 -> same_shape g2 g3 -> same_shape g1 g3.
Proof.
  unfold same_shape. intros (a1 & a2 & a3 & a4 & a5) (b1 & b2 & b3 & b4 & b5).
  repeat split; congruence.
Qed.

Lemma clamp_position_x pos sz :
  x sz = 64 -> x (clamp_position pos sz) = clamp_x (x pos).
Proof. intros H. unfold clamp_position, clamp_x. simpl. rewrite H. reflexivity. Qed.

Lemma clamp_x_range z : 0 <= clamp_x z <= screen_width - 64.
Proof. unfold clamp_x, screen_width. lia. Qed.

Section SceneFacts.

Variable sinf : f32 -> f32.

Lemma update_same_shape g fl : same_shape g (update sinf g fl).
Proof. repeat split. Qed.

Lemma update_elapsed_time g fl : elapsed_time (update sinf g fl) = elapsed_time g.
Proof. reflexivity. Qed.

Lemma step_same_shape fl g : same_shape g (step sinf fl g).
Proof. repeat split. Qed.

Lemma run_app fls fls' g : run sinf (fls ++ fls') g = run sinf fls' (run sinf fls g).
Proof. unfold run. apply fold_left_app. Qed.

Lemma run_same_shape fls g : same_shape g (run sinf fls g).
Proof.
  revert g. induction fls as [|fl fls IH]; intros g; simpl.
  - apply same_shape_refl.
  - eapply same_shape_trans; [apply (step_same_shape fl)|apply IH].
Qed.

Lemma update_player_x g fl :
  x (Player.size (player g)) = 64 ->
  player_x (update sinf g fl) =
    clamp_x (let px := player_x g in
             let px := if move_left fl then wrap_i32 (px - Player.speed (player g)) else px in
             if move_right fl then wrap_i32 (px + Player.speed (player g)) else px).
Proof.
  intros H. unfold player_x, update. cbn [player Player.position].
  rewrite clamp_position_x by exact H. reflexivity.
Qed.

Lemma update_enemy_x g fl :
  x (Enemy.size (enemy g)) = 64 ->
  enemy_x (update sinf g fl) =
    clamp_x (i32_of_f32 (enemy_target sinf (elapsed_time g) (screen_width - 64))).
Proof.
  intros H. unfold enemy_x, update. cbn [enemy Enemy.position].
  rewrite clamp_position_x by exact H. rewrite H. reflexivity.
Qed.

(** The loop from any state: how the trace grows. *)
Lemma main_loop_rendered frames : forall g fl out,
  exists more,
    rendered (main_loop sinf frames g fl out) = out ++ more /\
    Forall (fun f => exists g' fl', same_shape g g' /\ f = render (update sinf g' fl')) more /\
    same_shape g (game (main_loop sinf frames g fl out)) /\
    elapsed_time (game (main_loop sinf frames g fl out)) =
      accumulate (length more) (elapsed_time g).
Proof.
  induction frames as [|queue frames IH]; intros g fl out; simpl.
  - exists []. rewrite app_nil_r. split; [reflexivity|].
    split; [constructor|]. split; [apply same_shape_refl|reflexivity].
  - destruct (poll_events queue fl) as [fl'|]; simpl.
    + destruct (IH (tick (update sinf g fl')) fl' (out ++ [render (update sinf g fl')]))
        as (more & Hr & Hall & Hs & Ht).
      exists (render (update sinf g fl') :: more). split.
      * rewrite Hr, <- app_assoc. reflexivity.
      * split; [|split].
        -- constructor.
           ++ exists g, fl'. split; [apply same_shape_refl|reflexivity].
           ++ eapply List.Forall_impl; [|exact Hall]. simpl.
              intros f (g' & fl'' & Hs' & ->). exists g', fl''. split; [|reflexivity].
              eapply same_shape_trans; [apply (step_same_shape fl' g)|exact Hs'].
        -- eapply same_shape_trans; [apply (step_same_shape fl' g)|exact Hs].
        -- rewrite Ht. unfold accumulate. cbn [length]. rewrite Nat.iter_succ_r. reflexivity.
    + exists []. rewrite app_nil_r. split; [reflexivity|].
      split; [constructor|]. split; [apply same_shape_refl|reflexivity].
Qed.

End SceneFacts.

Section MainFacts.

Variable sinf : f32 -> f32.

(** [main] either stops during initialisation or enters the loop with the
    initial globals and both flags cleared. *)
Lemma main_cases env :
  (exists o, main sinf env = stopped o) \/
  main sinf env = main_loop sinf (events env) init_game no_input [].
Proof.
  unfold main.
  destruct (SDL_Init env <? 0); [left; eauto|].
  destruct (SDL_CreateWindowAndRenderer env <? 0); [left; eauto|].
  destruct (SDL_GetWindowSurface env =? 0); [left; eauto|].
  destruct (fs.init _ _) as [d|]; [|left; eauto].
  destruct (asset_path d "ship.png") as [ship_path|]; [|left; eauto].
  destruct (IMG_LoadTexture env ship_path =? 0); [left; eauto|].
  destruct (asset_path d "enemy.png") as [enemy_path|]; [|left; eauto].
  destruct (IMG_LoadTexture env enemy_path =? 0); [left; eauto|].
  right. reflexivity.
Qed.

(** Every frame [main] draws is the picture of an updated state that has
    the initial sizes, speed and heights. *)
Lemma main_rendered env :
  Forall (fun f => exists g fl, same_shape init_game g /\ f = render (update sinf g fl))
         (rendered (main sinf env)) /\
  same_shape init_game (game (main sinf env)) /\
  elapsed_time (game (main sinf env)) =
    accumulate (length (rendered (main sinf env))) (S754_zero false).
Proof.
  destruct (main_cases env) as [[o ->]| ->].
  - split; [constructor|]. split; [apply same_shape_refl|reflexivity].
  - destruct (main_loop_rendered sinf (events env) init_game no_input [])
      as (more & -> & Hall & Hs & Ht).
    split; [exact Hall|]. split; [exact Hs|exact Ht].
Qed.

Lemma update_in_range g g' fl :
  same_shape init_game g' -> g = update sinf g' fl ->
  in_range (ship_draw (render g)) /\ in_range (enemy_draw (render g)).
Proof.
  intros (Hps & _ & Hes & _ & _) ->.
  assert (Hp : x (Player.size (player g')) = 64) by (rewrite Hps; reflexivity).
  assert (He : x (Enemy.size (enemy g')) = 64) by (rewrite Hes; reflexivity).
  pose proof (update_player_x sinf g' fl Hp) as Hpx.
  pose proof (update_enemy_x sinf g' fl He) as Hex.
  unfold in_range, render, player_x, enemy_x in *.
  cbn [ship_draw enemy_draw rect_x rect_w].
  rewrite Hpx, Hex.
  change (Player.size (player (update sinf g' fl))) with (Player.size (player g')).
  change (Enemy.size (enemy (update sinf g' fl))) with (Enemy.size (enemy g')).
  rewrite Hp, He.
  split; (split; [reflexivity|apply clamp_x_range]).
Qed.

End MainFacts.

(** C2: from the start of the program on, every rectangle handed to the
    renderer (the ship's and the enemy's, in every pass of the loop) is 64
    wide and has [0 <= x <= screen_width - 64]; the same holds for the
    positions right after the clamping of any pass. *)
Theorem positions_clamped (sinf : f32 -> f32) :
  (forall env,
      Forall (fun f => in_range (ship_draw f) /\ in_range (enemy_draw f))
             (rendered (main sinf env))) /\
  (forall fls fl,
      let g := update sinf (run sinf fls init_game) fl in
      0 <= player_x g <= screen_width - 64 /\ 0 <= enemy_x g <= screen_width - 64).
Proof.
  split.
  - intros env. destruct (main_rendered sinf env) as (Hall & _).
    eapply List.Forall_impl; [|exact Hall]. simpl.
    intros f (g & fl & Hs & ->). eapply update_in_range; [exact Hs|reflexivity].
  - intros fls fl g.
    destruct (update_in_range sinf g (run sinf fls init_game) fl) as ((_ & Hp) & (_ & He)).
    + apply run_same_shape.
    + reflexivity.
    + unfold in_range, render in *. cbn [ship_draw enemy_draw rect_x rect_w] in *.
      fold (player_x g) in Hp. fold (enemy_x g) in He.
      assert (Hs : same_shape init_game g).
      { eapply same_shape_trans; [apply run_same_shape|apply update_same_shape]. }
      destruct Hs as (Hps & _ & Hes & _ & _).
      rewrite Hps in Hp. rewrite Hes in He. exact (conj Hp He).
Qed.

(** C9: no update changes a y position, so from the start of the program
    on the player stays at height 400 and the enemy at height 0, in the
    globals and in every rectangle drawn. *)
Theorem y_positions_fixed (sinf : f32 -> f32) :
  (forall g fl,
      player_y (update sinf g fl) = player_y g /\ enemy_y (update sinf g fl) = enemy_y g) /\
  (forall fls,
      player_y (run sinf fls init_game) = 400 /\ enemy_y (run sinf fls init_game) = 0) /\
  (forall env,
      player_y (game (main sinf env)) = 400 /\ enemy_y (game (main sinf env)) = 0 /\
      Forall (fun f => rect_y (ship_draw f) = 400 /\ rect_y (enemy_draw f) = 0)
             (rendered (main sinf env))).
Proof.
  split; [|split].
  - intros g fl. split; reflexivity.
  - intros fls. destruct (run_same_shape sinf fls init_game) as (_ & _ & _ & Hp & He).
    split; assumption.
  - intros env. destruct (main_rendered sinf env) as (Hall & (_ & _ & _ & Hp & He) & _).
    split; [exact Hp|]. split; [exact He|].
    eapply List.Forall_impl; [|exact Hall]. simpl.
    intros f (g & fl & (_ & _ & _ & Hp' & He') & ->). split; assumption.
Qed.

(** ** Moving the player *)

Lemma step_left_only (sinf : f32 -> f32) g :
  Player.speed (player g) = 4 ->
  x (Player.size (player g)) = 64 ->
  0 <= player_x g <= screen_width - 64 ->
  player_x (step sinf left_only g) = Z.max 0 (player_x g - 4).
Proof.
  intros Hspeed Hsize Hx.
  change (player_x (step sinf left_only g)) with (player_x (update sinf g left_only)).
  rewrite update_player_x by exact Hsize.
  cbn [move_left move_right left_only]. cbv zeta. rewrite Hspeed.
  unfold screen_width in Hx.
  rewrite wrap_i32_id by (unfold i32_min, i32_max; lia).
  unfold clamp_x, screen_width. lia.
Qed.

(** C3: with only "move left" held for [N] passes, a player that starts at
    [x0] within the clamp range ends at [max 0 (x0 - N * 4)]. *)
Theorem hold_left (sinf : f32 -> f32) (g : Game) (N : nat) :
  Player.speed (player g) = 4 ->
  x (Player.size (player g)) = 64 ->
  0 <= player_x g <= screen_width - 64 ->
  player_x (run sinf (replicate N left_only) g) = Z.max 0 (player_x g - Z.of_nat N * 4).
Proof.
  revert g. induction N as [|N IH]; intros g Hspeed Hsize Hx.
  - simpl. lia.
  - cbn [replicate]. change (run sinf (left_only :: replicate N left_only) g)
      with (run sinf (replicate N left_only) (step sinf left_only g)).
    pose proof (step_left_only sinf g Hspeed Hsize Hx) as Hstep.
    rewrite IH.
    + rewrite Hstep. lia.
    + exact Hspeed.
    + exact Hsize.
    + rewrite Hstep. unfold screen_width in *. lia.
Qed.

(** The scenario of the specification: at the left edge, five passes with
    "move left" held leave the player at 0. *)
Lemma hold_left_witness :
  player_x (run sinf_sample (replicate 5 left_only) init_game) = 0.
Proof.
  exact (hold_left sinf_sample init_game 5 eq_refl eq_refl
           (conj (Z.le_refl 0) (Zle_bool_imp_le 0 576 eq_refl))).
Defined.

Lemma step_both_held (sinf : f32 -> f32) g :
  0 <= player_x g <= wrap_i32 (screen_width - x (Player.size (player g))) ->
  player_x (step sinf both_held g) = player_x g.
Proof.
  intros Hx.
  pose proof (wrap_i32_range (screen_width - x (Player.size (player g)))) as Hw.
  unfold player_x, step, tick, update in *. cbn [player Player.position move_left move_right both_held].
  unfold clamp_position. cbn [x].
  rewrite wrap_i32_sub_add by (unfold i32_min in *; lia).
  lia.
Qed.

(** C4: with both flags set, a player within the clamp range of its own
    size stays where it is, for any number of passes and any speed. *)
Theorem hold_both (sinf : f32 -> f32) (g : Game) (N : nat) :
  0 <= player_x g <= wrap_i32 (screen_width - x (Player.size (player g))) ->
  player_x (run sinf (replicate N both_held) g) = player_x g.
Proof.
  revert g. induction N as [|N IH]; intros g Hx.
  - reflexivity.
  - cbn [replicate]. change (run sinf (both_held :: replicate N both_held) g)
      with (run sinf (replicate N both_held) (step sinf both_held g)).
    pose proof (step_both_held sinf g Hx) as Hstep.
    rewrite IH; [exact Hstep|].
    rewrite Hstep.
    change (Player.size (player (step sinf both_held g))) with (Player.size (player g)).
    exact Hx.
Qed.

(** Seven passes with both flags held, from the initial state. *)
Lemma hold_both_witness :
  player_x (run sinf_sample (replicate 7 both_held) init_game) = 0.
Proof.
  exact (hold_both sinf_sample init_game 7
           (conj (Z.le_refl 0) (Zle_bool_imp_le 0 576 eq_refl))).
Defined.

(** ** The clock *)

Lemma run_elapsed_time (sinf : f32 -> f32) fls : forall g,
  elapsed_time (run sinf fls g) = accumulate (length fls) (elapsed_time g).
Proof.
  induction fls as [|fl fls IH]; intros g.
  - reflexivity.
  - change (run sinf (fl :: fls) g) with (run sinf fls (step sinf fl g)).
    rewrite IH. unfold accumulate. cbn [length]. rewrite Nat.iter_succ_r. reflexivity.
Qed.

Example frame_time_value : frame_time = S754_finite false 8947849 (-29).
Proof. vm_compute. reflexivity. Qed.

(** Against C6 as stated.  After one pass the clock holds [frame_time],
    which is 8947849 / 2^29 and not 1/60; after six passes it differs even
    from the binary32 product [6 * frame_time]. *)
Lemma elapsed_time_not_exact :
  ~ (forall sinf fls, elapsed_exact sinf fls) /\
  accumulate 6 (S754_zero false) <> f32_mul (f32_of_i32 6) frame_time.
Proof.
  split.
  - intros H. destruct (H sinf_sample [no_input]) as (q & Hq & Heq).
    vm_compute in Hq. injection Hq as <-.
    vm_compute in Heq. discriminate Heq.
  - vm_compute. discriminate.
Qed.

Lemma stays_near_spec k : forall n t i,
  stays_near k n t = true -> (i <= k)%nat ->
  near_sixtieths (n + Z.of_nat i) (accumulate i t) = true.
Proof.
  induction k as [|k IH]; intros n t i Hk Hi; cbn [stays_near] in Hk;
    apply andb_prop in Hk as [Hnow Hlater].
  - replace i with O by lia. rewrite Z.add_0_r. exact Hnow.
  - destruct i as [|i]; [rewrite Z.add_0_r; exact Hnow|].
    unfold accumulate. rewrite Nat.iter_succ_r.
    replace (n + Z.of_nat (S i)) with (n + 1 + Z.of_nat i) by lia.
    apply (IH (n + 1) (f32_add t frame_time) i Hlater). lia.
Qed.

(** C6 (as the code has it): the clock after any passes is the initial +0
    with [frame_time] added once per pass in binary32 arithmetic, whatever
    the flags and the events were; one pass gives exactly [frame_time], the
    binary32 quotient of 1 and 60, and through the first 3600 passes the
    clock stays within 1/1000 of [N / 60]. *)
Theorem elapsed_time_accumulates (sinf : f32 -> f32) :
  (forall fls, elapsed_time (run sinf fls init_game)
               = accumulate (length fls) (S754_zero false)) /\
  (forall env, elapsed_time (game (main sinf env))
               = accumulate (length (rendered (main sinf env))) (S754_zero false)) /\
  accumulate 1 (S754_zero false) = frame_time /\
  frame_time = f32_div (f32_of_i32 1) (f32_of_i32 60) /\
  (forall N, (N <= 3600)%nat ->
             near_sixtieths (Z.of_nat N) (accumulate N (S754_zero false)) = true).
Proof.
  split; [|split; [|split; [|split]]].
  - intros fls. apply run_elapsed_time.
  - intros env. apply main_rendered.
  - vm_compute. reflexivity.
  - reflexivity.
  - intros N HN.
    apply (stays_near_spec 3600 0 (S754_zero false) N); [|exact HN].
    vm_compute. reflexivity.
Qed.

(** ** The enemy's oscillation *)

Lemma all_mantissas_spec P e n : forall m k,
  all_mantissas P e m n = true ->
  (Zpos m <= Zpos k < Zpos m + Z.of_nat n) ->
  P (S754_finite false k e) = true.
Proof.
  induction n as [|n IH]; intros m k Hall Hk.
  - lia.
  - cbn [all_mantissas] in Hall. apply andb_prop in Hall as [Hm Hrest].
    destruct (Pos.eq_dec k m) as [->|Hne]; [exact Hm|].
    apply (IH (Pos.succ m)); [exact Hrest|]. lia.
Qed.

Lemma all_mantissas_count P e (c : Z) m k :
  all_mantissas P e m (Z.to_nat c) = true ->
  (Zpos m <= Zpos k < Zpos m + c) ->
  P (S754_finite false k e) = true.
Proof.
  intros Hall Hk. apply (all_mantissas_spec P e (Z.to_nat c) m k Hall).
  rewrite Z2Nat.id; lia.
Qed.

(** Between two positive floats of one exponent lie only floats of that
    exponent, with a mantissa in between. *)
Lemma between_same_exponent (s : f32) (e : Z) (lo hi : positive) :
  f32_leb (S754_finite false lo e) s = true ->
  f32_leb s (S754_finite false hi e) = true ->
  exists m, s = S754_finite false m e /\ Zpos lo <= Zpos m <= Zpos hi.
Proof.
  unfold f32_leb, SFleb. intros Hlo Hhi.
  destruct s as [sg|sg| |sg m e']; try (destruct sg; discriminate).
  - discriminate.
  - destruct sg; [discriminate|]. cbn [SFcompare] in Hlo, Hhi.
    destruct (Z.compare_spec e e') as [<-|Hlt|Hgt].
    + rewrite Z.compare_refl in Hhi.
      rewrite Pos.compare_cont_spec in Hlo, Hhi. cbn [Pos.switch_Eq] in Hlo, Hhi.
      exists m. split; [reflexivity|].
      split; intros Hgt; cbn [Z.compare] in Hgt.
      * rewrite Hgt in Hlo. discriminate.
      * rewrite Hgt in Hhi. discriminate.
    + apply Z.compare_gt_iff in Hlt. rewrite Hlt in Hhi. discriminate.
    + discriminate Hlo.
Qed.

Lemma sine_bracket_292_293 (s : f32) :
  f32_leb sine_lo s = true -> f32_leb s sine_hi = true ->
  i32_of_f32 (target_of_sine s) = 292 /\ f32_round (target_of_sine s) = Some 293.
Proof.
  intros Hlo Hhi.
  destruct (between_same_exponent s (-29) 8944270 8949638 Hlo Hhi) as (m & -> & Hm).
  assert (Hall : all_mantissas truncates_to_292_rounds_to_293 (-29) 8944270
                   (Z.to_nat 5369) = true)
    by (vm_compute; reflexivity).
  assert (H : truncates_to_292_rounds_to_293 (S754_finite false m (-29)) = true).
  { apply (all_mantissas_count _ _ 5369 _ m Hall). lia. }
  unfold truncates_to_292_rounds_to_293 in H.
  apply andb_prop in H as [H1 H2].
  apply Z.eqb_eq in H1.
  destruct (f32_round _) as [r|]; [|discriminate].
  apply Z.eqb_eq in H2. subst r. split; [exact H1|reflexivity].
Qed.

Lemma sinf_sample_plausible : libm_plausible sinf_sample.
Proof. repeat split. Qed.

(** ** Rounding in binary32: digits *)

Lemma fexp_f32 k : fexp f32_prec f32_emax k = Z.max (k - 24) (-149).
Proof. reflexivity. Qed.

Lemma digits2_pos_bounds m :
  2 ^ (Zpos (digits2_pos m) - 1) <= Zpos m < 2 ^ Zpos (digits2_pos m).
Proof.
  induction m as [m IH|m IH|]; cbn [digits2_pos].
  - rewrite Pos2Z.inj_succ.
    replace (Z.succ (Zpos (digits2_pos m)) - 1) with (Z.succ (Zpos (digits2_pos m) - 1)) by lia.
    rewrite !Z.pow_succ_r by lia. lia.
  - rewrite Pos2Z.inj_succ.
    replace (Z.succ (Zpos (digits2_pos m)) - 1) with (Z.succ (Zpos (digits2_pos m) - 1)) by lia.
    rewrite !Z.pow_succ_r by lia. lia.
  - cbn. lia.
Qed.

Lemma Zdigits2_bounds m : 0 < m -> 2 ^ (Zdigits2 m - 1) <= m < 2 ^ Zdigits2 m.
Proof. destruct m as [|p|p]; try lia. intros _. apply digits2_pos_bounds. Qed.

Lemma Zdigits2_pos m : 0 < m -> 0 < Zdigits2 m.
Proof. destruct m; cbn; lia. Qed.

(** A positive number below [2^k] has at most [k] digits. *)
Lemma Zdigits2_le m k : 0 < m -> m < 2 ^ k -> Zdigits2 m <= k.
Proof.
  intros Hm Hlt. destruct (Zdigits2_bounds m Hm) as [Hlo _].
  pose proof (Zdigits2_pos m Hm).
  destruct (Z.le_gt_cases (Zdigits2 m) k) as [|Hgt]; [assumption|].
  assert (0 <= k) by (destruct (Z.le_gt_cases 0 k); [assumption|rewrite Z.pow_neg_r in Hlt; lia]).
  assert (2 ^ k <= 2 ^ (Zdigits2 m - 1)) by (apply Z.pow_le_mono_r; lia).
  lia.
Qed.

(** ** Rounding in binary32: shifts and bounds *)

Lemma shr_1_spec mrs :
  0 <= shr_m mrs ->
  shr_m (shr_1 mrs) = shr_m mrs / 2 /\
  (rec_exact mrs -> (2 | shr_m mrs) -> rec_exact (shr_1 mrs)).
Proof.
  destruct mrs as [m r s]. cbn [shr_m]. intros Hm. unfold rec_exact.
  destruct m as [|[p|p|]|p]; cbn [shr_1 shr_m shr_r shr_s]; try lia.
  - split; [reflexivity|]. intros [-> ->] _. split; reflexivity.
  - split; [rewrite Pos2Z.inj_xI; apply Z.div_unique with 1; lia|].
    intros _ [k Hk]. lia.
  - split; [rewrite Pos2Z.inj_xO; apply Z.div_unique with 0; lia|].
    intros [-> ->] _. split; reflexivity.
  - split; [reflexivity|]. intros _ [k Hk]. lia.
Qed.

Lemma iter_shr_1_spec p : forall mrs,
  0 <= shr_m mrs ->
  shr_m (SpecFloat.iter_pos shr_1 p mrs) = shr_m mrs / 2 ^ Zpos p /\
  (rec_exact mrs -> (2 ^ Zpos p | shr_m mrs) -> rec_exact (SpecFloat.iter_pos shr_1 p mrs)).
Proof.
  induction p as [p IH|p IH|]; intros mrs Hm; cbn [SpecFloat.iter_pos].
  - destruct (shr_1_spec mrs Hm) as [H1 E1].
    assert (Hm1 : 0 <= shr_m (shr_1 mrs)) by (rewrite H1; apply Z.div_pos; lia).
    destruct (IH (shr_1 mrs) Hm1) as [H2 E2].
    assert (Hm2 : 0 <= shr_m (SpecFloat.iter_pos shr_1 p (shr_1 mrs)))
      by (rewrite H2; apply Z.div_pos; [lia|apply Z.pow_pos_nonneg; lia]).
    destruct (IH _ Hm2) as [H3 E3].
    assert (Hpow : 2 ^ Zpos p~1 = 2 * 2 ^ Zpos p * 2 ^ Zpos p).
    { replace (Zpos p~1) with (Zpos p + Zpos p + 1) by lia.
      rewrite !Z.pow_add_r by lia. change (2 ^ 1) with 2. ring. }
    assert (Hp : 0 < 2 ^ Zpos p) by (apply Z.pow_pos_nonneg; lia).
    split.
    + rewrite H3, H2, H1, Hpow, !Z.div_div by lia. f_equal. ring.
    + intros Hex [k Hk]. rewrite Hpow in Hk.
      assert (Hd1 : shr_m mrs / 2 = k * 2 ^ Zpos p * 2 ^ Zpos p).
      { symmetry. apply Z.div_unique with 0; lia. }
      assert (Hd2 : shr_m mrs / 2 / 2 ^ Zpos p = k * 2 ^ Zpos p).
      { rewrite Hd1. apply Z.div_mul. lia. }
      apply E3.
      * apply E2.
        -- apply E1; [exact Hex|]. exists (k * 2 ^ Zpos p * 2 ^ Zpos p). lia.
        -- rewrite H1, Hd1. exists (k * 2 ^ Zpos p). ring.
      * rewrite H2, H1, Hd2. exists k. ring.
  - destruct (IH mrs Hm) as [H2 E2].
    assert (Hm2 : 0 <= shr_m (SpecFloat.iter_pos shr_1 p mrs))
      by (rewrite H2; apply Z.div_pos; [lia|apply Z.pow_pos_nonneg; lia]).
    destruct (IH _ Hm2) as [H3 E3].
    assert (Hpow : 2 ^ Zpos p~0 = 2 ^ Zpos p * 2 ^ Zpos p).
    { replace (Zpos p~0) with (Zpos p + Zpos p) by lia.
      rewrite !Z.pow_add_r by lia. ring. }
    assert (Hp : 0 < 2 ^ Zpos p) by (apply Z.pow_pos_nonneg; lia).
    split.
    + rewrite H3, H2, Hpow, !Z.div_div by lia. reflexivity.
    + intros Hex [k Hk]. rewrite Hpow in Hk.
      assert (Hd2 : shr_m mrs / 2 ^ Zpos p = k * 2 ^ Zpos p).
      { rewrite Hk, Z.mul_assoc. apply Z.div_mul. lia. }
      apply E3.
      * apply E2; [exact Hex|]. exists (k * 2 ^ Zpos p). lia.
      * rewrite H2, Hd2. exists k. ring.
  - change (2 ^ 1) with 2. apply shr_1_spec. exact Hm.
Qed.

Lemma shr_record_of_loc_m m l : shr_m (shr_record_of_loc m l) = m.
Proof. destruct l as [|[| |]]; reflexivity. Qed.

Lemma shr_record_of_loc_exact m : rec_exact (shr_record_of_loc m loc_Exact).
Proof. split; reflexivity. Qed.

Lemma loc_of_exact mrs : rec_exact mrs -> loc_of_shr_record mrs = loc_Exact.
Proof. destruct mrs as [m r s]. intros [Hr Hs]. cbn in Hr, Hs. subst. reflexivity. Qed.

Lemma round_nearest_even_range m l : m <= round_nearest_even m l <= m + 1.
Proof. destruct l as [|[| |]]; cbn [round_nearest_even]; try destruct (Z.even m); lia. Qed.

(** The first shift of [binary_round_aux]: to the exponent [e1] the format
    gives a number of this size, dropping the low [e1 - ex] bits. *)
Lemma shr_fexp_spec mx ex lx :
  0 <= mx ->
  let e1 := Z.max ex (fexp f32_prec f32_emax (Zdigits2 mx + ex)) in
  exists mrs,
    shr_fexp f32_prec f32_emax mx ex lx = (mrs, e1) /\
    shr_m mrs = mx / 2 ^ (e1 - ex) /\
    (lx = loc_Exact -> (2 ^ (e1 - ex) | mx) -> rec_exact mrs).
Proof.
  intros Hm e1. unfold shr_fexp, shr. subst e1.
  set (f := fexp f32_prec f32_emax (Zdigits2 mx + ex)).
  destruct (f - ex) as [|p|p] eqn:Hn.
  - exists (shr_record_of_loc mx lx).
    replace (Z.max ex f) with ex by lia. rewrite Z.sub_diag.
    split; [reflexivity|]. rewrite shr_record_of_loc_m, Z.div_1_r.
    split; [reflexivity|]. intros -> _. apply shr_record_of_loc_exact.
  - assert (Hm' : 0 <= shr_m (shr_record_of_loc mx lx)) by (rewrite shr_record_of_loc_m; exact Hm).
    destruct (iter_shr_1_spec p _ Hm') as [H1 E1]. rewrite shr_record_of_loc_m in H1, E1.
    exists (SpecFloat.iter_pos shr_1 p (shr_record_of_loc mx lx)).
    replace (Z.max ex f) with (ex + Zpos p) by lia.
    replace (ex + Zpos p - ex) with (Zpos p) by lia.
    split; [reflexivity|]. split; [exact H1|].
    intros -> Hdiv. apply E1; [apply shr_record_of_loc_exact|exact Hdiv].
  - exists (shr_record_of_loc mx lx).
    replace (Z.max ex f) with ex by lia. rewrite Z.sub_diag.
    split; [reflexivity|]. rewrite shr_record_of_loc_m, Z.div_1_r.
    split; [reflexivity|]. intros -> _. apply shr_record_of_loc_exact.
Qed.

(** The second shift, after rounding: nothing to drop unless the mantissa
    was rounded up to [2^24]. *)
Lemma shr_fexp_rounded m2 e1 :
  0 <= m2 <= 2 ^ 24 -> -149 <= e1 ->
  exists mrs e3,
    shr_fexp f32_prec f32_emax m2 e1 loc_Exact = (mrs, e3) /\
    shr_m mrs * 2 ^ (e3 - e1) = m2 /\ e1 <= e3 <= e1 + 1 /\
    (e3 = e1 + 1 -> m2 = 2 ^ 24).
Proof.
  intros Hm He.
  destruct (Z.eq_dec m2 (2 ^ 24)) as [->|Hne].
  - unfold shr_fexp. change (Zdigits2 (2 ^ 24)) with 25. rewrite fexp_f32.
    replace (Z.max (25 + e1 - 24) (-149) - e1) with 1 by lia.
    eexists _, _. split; [reflexivity|]. cbn [shr_m shr shr_1 SpecFloat.iter_pos shr_record_of_loc].
    replace (e1 + 1 - e1) with 1 by lia. split; [reflexivity|]. lia.
  - assert (Hd : Zdigits2 m2 <= 24).
    { destruct (Z.eq_dec m2 0) as [->|H0]; [cbn; lia|]. apply Zdigits2_le; lia. }
    destruct (shr_fexp_spec m2 e1 loc_Exact (proj1 Hm)) as (mrs & Hs & Hmrs & _).
    rewrite fexp_f32 in Hs, Hmrs.
    replace (Z.max e1 (Z.max (Zdigits2 m2 + e1 - 24) (-149))) with e1 in Hs, Hmrs by lia.
    rewrite Z.sub_diag, Z.div_1_r in Hmrs.
    exists mrs, e1. split; [exact Hs|]. rewrite Z.sub_diag, Hmrs. lia.
Qed.

(** Rounding to nearest does not pass a bound [c * 2^j] that the format
    represents when the exact value does not. *)
Lemma binary_round_aux_le sx mx ex lx c j :
  0 <= mx -> 0 < c < 2 ^ 24 -> ex <= j -> -149 <= j <= 104 ->
  mx <= c * 2 ^ (j - ex) ->
  (mx = c * 2 ^ (j - ex) -> lx = loc_Exact) ->
  binary_round_aux f32_prec f32_emax sx mx ex lx = S754_zero sx \/
  exists m3 e3,
    binary_round_aux f32_prec f32_emax sx mx ex lx = S754_finite sx m3 e3 /\
    e3 <= j /\ Zpos m3 <= c * 2 ^ (j - e3).
Proof.
  intros Hm Hc Hex Hj Hle Hexact.
  destruct (shr_fexp_spec mx ex lx Hm) as (mrs & Hs & Hm1 & Hex1).
  set (e1 := Z.max ex (fexp f32_prec f32_emax (Zdigits2 mx + ex))) in *.
  assert (He1def : e1 = Z.max ex (Z.max (Zdigits2 mx + ex - 24) (-149))) by reflexivity.
  clearbody e1.
  assert (Hd : mx < 2 ^ (24 + (e1 - ex)) /\ Zdigits2 mx + ex - 24 <= j).
  { destruct (Z.eq_dec mx 0) as [->|H0].
    - split; [apply Z.pow_pos_nonneg; lia|cbn; lia].
    - destruct (Zdigits2_bounds mx) as [Hlo Hhi]; [lia|].
      pose proof (Zdigits2_pos mx ltac:(lia)) as Hdp.
      split.
      + eapply Z.lt_le_trans; [exact Hhi|]. apply Z.pow_le_mono_r; lia.
      + assert (Hlt : 2 ^ (Zdigits2 mx - 1) < 2 ^ (24 + (j - ex))).
        { rewrite Z.pow_add_r by lia.
          assert (0 < 2 ^ (j - ex)) by (apply Z.pow_pos_nonneg; lia). nia. }
        apply Z.pow_lt_mono_r_iff in Hlt; lia. }
  destruct Hd as [Hlt24 Hdj].
  assert (He1 : ex <= e1 <= j /\ -149 <= e1) by lia.
  set (k := e1 - ex) in *.
  assert (Hk : 0 < 2 ^ k) by (apply Z.pow_pos_nonneg; lia).
  set (C := c * 2 ^ (j - e1)).
  assert (HC : c * 2 ^ (j - ex) = C * 2 ^ k).
  { unfold C, k. rewrite <- Z.mul_assoc, <- Z.pow_add_r by lia. do 2 f_equal. lia. }
  set (m1 := mx / 2 ^ k) in *.
  assert (Hm1r : 0 <= m1 < 2 ^ 24).
  { split; [apply Z.div_pos; lia|]. apply Z.div_lt_upper_bound; [lia|].
    rewrite <- Z.pow_add_r by lia. replace (k + 24) with (24 + k) by lia. exact Hlt24. }
  assert (Hm1C : m1 <= C).
  { apply Z.div_le_upper_bound; [lia|]. rewrite Z.mul_comm, <- HC. exact Hle. }
  set (m2 := round_nearest_even (shr_m mrs) (loc_of_shr_record mrs)).
  assert (Hm2 : m1 <= m2 <= m1 + 1).
  { unfold m2. rewrite Hm1. apply round_nearest_even_range. }
  assert (Hm2C : m2 <= C).
  { destruct (Z.eq_dec m1 C) as [Heq|Hne]; [|lia].
    assert (Hmul : m1 * 2 ^ k <= mx).
    { unfold m1. rewrite Z.mul_comm. apply Z.mul_div_le. lia. }
    assert (Hmx : mx = C * 2 ^ k) by (rewrite Heq in Hmul; lia).
    assert (Hloc : rec_exact mrs).
    { apply Hex1; [apply Hexact; lia|]. exists C. exact Hmx. }
    unfold m2. rewrite (loc_of_exact mrs Hloc). cbn [round_nearest_even]. lia. }
  destruct (shr_fexp_rounded m2 e1) as (mrs3 & e3 & Hs3 & Hval & He3 & Hup); [lia|lia|].
  assert (Hbra : binary_round_aux f32_prec f32_emax sx mx ex lx =
                 match shr_m mrs3 with
                 | 0 => S754_zero sx
                 | Zpos m => if e3 <=? f32_emax - f32_prec then S754_finite sx m e3
                             else S754_infinity sx
                 | Zneg _ => S754_nan
                 end).
  { unfold binary_round_aux. rewrite Hs. fold m2. rewrite Hs3. reflexivity. }
  assert (He3j : e3 <= j).
  { destruct (Z.eq_dec e3 (e1 + 1)) as [Heq|Hne]; [|lia].
    specialize (Hup Heq). unfold C in Hm2C.
    destruct (Z.eq_dec j e1) as [Hje|Hje]; [|lia].
    rewrite Hje, Z.sub_diag in Hm2C. lia. }
  assert (H3 : 0 < 2 ^ (e3 - e1)) by (apply Z.pow_pos_nonneg; lia).
  assert (Hm3 : shr_m mrs3 <= c * 2 ^ (j - e3)).
  { assert (HC3 : C = c * 2 ^ (j - e3) * 2 ^ (e3 - e1)).
    { unfold C. rewrite <- Z.mul_assoc, <- Z.pow_add_r by lia. do 2 f_equal. lia. }
    rewrite HC3, <- Hval in Hm2C. nia. }
  rewrite Hbra. destruct (shr_m mrs3) as [|m3|m3] eqn:Hm3e.
  - left. reflexivity.
  - right. exists m3, e3.
    destruct (Z.leb_spec e3 (f32_emax - f32_prec)) as [_|Hgt];
      [|unfold f32_emax, f32_prec in Hgt; lia].
    split; [reflexivity|]. split; assumption.
  - exfalso. assert (0 <= Zneg m3 * 2 ^ (e3 - e1)) by lia. nia.
Qed.

Lemma pos_iter_xO m d : Zpos (Pos.iter xO m d) = Zpos m * 2 ^ Zpos d.
Proof.
  induction d as [|d IH] using Pos.peano_ind.
  - cbn [Pos.iter]. lia.
  - rewrite Pos.iter_succ, Pos2Z.inj_xO, IH, Pos2Z.inj_succ, Z.pow_succ_r by lia. ring.
Qed.

(** [shl_align] lowers the exponent to [ex'] when that is lower, and keeps
    the value. *)
Lemma shl_align_spec mx ex ex' :
  exists m' e', shl_align mx ex ex' = (m', e') /\
                e' = Z.min ex ex' /\ Zpos m' = Zpos mx * 2 ^ (ex - e').
Proof.
  unfold shl_align. destruct (ex' - ex) as [|d|d] eqn:Hd.
  - exists mx, ex. split; [reflexivity|]. split; [lia|]. rewrite Z.sub_diag. lia.
  - exists mx, ex. split; [reflexivity|]. split; [lia|]. rewrite Z.sub_diag. lia.
  - exists (Pos.iter xO mx d), ex'. split; [reflexivity|]. split; [lia|].
    rewrite pos_iter_xO. do 2 f_equal. lia.
Qed.

(** The magnitude of a valid binary32 number between -1 and 1. *)
Lemma unit_range_mantissa sg m e :
  valid_binary f32_prec f32_emax (S754_finite sg m e) = true ->
  f32_leb f32_minus_one (S754_finite sg m e) = true ->
  f32_leb (S754_finite sg m e) f32_one = true ->
  e <= -23 /\ Zpos m <= 2 ^ (- e).
Proof.
  intros Hvalid Hlo Hhi.
  cbn [valid_binary] in Hvalid. unfold bounded, canonical_mantissa in Hvalid.
  apply andb_prop in Hvalid as [Hcan _]. apply Z.eqb_eq in Hcan.
  rewrite fexp_f32 in Hcan.
  destruct (digits2_pos_bounds m) as [_ Hdig].
  assert (Hm24 : Zpos m < 2 ^ 24).
  { eapply Z.lt_le_trans; [exact Hdig|]. apply Z.pow_le_mono_r; lia. }
  assert (He : e <= -23 /\ (e = -23 -> Zpos m <= 2 ^ 23)).
  { unfold f32_leb, SFleb in Hlo, Hhi.
    change f32_one with (S754_finite false 8388608 (-23)) in Hhi.
    change f32_minus_one with (S754_finite true 8388608 (-23)) in Hlo.
    destruct sg; cbn [SFcompare] in Hlo, Hhi.
    - destruct (Z.compare_spec (-23) e) as [<-|Hlt|Hgt]; try discriminate; [|lia].
      split; [lia|]. intros _.
      rewrite Pos.compare_cont_spec in Hlo. cbn [Pos.switch_Eq] in Hlo.
      rewrite (Pos2Z.inj_compare 8388608 m) in Hlo.
      destruct (Z.compare_spec (Zpos 8388608) (Zpos m)) as [Heq|Hlt|Hgt];
        cbn in Hlo; try discriminate; lia.
    - destruct (Z.compare_spec e (-23)) as [->|Hlt|Hgt]; try discriminate; [|lia].
      split; [lia|]. intros _.
      rewrite Pos.compare_cont_spec in Hhi. cbn [Pos.switch_Eq] in Hhi.
      rewrite (Pos2Z.inj_compare m 8388608) in Hhi.
      destruct (Z.compare_spec (Zpos m) (Zpos 8388608)) as [Heq|Hlt|Hgt];
        cbn in Hhi; try discriminate; lia. }
  destruct He as [He He23]. split; [exact He|].
  destruct (Z.eq_dec e (-23)) as [->|Hne]; [apply He23; reflexivity|].
  assert (2 ^ 24 <= 2 ^ (- e)) by (apply Z.pow_le_mono_r; lia). lia.
Qed.

(** [s + 1] for a valid [s] between -1 and 1 is [+0] or positive, at most 2. *)
Lemma add_one_le_two (s : f32) :
  valid_binary f32_prec f32_emax s = true ->
  f32_leb f32_minus_one s = true -> f32_leb s f32_one = true ->
  nonneg_le (f32_add s f32_one) 1 1.
Proof.
  intros Hvalid Hlo Hhi.
  destruct s as [sg|sg| |sg m e]; try (destruct sg; discriminate); try discriminate.
  - right. exists 8388608%positive, (-23). destruct sg; (split; [reflexivity|]); cbn; lia.
  - destruct (unit_range_mantissa sg m e Hvalid Hlo Hhi) as [He Hm].
    change f32_one with (S754_finite false 8388608 (-23)).
    unfold f32_add. cbn [SFadd].
    replace (Z.min e (-23)) with e by lia.
    destruct (shl_align_spec m e e) as (m1 & e1 & -> & He1 & Hm1).
    destruct (shl_align_spec 8388608 (-23) e) as (m2 & e2 & -> & He2 & Hm2).
    cbn [fst cond_Zopp].
    replace (Z.min e e) with e in He1 by lia. subst e1.
    rewrite Z.sub_diag in Hm1. replace (Z.min (-23) e) with e in He2 by lia. subst e2.
    assert (Hpow : Zpos m2 = 2 ^ (- e)).
    { rewrite Hm2. change (Zpos 8388608) with (2 ^ 23).
      rewrite <- Z.pow_add_r by lia. f_equal. lia. }
    assert (Hp : 0 < 2 ^ (- e)) by (apply Z.pow_pos_nonneg; lia).
    set (M := cond_Zopp sg (Zpos m1) + Zpos m2).
    assert (HM : 0 <= M <= 2 * 2 ^ (- e)) by (unfold M; destruct sg; cbn [cond_Zopp]; lia).
    clearbody M. unfold binary_normalize.
    destruct M as [|pm|pm]; [left; reflexivity| |lia].
    unfold binary_round.
    destruct (shl_align_spec pm e (fexp f32_prec f32_emax (Zpos (digits2_pos pm) + e)))
      as (mz & ez & -> & Hez & Hmz).
    apply (binary_round_aux_le false (Zpos mz) ez loc_Exact 1 1); try lia.
    + rewrite Hmz, Z.mul_1_l.
      replace (1 - ez) with (1 + - e + (e - ez)) by lia.
      rewrite !Z.pow_add_r by lia. change (2 ^ 1) with 2.
      assert (0 < 2 ^ (e - ez)) by (apply Z.pow_pos_nonneg; lia). nia.
    + intros _. reflexivity.
Qed.

(** Halving a float that is at most 2 gives one that is at most 1. *)
Lemma div_two_le_one (a : f32) :
  nonneg_le a 1 1 -> nonneg_le (f32_div a f32_two) 1 0.
Proof.
  intros [->|(m & e & -> & He & Hm)]; [left; reflexivity|].
  change f32_two with (S754_finite false 8388608 (-22)).
  unfold f32_div. cbn [SFdiv]. unfold SFdiv_core_binary.
  change (Zdigits2 (Zpos 8388608)) with 24. rewrite fexp_f32.
  set (d1 := Zdigits2 (Zpos m)).
  set (e' := Z.min (Z.max (d1 + e - (24 + -22) - 24) (-149)) (e - -22)).
  set (s := e - -22 - e').
  destruct (Zdigits2_bounds (Zpos m)) as [Hd _]; [lia|]. fold d1 in Hd.
  pose proof (Zdigits2_pos (Zpos m) ltac:(lia)) as Hd1. fold d1 in Hd1.
  rewrite Z.mul_1_l in Hm.
  assert (Hde : d1 + e <= 2).
  { assert (Hlt : 2 ^ (d1 - 1) < 2 ^ (1 - e + 1)).
    { rewrite (Z.pow_add_r 2 (1 - e) 1) by lia. lia. }
    apply Z.pow_lt_mono_r_iff in Hlt; lia. }
  assert (Hs : 0 <= s) by (unfold s, e'; lia).
  assert (He' : e' <= -24) by (unfold e'; lia).
  set (m' := match s with Z.pos _ => Z.shiftl (Zpos m) s | 0 => Zpos m | Z.neg _ => 0 end).
  assert (Hm' : m' = Zpos m * 2 ^ s).
  { unfold m'. destruct s as [|ps|ps] eqn:Hse; [cbn; lia| |lia].
    apply Z.shiftl_mul_pow2. lia. }
  clearbody m'.
  assert (Hm'le : m' <= 8388608 * 2 ^ (- e')).
  { change 8388608 with (2 ^ 23). rewrite Hm', <- Z.pow_add_r by lia.
    replace (23 + - e') with (1 - e + s) by (unfold s; lia).
    rewrite Z.pow_add_r by lia.
    assert (0 < 2 ^ s) by (apply Z.pow_pos_nonneg; lia). nia. }
  assert (Hm'0 : 0 <= m').
  { rewrite Hm'. assert (0 < 2 ^ s) by (apply Z.pow_pos_nonneg; lia). lia. }
  pose proof (Z_div_mod m' 8388608 ltac:(lia)) as Hdm.
  destruct (Z.div_eucl m' 8388608) as [q r]. destruct Hdm as [Hq Hr].
  assert (Hp : 0 < 2 ^ (- e')) by (apply Z.pow_pos_nonneg; lia).
  cbn [xorb].
  apply (binary_round_aux_le false q e' (new_location 8388608 r) 1 0); try lia.
  - rewrite Z.mul_1_l, Z.sub_0_l. lia.
  - rewrite Z.mul_1_l, Z.sub_0_l. intros Hqe.
    assert (r = 0) by lia. subst r. reflexivity.
Qed.

(** A float that is at most 1, times 576, is at most 576. *)
Lemma mul_576_le (b : f32) :
  nonneg_le b 1 0 -> nonneg_le (f32_mul b (f32_of_i32 576)) 9 6.
Proof.
  intros [->|(m & e & -> & He & Hm)]; [left; reflexivity|].
  change (f32_of_i32 576) with (S754_finite false 9437184 (-14)).
  unfold f32_mul. cbn [SFmul xorb].
  rewrite Z.mul_1_l, Z.sub_0_l in Hm.
  apply (binary_round_aux_le false (Zpos (m * 9437184)) (e + -14) loc_Exact 9 6); try lia.
  - rewrite Pos2Z.inj_mul. change (Zpos 9437184) with (9 * 2 ^ 20).
    replace (6 - (e + -14)) with (20 + - e) by lia.
    rewrite Z.pow_add_r by lia. nia.
  - intros _. reflexivity.
Qed.

(** Truncating a float that is at most 576 gives an integer of [0..576]. *)
Lemma trunc_le_576 (f : f32) :
  nonneg_le f 9 6 -> exists z, f32_trunc f = Some z /\ 0 <= z <= 576.
Proof.
  intros [->|(m & e & -> & He & Hm)]; [exists 0; split; [reflexivity|lia]|].
  exists (Z.shiftl (Zpos m) e). split; [reflexivity|].
  destruct (Z.le_gt_cases 0 e) as [Hpos|Hneg].
  - rewrite Z.shiftl_mul_pow2 by lia.
    assert (0 < 2 ^ e) by (apply Z.pow_pos_nonneg; lia).
    assert (0 < 2 ^ (6 - e)) by (apply Z.pow_pos_nonneg; lia).
    assert (2 ^ (6 - e) * 2 ^ e = 2 ^ 6) by (rewrite <- Z.pow_add_r by lia; f_equal; lia).
    change (2 ^ 6) with 64 in *. nia.
  - rewrite Z.shiftl_div_pow2 by lia.
    assert (0 < 2 ^ (- e)) by (apply Z.pow_pos_nonneg; lia).
    split; [apply Z.div_pos; lia|].
    apply Z.div_le_upper_bound; [lia|].
    replace (6 - e) with (6 + - e) in Hm by lia. rewrite Z.pow_add_r in Hm by lia.
    change (2 ^ 6) with 64 in Hm. lia.
Qed.

(** For every valid binary32 sine between -1 and 1 the product of the
    update step truncates to an integer of [0..576]: the conversion to [i32]
    is defined and the clamp leaves it alone. *)
Lemma target_of_sine_range (s : f32) :
  valid_binary f32_prec f32_emax s = true ->
  f32_leb f32_minus_one s = true -> f32_leb s f32_one = true ->
  f32_trunc (target_of_sine s) = Some (i32_of_f32 (target_of_sine s)) /\
  0 <= i32_of_f32 (target_of_sine s) <= 576 /\
  clamp_x (i32_of_f32 (target_of_sine s)) = i32_of_f32 (target_of_sine s).
Proof.
  intros Hvalid Hlo Hhi.
  destruct (trunc_le_576 (target_of_sine s)) as (z & Hz & Hr).
  { unfold target_of_sine. apply mul_576_le, div_two_le_one, add_one_le_two; assumption. }
  assert (Hi : i32_of_f32 (target_of_sine s) = z).
  { unfold i32_of_f32. rewrite Hz. unfold in_i32, i32_min, i32_max.
    destruct (Z.leb_spec (- 2 ^ 31) z); [|lia].
    destruct (Z.leb_spec z (2 ^ 31 - 1)); [reflexivity|lia]. }
  rewrite Hi. split; [exact Hz|]. split; [exact Hr|].
  unfold clamp_x, screen_width. lia.
Qed.

Lemma enemy_target_of_sine (sinf : f32 -> f32) (t : f32) :
  enemy_target sinf t (screen_width - 64) = target_of_sine (sinf t).
Proof. reflexivity. Qed.

(** Against C1 as stated.  In the second pass of the program
    ([elapsed_time = frame_time]) the float product is 292.79...: the update
    stores 292, the rounded formula gives 293.  This holds for every [sinf]
    that is plausible at [frame_time], and there is one. *)
Lemma enemy_x_not_rounded :
  ~ (forall sinf g fl,
       x (Enemy.size (enemy g)) = 64 ->
       Some (enemy_x (update sinf g fl)) = rounded_enemy_x sinf g) /\
  (forall sinf fl, libm_plausible sinf ->
     let g := step sinf no_input init_game in
     elapsed_time g = frame_time /\
     enemy_x (update sinf g fl) = 292 /\
     rounded_enemy_x sinf g = Some 293).
Proof.
  assert (Hall : forall sinf fl, libm_plausible sinf ->
     let g := step sinf no_input init_game in
     elapsed_time g = frame_time /\
     enemy_x (update sinf g fl) = 292 /\
     rounded_enemy_x sinf g = Some 293).
  { intros sinf fl (_ & Hlo & Hhi). cbv zeta.
    destruct (sine_bracket_292_293 (sinf frame_time) Hlo Hhi) as [Ht Hr].
    split; [reflexivity|]. split.
    - rewrite update_enemy_x by reflexivity.
      change (elapsed_time (step sinf no_input init_game)) with frame_time.
      rewrite enemy_target_of_sine, Ht. reflexivity.
    - unfold rounded_enemy_x.
      change (elapsed_time (step sinf no_input init_game)) with frame_time.
      rewrite enemy_target_of_sine. exact Hr. }
  split; [|exact Hall].
  intros H.
  specialize (H sinf_sample (step sinf_sample no_input init_game) no_input eq_refl).
  destruct (Hall sinf_sample no_input sinf_sample_plausible) as (_ & Hx & Hr).
  rewrite Hx, Hr in H. discriminate H.
Qed.

(** C1 (as the code has it): for a sine in [-1, 1] the enemy's x after an
    update is the binary32 product [((sinf(elapsed_time) + 1) / 2) * 576]
    truncated toward zero, an integer of [0..576] that the clamp leaves
    alone; it depends on the clock alone, so two runs of equally many
    passes from one state put the enemy at the same x, whatever the flags. *)
Theorem enemy_x_formula (sinf : f32 -> f32) (g : Game) (fl : Flags) :
  x (Enemy.size (enemy g)) = 64 ->
  unit_sine (sinf (elapsed_time g)) ->
  f32_trunc (enemy_target sinf (elapsed_time g) (screen_width - 64))
    = Some (enemy_x (update sinf g fl)) /\
  0 <= enemy_x (update sinf g fl) <= screen_width - 64 /\
  (forall fls fls' fl',
     length fls = length fls' ->
     enemy_x (update sinf (run sinf fls g) fl) = enemy_x (update sinf (run sinf fls' g) fl')).
Proof.
  intros Hsize (Hvalid & Hlo & Hhi).
  destruct (target_of_sine_range (sinf (elapsed_time g)) Hvalid Hlo Hhi) as (Ht & Hr & Hc).
  rewrite update_enemy_x by exact Hsize.
  rewrite enemy_target_of_sine, Hc.
  split; [exact Ht|]. split; [exact Hr|].
  intros fls fls' fl' Hlen.
  destruct (run_same_shape sinf fls g) as (_ & _ & Hs & _).
  destruct (run_same_shape sinf fls' g) as (_ & _ & Hs' & _).
  rewrite !update_enemy_x by congruence.
  rewrite !run_elapsed_time, Hlen. reflexivity.
Qed.

(** The first pass of the program: the sine of +0 is +0, the enemy goes to 288. *)
Lemma enemy_x_formula_witness :
  f32_trunc (enemy_target sinf_sample (S754_zero false) (screen_width - 64)) = Some 288.
Proof.
  exact (proj1 (enemy_x_formula sinf_sample init_game no_input eq_refl
                  (conj eq_refl (conj eq_refl eq_refl)))).
Defined.

(** Against C5 as stated.  The first update reads [elapsed_time] before the
    clock advances: it takes the sine of 0 and stores 288, where sin(1/60)
    would give 292. *)
Lemma first_step_uses_time_zero :
  ~ (forall sinf, first_step_claim sinf) /\
  (forall sinf, libm_plausible sinf ->
     enemy_x (step sinf no_input init_game) = 288 /\
     i32_of_f32 (enemy_target sinf frame_time (screen_width - 64)) = 292).
Proof.
  assert (Hall : forall sinf, libm_plausible sinf ->
     enemy_x (step sinf no_input init_game) = 288 /\
     i32_of_f32 (enemy_target sinf frame_time (screen_width - 64)) = 292).
  { intros sinf (H0 & Hlo & Hhi). split.
    - change (enemy_x (step sinf no_input init_game))
        with (enemy_x (update sinf init_game no_input)).
      rewrite update_enemy_x by reflexivity.
      change (elapsed_time init_game) with (S754_zero false).
      rewrite enemy_target_of_sine, H0. reflexivity.
    - rewrite enemy_target_of_sine.
      apply (sine_bracket_292_293 (sinf frame_time) Hlo Hhi). }
  split; [|exact Hall].
  intros H. destruct (H sinf_sample) as [_ Hx].
  destruct (Hall sinf_sample sinf_sample_plausible) as [H288 H292].
  rewrite H288, H292 in Hx. discriminate Hx.
Qed.

(** C5 (as the code has it): from the initial state with no input, one pass
    leaves the player at (0, 400) and puts the enemy at the truncation of
    [((sinf(0) + 1) / 2) * 576], which is 288 as [sinf(+0)] is [+0]. *)
Theorem first_pass_from_init (sinf : f32 -> f32) :
  sinf (S754_zero false) = S754_zero false ->
  let g := step sinf no_input init_game in
  Player.position (player g) = {| x := 0; y := 400 |} /\
  enemy_x g = i32_of_f32 (enemy_target sinf (S754_zero false) (screen_width - 64)) /\
  enemy_x g = 288 /\
  elapsed_time g = frame_time.
Proof.
  intros H0. cbv zeta.
  assert (Hx : enemy_x (step sinf no_input init_game) =
               clamp_x (i32_of_f32 (target_of_sine (sinf (S754_zero false))))).
  { change (enemy_x (step sinf no_input init_game))
      with (enemy_x (update sinf init_game no_input)).
    rewrite update_enemy_x by reflexivity. reflexivity. }
  split; [reflexivity|]. rewrite Hx, enemy_target_of_sine, H0.
  split; [reflexivity|]. split; reflexivity.
Qed.

(** The same pass with the sample [sinf]. *)
Lemma first_pass_from_init_witness :
  enemy_x (step sinf_sample no_input init_game) = 288.
Proof.
  exact (proj1 (proj2 (proj2 (first_pass_from_init sinf_sample eq_refl)))).
Defined.

(** ** The asset locator *)

Lemma eqb_NUL_false c : c <> fs.NUL -> Ascii.eqb c fs.NUL = false.
Proof. intros H. apply Ascii.eqb_neq. exact H. Qed.

Lemma first_nul_no_nul p : no_nul p -> fs.first_nul p = None.
Proof.
  induction 1 as [|c p Hc _ IH]; [reflexivity|].
  cbn [fs.first_nul]. rewrite (eqb_NUL_false c Hc), IH. reflexivity.
Qed.

Lemma first_nul_app p rest : no_nul p -> fs.first_nul (p ++ fs.NUL :: rest) = Some (length p).
Proof.
  induction 1 as [|c p Hc _ IH]; [reflexivity|].
  cbn [app fs.first_nul length]. rewrite (eqb_NUL_false c Hc), IH. reflexivity.
Qed.

Lemma first_nul_lt b : forall n, fs.first_nul b = Some n -> (n < length b)%nat.
Proof.
  induction b as [|c b IH]; intros n H; [discriminate|].
  cbn [fs.first_nul] in H. destruct (Ascii.eqb c fs.NUL).
  - injection H as <-. cbn [length]. lia.
  - destruct (fs.first_nul b) as [k|]; [|discriminate].
    injection H as <-. specialize (IH k eq_refl). cbn [length]. lia.
Qed.

Lemma first_nul_elem b : fs.NUL ∈ b -> is_Some (fs.first_nul b).
Proof.
  induction b as [|c b IH]; intros H.
  - inversion H.
  - cbn [fs.first_nul]. destruct (Ascii.eqb c fs.NUL) eqn:Hc; [eauto|].
    apply elem_of_cons in H as [Heq|H].
    + subst c. rewrite Ascii.eqb_refl in Hc. discriminate.
    + destruct (IH H) as [k ->]. eauto.
Qed.

Lemma load_in_bounds (i : nat) b :
  (i < length b)%nat -> exists c, fs.load (Z.of_nat i) b = Some (c, b) /\ b !! i = Some c.
Proof.
  intros H. unfold fs.load.
  destruct (Z.ltb_spec (Z.of_nat i) 0) as [Hneg|_]; [lia|].
  rewrite Nat2Z.id. destruct (lookup_lt_is_Some_2 b i H) as [c Hc].
  exists c. rewrite Hc. split; reflexivity.
Qed.

Lemma store_in_bounds (i : nat) c b :
  (i < length b)%nat -> fs.store (Z.of_nat i) c b = Some (tt, <[i := c]> b).
Proof.
  intros H. unfold fs.store.
  destruct (Z.leb_spec 0 (Z.of_nat i)) as [_|Hneg]; [|lia].
  destruct (Z.ltb_spec (Z.of_nat i) (Z.of_nat (length b))) as [_|Hge]; [|lia].
  cbn [andb]. rewrite Nat2Z.id. reflexivity.
Qed.

(** Every access of the loop is within an array longer than the start index;
    the loop keeps the array's length and leaves a terminator in it. *)
Lemma strip_loop_in_bounds i : forall removed b,
  (i < length b)%nat -> fs.NUL ∈ b ->
  exists removed' b', fs.strip_loop i removed b = Some (removed', b') /\
                      length b' = length b /\ fs.NUL ∈ b'.
Proof.
  induction i as [|i IH]; intros removed b Hi Hnul.
  - exists removed, b. repeat split; assumption.
  - cbn [fs.strip_loop]. unfold fs.bind.
    destruct (load_in_bounds (S i) b Hi) as (c & -> & _).
    rewrite (store_in_bounds (S i) fs.NUL b Hi).
    set (removed1 := if Ascii.eqb c "/" then wrap_i32 (removed + 1) else removed).
    assert (Hlen : length (<[S i := fs.NUL]> b) = length b) by apply length_insert.
    assert (Hnul' : fs.NUL ∈ <[S i := fs.NUL]> b) by (apply list_elem_of_insert; exact Hi).
    destruct (removed1 =? 3).
    + eexists _, _. split; [reflexivity|]. split; assumption.
    + destruct (IH removed1 (<[S i := fs.NUL]> b)) as (r' & b' & -> & Hl & Hn);
        [lia|exact Hnul'|].
      exists r', b'. split; [reflexivity|]. split; [congruence|exact Hn].
Qed.

(** With fewer than three separators ahead (counting those already met),
    the loop never breaks: it clears every index from [i] down to 1. *)
Lemma strip_loop_exhausts mid : forall c0 rest removed,
  0 <= removed ->
  removed + Z.of_nat (count_slash mid) < 3 ->
  fs.strip_loop (length mid) removed (c0 :: mid ++ rest)
  = Some (removed + Z.of_nat (count_slash mid),
          c0 :: replicate (length mid) fs.NUL ++ rest).
Proof.
  induction mid as [|c mid IH] using rev_ind; intros c0 rest removed H0 H3.
  - cbn. rewrite Z.add_0_r. reflexivity.
  - unfold count_slash in *. rewrite count_occ_app in H3 |- *. cbn [count_occ] in H3 |- *.
    rewrite length_app. cbn [length]. rewrite Nat.add_1_r.
    cbn [fs.strip_loop]. unfold fs.bind.
    assert (Hi : (S (length mid) < length (c0 :: (mid ++ [c]) ++ rest))%nat).
    { cbn [length]. rewrite !length_app. cbn [length]. lia. }
    assert (Hc : (c0 :: (mid ++ [c]) ++ rest) !! S (length mid) = Some c).
    { change ((c0 :: (mid ++ [c]) ++ rest) !! S (length mid))
        with (((mid ++ [c]) ++ rest) !! length mid).
      rewrite <- app_assoc, lookup_app_r by lia.
      rewrite Nat.sub_diag. reflexivity. }
    destruct (load_in_bounds _ _ Hi) as (c' & -> & Hc'). rewrite Hc in Hc'. injection Hc' as <-.
    rewrite (store_in_bounds _ fs.NUL _ Hi).
    assert (Hins : <[S (length mid) := fs.NUL]> (c0 :: (mid ++ [c]) ++ rest)
                   = c0 :: mid ++ (fs.NUL :: rest)).
    { change (<[S (length mid) := fs.NUL]> (c0 :: (mid ++ [c]) ++ rest))
        with (c0 :: <[length mid := fs.NUL]> ((mid ++ [c]) ++ rest)).
      f_equal. rewrite <- app_assoc.
      replace (length mid) with (length mid + 0)%nat at 1 by lia.
      rewrite insert_app_r. reflexivity. }
    rewrite Hins.
    replace (replicate (S (length mid)) fs.NUL ++ rest)
      with (replicate (length mid) fs.NUL ++ fs.NUL :: rest).
    2:{ rewrite <- Nat.add_1_r, replicate_add, <- app_assoc. reflexivity. }
    destruct (ascii_dec c "/") as [->|Hne].
    + rewrite Ascii.eqb_refl. cbn [Nat.add] in H3.
      rewrite wrap_i32_id by (unfold i32_min, i32_max; lia).
      destruct (Z.eqb_spec (removed + 1) 3) as [Heq|_]; [lia|].
      rewrite IH by lia. f_equal. f_equal. lia.
    + assert (Hcf : Ascii.eqb c "/" = false) by (apply Ascii.eqb_neq; exact Hne).
      rewrite Hcf. cbn [Nat.add] in H3.
      destruct (Z.eqb_spec removed 3) as [Heq|_]; [lia|].
      rewrite IH by lia. f_equal. f_equal. lia.
Qed.

Lemma zeroed_length : length (fs.zeroed max_path_len) = Z.to_nat max_path_len.
Proof. apply length_replicate. Qed.

Lemma path_buffer_length p :
  (length p <= Z.to_nat max_path_len)%nat -> length (path_buffer p) = Z.to_nat max_path_len.
Proof. intros H. unfold path_buffer. rewrite length_app, length_replicate. lia. Qed.

Lemma path_buffer_nul p :
  (length p < Z.to_nat max_path_len)%nat -> fs.NUL ∈ path_buffer p.
Proof.
  intros H. unfold path_buffer. apply elem_of_app. right.
  apply elem_of_replicate. split; [reflexivity|lia].
Qed.

Lemma readlink_short p :
  (length p < Z.to_nat max_path_len)%nat ->
  fs.readlink (Some p) max_path_len (fs.zeroed max_path_len)
  = Some (Z.of_nat (length p), path_buffer p).
Proof.
  intros H. unfold fs.readlink. rewrite zeroed_length.
  rewrite Nat.min_l by lia.
  destruct (Nat.leb_spec (length p) (Z.to_nat max_path_len)) as [_|Hgt]; [|lia].
  rewrite take_ge by lia. unfold fs.zeroed. rewrite drop_replicate. reflexivity.
Qed.

Lemma readlink_long p :
  (Z.to_nat max_path_len <= length p)%nat ->
  fs.readlink (Some p) max_path_len (fs.zeroed max_path_len)
  = Some (max_path_len, take (Z.to_nat max_path_len) p).
Proof.
  intros H. unfold fs.readlink. rewrite zeroed_length.
  rewrite Nat.min_r by lia. rewrite Nat.leb_refl.
  rewrite drop_ge by (rewrite zeroed_length; lia).
  rewrite app_nil_r. reflexivity.
Qed.

Lemma scan_then_strip b :
  length b = Z.to_nat max_path_len -> fs.NUL ∈ b ->
  exists n removed b',
    fs.first_nul b = Some n /\
    fs.bind fs.strlen (fun len => fs.strip_loop (Z.to_nat (wrap_i32 len - 1)) 0) b
      = Some (removed, b') /\
    fs.strip_loop (n - 1) 0 b = Some (removed, b') /\
    length b' = Z.to_nat max_path_len /\ fs.NUL ∈ b'.
Proof.
  intros Hlen Hnul.
  destruct (first_nul_elem b Hnul) as [n Hn].
  pose proof (first_nul_lt b n Hn) as Hlt. rewrite Hlen in Hlt.
  change (Z.to_nat max_path_len) with 256%nat in *.
  destruct (strip_loop_in_bounds (n - 1) 0 b) as (removed & b' & Hloop & Hl & Hn');
    [lia|exact Hnul|].
  exists n, removed, b'. split; [exact Hn|].
  split; [|split; [exact Hloop|split; [congruence|exact Hn']]].
  unfold fs.bind, fs.strlen. rewrite Hn.
  rewrite wrap_i32_id by (unfold i32_min, i32_max; lia).
  replace (Z.to_nat (Z.of_nat n - 1)) with (n - 1)%nat by lia.
  exact Hloop.
Qed.

(** [set_install_dir] on the zeroed [root]: with a path that fits, every
    access is in bounds and the array still holds a C string afterwards. *)
Lemma set_install_dir_defined exe :
  exe_fits exe ->
  exists removed b,
    fs.set_install_dir exe max_path_len (fs.zeroed max_path_len) = Some (removed, b) /\
    length b = Z.to_nat max_path_len /\ fs.NUL ∈ b.
Proof.
  intros Hfit. unfold fs.set_install_dir.
  destruct exe as [p|]; cbn [exe_fits] in Hfit.
  - unfold fs.bind at 1. rewrite (readlink_short p Hfit).
    destruct (scan_then_strip (path_buffer p)) as (n & removed & b' & _ & H & _ & Hl & Hn).
    + apply path_buffer_length. lia.
    + apply path_buffer_nul. exact Hfit.
    + exists removed, b'. split; [exact H|]. split; assumption.
  - unfold fs.bind at 1. cbn [fs.readlink].
    destruct (scan_then_strip (fs.zeroed max_path_len)) as (n & removed & b' & _ & H & _ & Hl & Hn).
    + apply zeroed_length.
    + apply elem_of_replicate. split; [reflexivity|discriminate].
    + exists removed, b'. split; [exact H|]. split; assumption.
Qed.

Lemma snprintf_defined s b :
  length b = Z.to_nat max_path_len ->
  exists b', fs.snprintf max_path_len s b = Some (tt, b') /\ fs.NUL ∈ b'.
Proof.
  intros Hlen. unfold fs.snprintf. change (max_path_len <=? 0) with false. cbv iota zeta.
  assert (Hout : (length (take (Z.to_nat (max_path_len - 1)) s ++ [fs.NUL]) <= length b)%nat).
  { rewrite length_app, length_take, Hlen. cbn [length].
    change (Z.to_nat (max_path_len - 1)) with 255%nat.
    change (Z.to_nat max_path_len) with 256%nat. lia. }
  apply Nat.leb_le in Hout. rewrite Hout.
  eexists. split; [reflexivity|].
  apply elem_of_app. left. apply elem_of_app. right. apply elem_of_cons. left. reflexivity.
Qed.

Lemma c_str_defined b : fs.NUL ∈ b -> is_Some (fs.c_str b).
Proof.
  intros H. unfold fs.c_str. destruct (first_nul_elem b H) as [n ->]. eauto.
Qed.

(** With a path that fits, [fs::init] and [fs::asset] stay within their
    arrays and produce C strings. *)
Lemma init_defined exe :
  exe_fits exe ->
  exists d, fs.init exe fs.init_dirs = Some d /\
            forall name, is_Some (asset_path d name).
Proof.
  intros Hfit. unfold fs.init. cbn [fs.root fs.assets fs.init_dirs].
  destruct (set_install_dir_defined exe Hfit) as (removed & root' & -> & Hl & Hn).
  destruct (c_str_defined root' Hn) as [r ->].
  destruct (snprintf_defined (r ++ list_ascii_of_string "/assets") (fs.zeroed max_path_len)
              zeroed_length) as (assets' & -> & Ha).
  eexists. split; [reflexivity|].
  intros name. unfold asset_path, fs.asset. cbn [fs.assets].
  change (fs.size_t_of_int max_path_len) with max_path_len.
  destruct (c_str_defined assets' Ha) as [a ->].
  destruct (snprintf_defined (a ++ fs.slash ++ list_ascii_of_string name)
              (fs.zeroed max_path_len) zeroed_length) as (b' & -> & Hb).
  apply c_str_defined. exact Hb.
Qed.

Lemma strlen_short p :
  no_nul p -> (length p < Z.to_nat max_path_len)%nat ->
  fs.strlen (path_buffer p) = Some (Z.of_nat (length p), path_buffer p).
Proof.
  intros Hp Hlen. unfold fs.strlen, path_buffer.
  destruct (Z.to_nat max_path_len - length p)%nat as [|k] eqn:Hk; [lia|].
  cbn [replicate]. rewrite first_nul_app by exact Hp. reflexivity.
Qed.

(** C10: for a path without an embedded NUL, [set_install_dir] on the
    zeroed 256-byte [root] stays within the array exactly when the path is
    shorter than the array.  A shorter path ends at the first zero that was
    already there ([strlen] is the path's length) and every access of the
    loop is in bounds; a path of 256 bytes or more fills the array, and the
    scan of [strlen] leaves it. *)
Theorem set_install_dir_bounds (p : list ascii) :
  no_nul p ->
  ((length p < Z.to_nat max_path_len)%nat ->
     fs.readlink (Some p) max_path_len (fs.zeroed max_path_len)
       = Some (Z.of_nat (length p), path_buffer p) /\
     fs.strlen (path_buffer p) = Some (Z.of_nat (length p), path_buffer p) /\
     exists removed b,
       fs.set_install_dir (Some p) max_path_len (fs.zeroed max_path_len) = Some (removed, b) /\
       length b = Z.to_nat max_path_len) /\
  ((Z.to_nat max_path_len <= length p)%nat ->
     fs.readlink (Some p) max_path_len (fs.zeroed max_path_len)
       = Some (max_path_len, take (Z.to_nat max_path_len) p) /\
     fs.strlen (take (Z.to_nat max_path_len) p) = None /\
     fs.set_install_dir (Some p) max_path_len (fs.zeroed max_path_len) = None).
Proof.
  intros Hp. split; intros Hlen.
  - split; [apply readlink_short; exact Hlen|]. split.
    + apply strlen_short; assumption.
    + destruct (set_install_dir_defined (Some p) Hlen) as (removed & b & H & Hl & _).
      exists removed, b. split; assumption.
  - assert (Hscan : fs.strlen (take (Z.to_nat max_path_len) p) = None).
    { unfold fs.strlen. rewrite first_nul_no_nul; [reflexivity|].
      apply Forall_take. exact Hp. }
    split; [apply readlink_long; exact Hlen|]. split; [exact Hscan|].
    unfold fs.set_install_dir. unfold fs.bind at 1. rewrite (readlink_long p Hlen).
    unfold fs.bind. rewrite Hscan. reflexivity.
Qed.

(** A short path: every access is in bounds. *)
Lemma set_install_dir_bounds_witness :
  exists removed b,
    fs.set_install_dir (Some (list_ascii_of_string "/r/build/linux/game"))
      max_path_len (fs.zeroed max_path_len) = Some (removed, b) /\
    length b = Z.to_nat max_path_len.
Proof.
  refine (proj2 (proj2 (proj1 (set_install_dir_bounds
            (list_ascii_of_string "/r/build/linux/game") _) _))).
  - repeat constructor; discriminate.
  - vm_compute. repeat constructor.
Defined.

Lemma count_slash_cons c p : (count_slash p <= count_slash (c :: p))%nat.
Proof. unfold count_slash. cbn [count_occ]. destruct (ascii_dec c "/"); lia. Qed.

(** C7 (as the code has it): on a path with fewer than three separators the
    loop never reaches [removed == 3]; it runs down to index 1 and clears
    every byte after the first, so the base directory is the first
    character of the path alone (nothing for the empty path). *)
Theorem few_separators_keep_first_char (p : list ascii) :
  no_nul p ->
  (length p < Z.to_nat max_path_len)%nat ->
  (count_slash p < 3)%nat ->
  fs.set_install_dir (Some p) max_path_len (fs.zeroed max_path_len)
    = Some (Z.of_nat (count_slash (drop 1 p)), path_buffer (take 1 p)) /\
  Z.of_nat (count_slash (drop 1 p)) < 3 /\
  fs.install_dir (Some p) = Some (take 1 p).
Proof.
  intros Hp Hlen Hcount.
  pose proof (readlink_short p Hlen) as Hread.
  pose proof (strlen_short p Hp Hlen) as Hscan.
  assert (Hrun : fs.set_install_dir (Some p) max_path_len (fs.zeroed max_path_len)
                 = Some (Z.of_nat (count_slash (drop 1 p)), path_buffer (take 1 p))).
  { unfold fs.set_install_dir. unfold fs.bind at 1. rewrite Hread.
    unfold fs.bind. rewrite Hscan.
    change (Z.to_nat max_path_len) with 256%nat in Hlen.
    rewrite wrap_i32_id by (unfold i32_min, i32_max; lia).
    replace (Z.to_nat (Z.of_nat (length p) - 1)) with (length p - 1)%nat by lia.
    destruct p as [|c0 mid].
    - reflexivity.
    - replace (length (c0 :: mid) - 1)%nat with (length mid) by (cbn [length]; lia).
      change (drop 1 (c0 :: mid)) with mid.
      change (take 1 (c0 :: mid)) with [c0].
      unfold path_buffer. cbn [app length].
      pose proof (count_slash_cons c0 mid) as Hle.
      rewrite (strip_loop_exhausts mid c0 _ 0) by lia.
      f_equal. f_equal. f_equal.
      rewrite <- replicate_add. f_equal. cbn [length] in Hlen.
      change (Z.to_nat max_path_len) with 256%nat. lia. }
  split; [exact Hrun|]. split.
  - destruct p as [|c0 mid]; [cbn; lia|]. change (drop 1 (c0 :: mid)) with mid.
    pose proof (count_slash_cons c0 mid). lia.
  - unfold fs.install_dir. rewrite Hrun. unfold fs.c_str, path_buffer.
    assert (Hp1 : no_nul (take 1 p)) by (apply Forall_take; exact Hp).
    assert (Hl1 : (length (take 1 p) <= 1)%nat) by (rewrite length_take; lia).
    destruct (Z.to_nat max_path_len - length (take 1 p))%nat as [|k] eqn:Hk.
    { change (Z.to_nat max_path_len) with 256%nat in Hk. lia. }
    cbn [replicate]. rewrite first_nul_app by exact Hp1.
    rewrite take_app_length. reflexivity.
Qed.

(** The path [/x/y] has two separators: only [/] is left. *)
Lemma few_separators_keep_first_char_witness :
  fs.install_dir (Some (list_ascii_of_string "/x/y")) = Some (list_ascii_of_string "/").
Proof.
  refine (proj2 (proj2 (few_separators_keep_first_char (list_ascii_of_string "/x/y") _ _ _))).
  - repeat constructor; discriminate.
  - vm_compute. repeat constructor.
  - vm_compute. repeat constructor.
Defined.

Example three_levels_up_repo :
  three_levels_up (list_ascii_of_string "/home/u/repo/build/linux/recurse_invaders")
  = list_ascii_of_string "/home/u/repo".
Proof. reflexivity. Qed.

(** Against C7 as stated.  For [/x/y] (two separators) the base directory
    is [/], the very directory three levels up, and for the empty path it is
    empty: in neither case is it too long. *)
Lemma few_separators_not_too_long :
  ~ (forall p, no_nul p -> (length p < Z.to_nat max_path_len)%nat ->
               (count_slash p < 3)%nat -> too_long p) /\
  fs.install_dir (Some (list_ascii_of_string "/x/y")) = Some (list_ascii_of_string "/") /\
  three_levels_up (list_ascii_of_string "/x/y") = list_ascii_of_string "/" /\
  fs.install_dir (Some []) = Some [] /\
  fs.install_dir None = Some [].
Proof.
  split; [|repeat split; vm_compute; reflexivity].
  intros H. destruct (H (list_ascii_of_string "/x/y")) as (d & Hd & Hlt).
  - repeat constructor; discriminate.
  - vm_compute. repeat constructor.
  - vm_compute. repeat constructor.
  - vm_compute in Hd. injection Hd as <-. vm_compute in Hlt. lia.
Qed.

(** ** The exit status *)

Lemma poll_events_quit queue : forall fl,
  poll_events queue fl = None <-> has_quit queue.
Proof.
  unfold has_quit.
  induction queue as [|e queue IH]; intros fl.
  - split; [discriminate|intros []].
  - destruct e as [|[| |]|[| |]|]; cbn [poll_events In]; try rewrite IH;
      split; intros H; auto; destruct H as [H|H]; auto; discriminate H.
Qed.

Lemma main_loop_outcome (sinf : f32 -> f32) frames : forall g fl out,
  (Exists has_quit frames /\ outcome (main_loop sinf frames g fl out) = Exit 0) \/
  (~ Exists has_quit frames /\ outcome (main_loop sinf frames g fl out) = Running).
Proof.
  induction frames as [|queue frames IH]; intros g fl out; cbn [main_loop].
  - right. split; [intros H; inversion H|reflexivity].
  - destruct (poll_events queue fl) as [fl'|] eqn:Hpoll.
    + assert (Hq : ~ has_quit queue).
      { intros Hq. apply (poll_events_quit queue fl) in Hq. congruence. }
      destruct (IH (tick (update sinf g fl')) fl' (out ++ [render (update sinf g fl')]))
        as [[Hex Ho]|[Hex Ho]].
      * left. split; [apply Exists_cons_tl; exact Hex|exact Ho].
      * right. split; [|exact Ho]. intros H. inversion H; subst; contradiction.
    + left. split; [|reflexivity].
      apply Exists_cons_hd. apply (poll_events_quit queue fl). exact Hpoll.
Qed.

(** X23: when the window surface is not NULL and the executable's path fits
    its array (the two things [main] relies on without a check), [main]
    returns 0 exactly when every checked initialisation step succeeds and a
    quit event is polled, whatever the flags are by then, and returns 1
    exactly when video initialisation, window and renderer creation or one of
    the two texture loads fails. *)
Theorem exit_status (sinf : f32 -> f32) (env : Env) :
  SDL_GetWindowSurface env <> 0 ->
  exe_fits (proc_self_exe env) ->
  (outcome (main sinf env) = Exit 0 <-> ~ init_fails env /\ quit_received env) /\
  (outcome (main sinf env) = Exit 1 <-> init_fails env).
Proof.
  intros Hsurface Hfit.
  destruct (init_defined (proc_self_exe env) Hfit) as (d & Hinit & Hasset).
  destruct (Hasset "ship.png"%string) as [ship_path Hship].
  destruct (Hasset "enemy.png"%string) as [enemy_path Henemy].
  unfold init_fails, texture, quit_received, main.
  rewrite Hinit, Hship, Henemy.
  destruct (Z.ltb_spec (SDL_Init env) 0) as [H1|H1].
  { cbn [outcome stopped]. split; split; try discriminate; intuition lia. }
  destruct (Z.ltb_spec (SDL_CreateWindowAndRenderer env) 0) as [H2|H2].
  { cbn [outcome stopped]. split; split; try discriminate; intuition lia. }
  destruct (Z.eqb_spec (SDL_GetWindowSurface env) 0) as [H3|_]; [contradiction|].
  destruct (Z.eqb_spec (IMG_LoadTexture env ship_path) 0) as [H4|H4].
  { cbn [outcome stopped]. rewrite H4. split; split; try discriminate; intuition lia. }
  destruct (Z.eqb_spec (IMG_LoadTexture env enemy_path) 0) as [H5|H5].
  { cbn [outcome stopped]. rewrite H5. split; split; try discriminate; intuition lia. }
  assert (Hok : ~ (SDL_Init env < 0 \/ SDL_CreateWindowAndRenderer env < 0 \/
                   Some (IMG_LoadTexture env ship_path) = Some 0 \/
                   Some (IMG_LoadTexture env enemy_path) = Some 0)).
  { intros [H|[H|[H|H]]]; try lia; injection H; assumption. }
  destruct (main_loop_outcome sinf (events env) init_game no_input [])
    as [[Hq ->]|[Hq ->]].
  - split; split; try discriminate; try tauto.
  - split; split; try discriminate; try tauto.
Qed.

(** The sample environment meets both assumptions. *)
Lemma exit_status_witness :
  (outcome (main sinf_sample sample_env) = Exit 0 <->
     ~ init_fails sample_env /\ quit_received sample_env) /\
  (outcome (main sinf_sample sample_env) = Exit 1 <-> init_fails sample_env).
Proof.
  refine (exit_status sinf_sample sample_env _ _).
  - discriminate.
  - vm_compute. repeat constructor.
Defined.

Example sample_env_exits_0 : outcome (main sinf_sample sample_env) = Exit 0.
Proof. vm_compute. reflexivity. Qed.

(** C8 (the defect): [main] checks the results of [SDL_Init],
    [SDL_CreateWindowAndRenderer] and both [IMG_LoadTexture] calls and
    returns 1 when one fails, but not the result of [SDL_GetWindowSurface].
    When that initialisation step fails (a NULL surface) after SDL and the
    window came up, [main] does not return 1: it dereferences the pointer
    ([surface->format]) and stops in undefined behaviour, before the asset
    locator, the textures and the loop, returning neither 1 nor 0. *)
Theorem null_surface_unchecked (sinf : f32 -> f32) (env : Env) :
  0 <= SDL_Init env ->
  0 <= SDL_CreateWindowAndRenderer env ->
  SDL_GetWindowSurface env = 0 ->
  main sinf env = stopped Undefined /\
  outcome (main sinf env) <> Exit 1 /\
  outcome (main sinf env) <> Exit 0.
Proof.
  intros H1 H2 H3.
  assert (Hmain : main sinf env = stopped Undefined).
  { unfold main.
    destruct (Z.ltb_spec (SDL_Init env) 0); [lia|].
    destruct (Z.ltb_spec (SDL_CreateWindowAndRenderer env) 0); [lia|].
    rewrite H3. reflexivity. }
  rewrite Hmain. split; [reflexivity|]. split; discriminate.
Qed.

(** The failing input: everything else would succeed and a quit event is
    queued. *)
Lemma null_surface_unchecked_witness :
  main sinf_sample null_surface_env = stopped Undefined /\
  outcome (main sinf_sample null_surface_env) <> Exit 1 /\
  outcome (main sinf_sample null_surface_env) <> Exit 0.
Proof.
  refine (null_surface_unchecked sinf_sample null_surface_env _ _ eq_refl).
  - cbn. lia.
  - cbn. lia.
Defined.


(** * Further properties *)

(** ** The asset locator: what [set_install_dir] leaves *)

Lemma c_str_prefix pre rest : no_nul pre -> fs.c_str (pre ++ fs.NUL :: rest) = Some pre.
Proof.
  intros Hpre. unfold fs.c_str. rewrite first_nul_app by exact Hpre.
  rewrite take_app_length. reflexivity.
Qed.

Lemma replicate_nul_middle n (l : list ascii) :
  replicate n fs.NUL ++ fs.NUL :: l = fs.NUL :: replicate n fs.NUL ++ l.
Proof. induction n as [|n IH]; [reflexivity|]. cbn [replicate app]. rewrite IH. reflexivity. Qed.

(** One turn of the loop at an index within the array. *)
Lemma strip_loop_step i removed b c :
  (S i < length b)%nat -> b !! S i = Some c ->
  fs.strip_loop (S i) removed b =
    let removed1 := if Ascii.eqb c "/" then wrap_i32 (removed + 1) else removed in
    if removed1 =? 3 then Some (removed1, <[S i := fs.NUL]> b)
    else fs.strip_loop i removed1 (<[S i := fs.NUL]> b).
Proof.
  intros Hi Hc. cbn [fs.strip_loop]. unfold fs.bind.
  destruct (load_in_bounds (S i) b Hi) as (c' & -> & Hc'). rewrite Hc in Hc'.
  injection Hc' as <-. rewrite (store_in_bounds (S i) fs.NUL b Hi). cbv zeta.
  destruct (_ =? 3); reflexivity.
Qed.

(** The loop clears a block of bytes that ends at its start index and
    begins after index 0; nothing else changes. *)
Lemma strip_loop_clears i : forall removed b,
  (i < length b)%nat ->
  exists removed' j,
    (1 <= j <= S i)%nat /\
    fs.strip_loop i removed b
    = Some (removed', take j b ++ replicate (S i - j) fs.NUL ++ drop (S i) b).
Proof.
  induction i as [|i IH]; intros removed b Hi.
  - exists removed, 1%nat. split; [lia|]. cbn [fs.strip_loop fs.ret replicate Nat.sub app].
    rewrite take_drop. reflexivity.
  - cbn [fs.strip_loop]. unfold fs.bind.
    destruct (load_in_bounds (S i) b Hi) as (c & -> & _).
    rewrite (store_in_bounds (S i) fs.NUL b Hi).
    set (removed1 := if Ascii.eqb c "/" then wrap_i32 (removed + 1) else removed).
    assert (Hins : <[S i := fs.NUL]> b = take (S i) b ++ fs.NUL :: drop (S (S i)) b)
      by (apply insert_take_drop; exact Hi).
    destruct (removed1 =? 3).
    + exists removed1, (S i). split; [lia|]. unfold fs.ret. rewrite Hins.
      replace (S (S i) - S i)%nat with 1%nat by lia. reflexivity.
    + destruct (IH removed1 (<[S i := fs.NUL]> b)) as (r' & j & Hj & Hrun).
      { rewrite length_insert. lia. }
      exists r', j. split; [lia|]. rewrite Hrun, Hins. do 2 f_equal.
      assert (Hlen : length (take (S i) b) = S i) by (rewrite length_take; lia).
      rewrite take_app_le by lia. rewrite take_take, Nat.min_l by lia.
      rewrite drop_app_length' by (symmetry; exact Hlen).
      replace (S (S i) - j)%nat with (S (S i - j)) by lia.
      rewrite replicate_S_end, <- app_assoc. reflexivity.
Qed.

(** The loop stops at the third separator it meets: with two separators in
    [mid], the one before [mid] is the third, and everything from it on is
    cleared. *)
Lemma strip_loop_breaks mid : forall c0 pre rest removed,
  0 <= removed ->
  removed + Z.of_nat (count_slash mid) = 2 ->
  fs.strip_loop (S (length pre + length mid)) removed
    (c0 :: pre ++ "/"%char :: mid ++ rest)
  = Some (3, c0 :: pre ++ fs.NUL :: replicate (length mid) fs.NUL ++ rest).
Proof.
  induction mid as [|c mid IH] using rev_ind; intros c0 pre rest removed H0 H2.
  - cbn [length count_slash count_occ] in *. rewrite Nat.add_0_r.
    assert (Hi : (S (length pre) < length (c0 :: pre ++ "/"%char :: [] ++ rest))%nat).
    { cbn [length app]. rewrite length_app. cbn [length]. lia. }
    assert (Hc : (c0 :: pre ++ "/"%char :: [] ++ rest) !! S (length pre) = Some "/"%char).
    { change ((c0 :: pre ++ "/"%char :: [] ++ rest) !! S (length pre))
        with ((pre ++ "/"%char :: rest) !! length pre).
      apply list_lookup_middle. reflexivity. }
    rewrite (strip_loop_step _ _ _ _ Hi Hc). cbv zeta.
    rewrite Ascii.eqb_refl.
    rewrite wrap_i32_id by (unfold i32_min, i32_max; lia).
    replace (removed + 1) with 3 by lia. cbn [Z.eqb Pos.eqb].
    change (<[S (length pre) := fs.NUL]> (c0 :: pre ++ "/"%char :: [] ++ rest))
      with (c0 :: <[length pre := fs.NUL]> (pre ++ "/"%char :: rest)).
    replace (length pre) with (length pre + 0)%nat at 1 by lia.
    rewrite insert_app_r. reflexivity.
  - unfold count_slash in *. rewrite count_occ_app in H2. cbn [count_occ] in H2.
    rewrite length_app. cbn [length].
    replace (S (length pre + (length mid + 1))) with (S (S (length pre + length mid))) by lia.
    set (front := c0 :: pre ++ "/"%char :: mid).
    assert (Hfront : c0 :: pre ++ "/"%char :: (mid ++ [c]) ++ rest = front ++ c :: rest).
    { unfold front. cbn [app]. f_equal. rewrite <- !app_assoc. reflexivity. }
    assert (Hflen : length front = S (S (length pre + length mid))).
    { unfold front. cbn [length]. rewrite length_app. cbn [length]. lia. }
    rewrite Hfront.
    assert (Hi : (S (S (length pre + length mid)) < length (front ++ c :: rest))%nat).
    { rewrite length_app. cbn [length]. lia. }
    assert (Hc : (front ++ c :: rest) !! S (S (length pre + length mid)) = Some c)
      by (apply list_lookup_middle; symmetry; exact Hflen).
    rewrite (strip_loop_step _ _ _ _ Hi Hc). cbv zeta.
    assert (Hins : <[S (S (length pre + length mid)) := fs.NUL]> (front ++ c :: rest)
                   = c0 :: pre ++ "/"%char :: mid ++ fs.NUL :: rest).
    { rewrite <- Hflen. replace (length front) with (length front + 0)%nat at 1 by lia.
      rewrite insert_app_r. unfold front. cbn [app insert list_insert].
      f_equal. rewrite <- !app_assoc. reflexivity. }
    rewrite Hins.
    replace (replicate (length mid + 1) fs.NUL ++ rest)
      with (replicate (length mid) fs.NUL ++ fs.NUL :: rest)
      by (rewrite replicate_add, <- app_assoc; reflexivity).
    destruct (ascii_dec c "/") as [->|Hne].
    + rewrite Ascii.eqb_refl. cbn [Nat.add] in H2.
      rewrite wrap_i32_id by (unfold i32_min, i32_max; lia).
      destruct (Z.eqb_spec (removed + 1) 3) as [Heq|_]; [lia|].
      apply IH; lia.
    + assert (Hcf : Ascii.eqb c "/" = false) by (apply Ascii.eqb_neq; exact Hne).
      rewrite Hcf. cbn [Nat.add] in H2.
      destruct (Z.eqb_spec removed 3) as [Heq|_]; [lia|].
      apply IH; lia.
Qed.

(** In the regular case [set_install_dir] leaves the array as if only
    the part before the third separator from the end had been written. *)
Lemma set_install_dir_three pre tail :
  pre <> [] ->
  no_nul (pre ++ "/"%char :: tail) ->
  count_slash tail = 2%nat ->
  (length (pre ++ "/"%char :: tail) < Z.to_nat max_path_len)%nat ->
  fs.set_install_dir (Some (pre ++ "/"%char :: tail)) max_path_len (fs.zeroed max_path_len)
  = Some (3, path_buffer pre).
Proof.
  intros Hpre Hnul Hcount Hlen.
  set (p := pre ++ "/"%char :: tail) in *.
  unfold fs.set_install_dir. unfold fs.bind at 1.
  rewrite (readlink_short p Hlen). unfold fs.bind.
  rewrite (strlen_short p Hnul Hlen).
  change (Z.to_nat max_path_len) with 256%nat in Hlen.
  rewrite wrap_i32_id by (unfold i32_min, i32_max; lia).
  destruct pre as [|c0 pre]; [contradiction|].
  assert (Hlp : length p = S (S (length pre + length tail))).
  { unfold p. cbn [length app]. rewrite length_app. cbn [length]. lia. }
  replace (Z.to_nat (Z.of_nat (length p) - 1)) with (S (length pre + length tail)) by lia.
  unfold path_buffer at 1. unfold p at 1. cbn [app]. rewrite <- !app_assoc. cbn [app].
  rewrite (strip_loop_breaks tail c0 pre _ 0) by lia.
  do 2 f_equal. unfold path_buffer. cbn [app]. do 2 f_equal.
  change (Z.to_nat max_path_len) with 256%nat. rewrite Hlp. cbn [length].
  replace (256 - S (length pre))%nat
    with (S (length tail + (256 - S (S (length pre + length tail)))))%nat by lia.
  cbn [replicate]. rewrite replicate_add. reflexivity.
Qed.

(** X1: the regular case.  When the third separator from the end is not the
    first byte of the path, the loop leaves at [removed == 3] and the base
    directory is exactly what precedes that separator: the executable's
    name and its two enclosing directories are gone. *)
Theorem install_dir_strips_three (pre tail : list ascii) :
  pre <> [] ->
  no_nul (pre ++ "/"%char :: tail) ->
  count_slash tail = 2%nat ->
  (length (pre ++ "/"%char :: tail) < Z.to_nat max_path_len)%nat ->
  (exists b, fs.set_install_dir (Some (pre ++ "/"%char :: tail)) max_path_len
               (fs.zeroed max_path_len) = Some (3, b)) /\
  fs.install_dir (Some (pre ++ "/"%char :: tail)) = Some pre.
Proof.
  intros Hpre Hnul Hcount Hlen.
  pose proof (set_install_dir_three pre tail Hpre Hnul Hcount Hlen) as Hrun.
  split; [eexists; exact Hrun|].
  unfold fs.install_dir. rewrite Hrun. unfold path_buffer.
  assert (Hlt : (length pre < Z.to_nat max_path_len)%nat) by (rewrite length_app in Hlen; lia).
  destruct (Z.to_nat max_path_len - length pre)%nat as [|k] eqn:Hk; [lia|].
  cbn [replicate]. apply c_str_prefix.
  apply Forall_app in Hnul as [Hn _]. exact Hn.
Qed.

Lemma install_dir_strips_three_witness :
  fs.install_dir (Some (list_ascii_of_string "/opt/games" ++
                        "/"%char :: list_ascii_of_string "build/linux/recurse_invaders"))
  = Some (list_ascii_of_string "/opt/games").
Proof.
  refine (proj2 (install_dir_strips_three (list_ascii_of_string "/opt/games")
                   (list_ascii_of_string "build/linux/recurse_invaders") _ _ _ _)).
  - discriminate.
  - repeat constructor; discriminate.
  - reflexivity.
  - vm_compute. repeat constructor.
Defined.

(** X2: whatever the path, the base directory is a prefix of it that keeps
    at least its first byte: the loop only ever cuts the path short. *)
Theorem install_dir_is_prefix (p : list ascii) :
  no_nul p ->
  (length p < Z.to_nat max_path_len)%nat ->
  exists j,
    fs.install_dir (Some p) = Some (take j p) /\
    (j <= length p)%nat /\ (p <> [] -> (1 <= j)%nat).
Proof.
  intros Hnul Hlen.
  unfold fs.install_dir, fs.set_install_dir. unfold fs.bind at 1.
  rewrite (readlink_short p Hlen). unfold fs.bind.
  rewrite (strlen_short p Hnul Hlen).
  change (Z.to_nat max_path_len) with 256%nat in Hlen.
  rewrite wrap_i32_id by (unfold i32_min, i32_max; lia).
  destruct (Nat.eq_dec (length p) 0%nat) as [H0|H0].
  - destruct p; [|discriminate]. exists O. split; [reflexivity|]. split; [lia|congruence].
  - replace (Z.to_nat (Z.of_nat (length p) - 1)) with (length p - 1)%nat by lia.
    assert (Hb : (length p - 1 < length (path_buffer p))%nat).
    { rewrite path_buffer_length; change (Z.to_nat max_path_len) with 256%nat; lia. }
    destruct (strip_loop_clears (length p - 1) 0 (path_buffer p) Hb) as (r' & j & Hj & ->).
    exists j. replace (S (length p - 1)) with (length p) in * by lia.
    split; [|split; [lia|intros _; lia]].
    unfold path_buffer at 1. rewrite take_app_le by lia.
    unfold path_buffer. rewrite drop_app_length.
    destruct (Z.to_nat max_path_len - length p)%nat as [|k] eqn:Hk.
    { change (Z.to_nat max_path_len) with 256%nat in Hk. lia. }
    cbn [replicate].
    rewrite replicate_nul_middle.
    apply c_str_prefix. apply Forall_take. exact Hnul.
Qed.

Lemma install_dir_is_prefix_witness :
  exists j,
    fs.install_dir (Some (list_ascii_of_string "/srv/a/b/c/d")) =
      Some (take j (list_ascii_of_string "/srv/a/b/c/d")) /\
    (j <= length (list_ascii_of_string "/srv/a/b/c/d"))%nat /\
    (list_ascii_of_string "/srv/a/b/c/d" <> [] -> (1 <= j)%nat).
Proof.
  refine (install_dir_is_prefix (list_ascii_of_string "/srv/a/b/c/d") _ _).
  - repeat constructor; discriminate.
  - vm_compute. repeat constructor.
Defined.

(** X3: the byte at index 0 is never examined.  A path whose bytes after
    the first hold fewer than three separators is cut down to its first
    byte, also when that byte is a separator: [/build/linux/game] gives [/]. *)
Theorem leading_separator_not_counted (c0 : ascii) (tail : list ascii) :
  no_nul (c0 :: tail) ->
  (length (c0 :: tail) < Z.to_nat max_path_len)%nat ->
  (count_slash tail < 3)%nat ->
  fs.install_dir (Some (c0 :: tail)) = Some [c0].
Proof.
  intros Hnul Hlen Hcount.
  unfold fs.install_dir, fs.set_install_dir. unfold fs.bind at 1.
  rewrite (readlink_short _ Hlen). unfold fs.bind.
  rewrite (strlen_short _ Hnul Hlen).
  change (Z.to_nat max_path_len) with 256%nat in Hlen. cbn [length] in Hlen.
  rewrite wrap_i32_id by (cbn [length]; unfold i32_min, i32_max; lia).
  replace (Z.to_nat (Z.of_nat (length (c0 :: tail)) - 1)) with (length tail)
    by (cbn [length]; lia).
  unfold path_buffer. cbn [app].
  rewrite (strip_loop_exhausts tail c0 _ 0) by lia.
  destruct (Z.to_nat max_path_len - length (c0 :: tail))%nat as [|k] eqn:Hk.
  { change (Z.to_nat max_path_len) with 256%nat in Hk. cbn [length] in Hk. lia. }
  cbn [replicate].
  rewrite replicate_nul_middle.
  apply (c_str_prefix [c0]). inversion Hnul; subst. constructor; [assumption|constructor].
Qed.

Lemma leading_separator_not_counted_witness :
  fs.install_dir (Some (list_ascii_of_string "/build/linux/game"))
  = Some (list_ascii_of_string "/").
Proof.
  refine (leading_separator_not_counted "/"%char (list_ascii_of_string "build/linux/game") _ _ _).
  - repeat constructor; discriminate.
  - vm_compute. repeat constructor.
  - vm_compute. repeat constructor.
Defined.

(** ** The asset locator: [init] and [asset] *)

Lemma first_nul_take b : forall n,
  fs.first_nul b = Some n -> no_nul (take n b).
Proof.
  induction b as [|c b IH]; intros n H; [discriminate|].
  cbn [fs.first_nul] in H. destruct (Ascii.eqb c fs.NUL) eqn:Hc.
  - injection H as <-. constructor.
  - destruct (fs.first_nul b) as [k|]; [|discriminate]. injection H as <-.
    cbn [take]. constructor; [apply Ascii.eqb_neq; exact Hc|apply IH; reflexivity].
Qed.

Lemma c_str_no_nul b s : fs.c_str b = Some s -> no_nul s.
Proof.
  unfold fs.c_str. destruct (fs.first_nul b) as [n|] eqn:Hn; [|discriminate].
  intros H. injection H as <-. apply first_nul_take. exact Hn.
Qed.

(** The C string of an array is cut at the first [NUL], wherever it is. *)
Lemma c_str_app_nul l rest :
  exists s, fs.c_str (l ++ fs.NUL :: rest) = Some s /\ (length s <= length l)%nat /\
            (no_nul l -> s = l).
Proof.
  induction l as [|c l (s & Hs & Hlen & Heq)].
  - exists []. repeat split. cbn. lia.
  - unfold fs.c_str in *. cbn [app fs.first_nul].
    destruct (Ascii.eqb c fs.NUL) eqn:Hc.
    + exists []. split; [reflexivity|]. split; [cbn; lia|].
      intros Hn. inversion Hn; subst. apply Ascii.eqb_eq in Hc. contradiction.
    + destruct (fs.first_nul (l ++ fs.NUL :: rest)) as [k|]; [|discriminate].
      injection Hs as <-. exists (c :: take k (l ++ fs.NUL :: rest)).
      split; [reflexivity|]. split; [cbn [length]; lia|].
      intros Hn. inversion Hn; subst. f_equal. auto.
Qed.

(** [snprintf] within the array: the output (cut to [n - 1] bytes) and a
    terminator replace the start of the array, the rest stays. *)
Lemma snprintf_in_bounds n s b :
  0 < n <= Z.of_nat (length b) ->
  fs.snprintf n s b
  = Some (tt, take (Z.to_nat (n - 1)) s ++ fs.NUL ::
              drop (S (length (take (Z.to_nat (n - 1)) s))) b).
Proof.
  intros Hn. unfold fs.snprintf.
  destruct (Z.leb_spec n 0) as [Hle|_]; [lia|]. cbv zeta.
  assert (Hout : (length (take (Z.to_nat (n - 1)) s ++ [fs.NUL]) <= length b)%nat).
  { rewrite length_app, length_take. cbn [length]. lia. }
  apply Nat.leb_le in Hout. rewrite Hout.
  rewrite length_app. cbn [length]. rewrite Nat.add_1_r, <- app_assoc. reflexivity.
Qed.

Lemma no_nul_assets : no_nul (list_ascii_of_string "/assets").
Proof. repeat constructor; discriminate. Qed.

(** What [init] leaves in [root] and [assets] when the path fits. *)
Lemma init_spec exe :
  exe_fits exe ->
  exists d r,
    fs.init exe fs.init_dirs = Some d /\
    fs.install_dir exe = Some r /\
    fs.c_str (fs.root d) = Some r /\
    fs.c_str (fs.assets d)
      = Some (take 255 (r ++ list_ascii_of_string "/assets")).
Proof.
  intros Hfit.
  destruct (set_install_dir_defined exe Hfit) as (removed & root' & Hrun & Hl & Hn).
  destruct (c_str_defined root' Hn) as [r Hr].
  pose proof (c_str_no_nul root' r Hr) as Hrn.
  unfold fs.init, fs.install_dir. cbn [fs.root fs.assets fs.init_dirs].
  rewrite Hrun, Hr.
  rewrite snprintf_in_bounds by (rewrite zeroed_length; unfold max_path_len; lia).
  eexists _, r. split; [reflexivity|]. split; [reflexivity|].
  cbn [fs.root fs.assets]. split; [exact Hr|].
  change (Z.to_nat (max_path_len - 1)) with 255%nat.
  apply c_str_prefix. apply Forall_take. apply Forall_app. split; [exact Hrn|apply no_nul_assets].
Qed.

Lemma asset_path_spec d a name :
  fs.c_str (fs.assets d) = Some a -> no_nul a ->
  no_nul (list_ascii_of_string name) ->
  asset_path d name = Some (take 255 (a ++ fs.slash ++ list_ascii_of_string name)).
Proof.
  intros Ha Han Hname. unfold asset_path, fs.asset. rewrite Ha.
  change (fs.size_t_of_int max_path_len) with max_path_len.
  rewrite snprintf_in_bounds by (rewrite zeroed_length; unfold max_path_len; lia).
  change (Z.to_nat (max_path_len - 1)) with 255%nat.
  apply c_str_prefix. apply Forall_take. apply Forall_app. split; [exact Han|].
  apply Forall_app. split; [repeat constructor; discriminate|exact Hname].
Qed.

(** X4: the join.  With a path that fits, the path [asset] produces for a
    name is the base directory, [/assets/] and the name, each [snprintf]
    cutting its output to 255 bytes; when everything fits nothing is cut. *)
Theorem asset_path_join (exe : option (list ascii)) :
  exe_fits exe ->
  exists d r,
    fs.init exe fs.init_dirs = Some d /\
    fs.install_dir exe = Some r /\
    forall name,
      no_nul (list_ascii_of_string name) ->
      asset_path d name
        = Some (take 255 (take 255 (r ++ list_ascii_of_string "/assets")
                          ++ fs.slash ++ list_ascii_of_string name)) /\
      ((length r + 8 + String.length name <= 255)%nat ->
       asset_path d name
         = Some (r ++ list_ascii_of_string "/assets/" ++ list_ascii_of_string name)).
Proof.
  intros Hfit. destruct (init_spec exe Hfit) as (d & r & Hinit & Hdir & Hroot & Hassets).
  exists d, r. split; [exact Hinit|]. split; [exact Hdir|].
  intros name Hname.
  pose proof (c_str_no_nul _ _ Hassets) as Han.
  pose proof (asset_path_spec d _ name Hassets Han Hname) as Hpath.
  split; [exact Hpath|]. intros Hshort. rewrite Hpath.
  assert (Hlen : length (list_ascii_of_string name) = String.length name).
  { clear. induction name as [|c name IH]; [reflexivity|]. cbn. rewrite IH. reflexivity. }
  rewrite (take_ge (r ++ _)) by (rewrite length_app; cbn [length list_ascii_of_string]; lia).
  rewrite take_ge.
  - rewrite <- app_assoc. reflexivity.
  - rewrite !length_app, Hlen. cbn [length list_ascii_of_string fs.slash]. lia.
Qed.

Lemma asset_path_join_witness :
  exists d r,
    fs.init (Some (list_ascii_of_string "/a/b/c/build/linux/game")) fs.init_dirs = Some d /\
    fs.install_dir (Some (list_ascii_of_string "/a/b/c/build/linux/game")) = Some r /\
    forall name,
      no_nul (list_ascii_of_string name) ->
      asset_path d name
        = Some (take 255 (take 255 (r ++ list_ascii_of_string "/assets")
                          ++ fs.slash ++ list_ascii_of_string name)) /\
      ((length r + 8 + String.length name <= 255)%nat ->
       asset_path d name
         = Some (r ++ list_ascii_of_string "/assets/" ++ list_ascii_of_string name)).
Proof.
  refine (asset_path_join (Some (list_ascii_of_string "/a/b/c/build/linux/game")) _).
  vm_compute. repeat constructor.
Defined.

(** X5: [asset] is safe for every [buffer_len] up to the size of the
    caller's array: it writes within the first [buffer_len] bytes only and
    always leaves a C string of at most [buffer_len - 1] bytes. *)
Theorem asset_in_bounds (exe : option (list ascii)) :
  exe_fits exe ->
  exists d,
    fs.init exe fs.init_dirs = Some d /\
    forall (asset_name : list ascii) (buffer_len : Z) (b : list ascii),
      0 < buffer_len <= Z.of_nat (length b) ->
      exists b' s,
        fs.asset d asset_name buffer_len b = Some (tt, b') /\
        length b' = length b /\
        drop (Z.to_nat buffer_len) b' = drop (Z.to_nat buffer_len) b /\
        fs.c_str b' = Some s /\
        Z.of_nat (length s) <= buffer_len - 1.
Proof.
  intros Hfit. destruct (init_spec exe Hfit) as (d & r & Hinit & _ & _ & Hassets).
  exists d. split; [exact Hinit|]. intros name n b Hn.
  unfold fs.asset, fs.size_t_of_int. rewrite Hassets.
  destruct (Z.ltb_spec n 0) as [Hneg|_]; [lia|].
  rewrite snprintf_in_bounds by exact Hn.
  set (out := take (Z.to_nat (n - 1)) _).
  assert (Hout : (length out <= Z.to_nat (n - 1))%nat) by (unfold out; rewrite length_take; lia).
  destruct (c_str_app_nul out (drop (S (length out)) b)) as (s & Hs & Hlen & _).
  eexists _, s. split; [reflexivity|].
  split; [|split; [|split; [exact Hs|lia]]].
  - rewrite length_app. cbn [length]. rewrite length_drop. lia.
  - change (out ++ fs.NUL :: drop (S (length out)) b)
      with (out ++ [fs.NUL] ++ drop (S (length out)) b).
    rewrite app_assoc.
    rewrite drop_app_ge by (rewrite length_app; cbn [length]; lia).
    rewrite length_app. cbn [length]. rewrite drop_drop. f_equal. lia.
Qed.

Lemma asset_in_bounds_witness :
  exists d,
    fs.init None fs.init_dirs = Some d /\
    forall (asset_name : list ascii) (buffer_len : Z) (b : list ascii),
      0 < buffer_len <= Z.of_nat (length b) ->
      exists b' s,
        fs.asset d asset_name buffer_len b = Some (tt, b') /\
        length b' = length b /\
        drop (Z.to_nat buffer_len) b' = drop (Z.to_nat buffer_len) b /\
        fs.c_str b' = Some s /\
        Z.of_nat (length s) <= buffer_len - 1.
Proof. exact (asset_in_bounds None I). Defined.

(** X24: a negative [buffer_len] is no bound.  Converted to [size_t] it
    exceeds every length, so [asset] writes the whole path and its
    terminator: within the array when they fit, past its end when they do
    not. *)
Theorem asset_negative_len (exe : option (list ascii)) :
  exe_fits exe ->
  exists d a,
    fs.init exe fs.init_dirs = Some d /\
    fs.c_str (fs.assets d) = Some a /\
    forall (asset_name : list ascii) (buffer_len : Z) (b : list ascii),
      i32_min <= buffer_len < 0 ->
      Z.of_nat (length asset_name) < 2 ^ 32 ->
      let out := a ++ fs.slash ++ asset_name in
      ((length out < length b)%nat ->
       fs.asset d asset_name buffer_len b
       = Some (tt, out ++ fs.NUL :: drop (S (length out)) b)) /\
      ((length b <= length out)%nat ->
       fs.asset d asset_name buffer_len b = None).
Proof.
  intros Hfit. destruct (init_spec exe Hfit) as (d & r & Hinit & _ & _ & Hassets).
  eexists d, _. split; [exact Hinit|]. split; [exact Hassets|].
  intros name n b Hn Hname. cbv zeta.
  set (a := take 255 (r ++ list_ascii_of_string "/assets")) in *.
  assert (Ha : (length a <= 255)%nat) by (unfold a; rewrite length_take; lia).
  set (out := a ++ fs.slash ++ name).
  assert (Hout : Z.of_nat (length out) < 2 ^ 33).
  { unfold out. rewrite !length_app. cbn [length fs.slash]. lia. }
  unfold fs.asset, fs.size_t_of_int. rewrite Hassets. fold out.
  destruct (Z.ltb_spec n 0) as [_|Hpos]; [|lia].
  unfold fs.snprintf. unfold i32_min in Hn.
  destruct (Z.leb_spec (n + 2 ^ 64) 0) as [Hle|_]; [lia|]. cbv zeta.
  rewrite take_ge by lia.
  rewrite length_app. cbn [length]. rewrite Nat.add_1_r.
  split; intros Hb.
  - apply Nat.leb_le in Hb. rewrite Hb. rewrite <- app_assoc. reflexivity.
  - destruct (Nat.leb_spec (S (length out)) (length b)) as [Hc|_]; [lia|reflexivity].
Qed.

Lemma asset_negative_len_witness :
  exists d a,
    fs.init (Some (list_ascii_of_string "/r/build/linux/game")) fs.init_dirs = Some d /\
    fs.c_str (fs.assets d) = Some a /\
    forall (asset_name : list ascii) (buffer_len : Z) (b : list ascii),
      i32_min <= buffer_len < 0 ->
      Z.of_nat (length asset_name) < 2 ^ 32 ->
      let out := a ++ fs.slash ++ asset_name in
      ((length out < length b)%nat ->
       fs.asset d asset_name buffer_len b
       = Some (tt, out ++ fs.NUL :: drop (S (length out)) b)) /\
      ((length b <= length out)%nat ->
       fs.asset d asset_name buffer_len b = None).
Proof.
  refine (asset_negative_len (Some (list_ascii_of_string "/r/build/linux/game")) _).
  vm_compute. repeat constructor.
Defined.

(** X6: when [readlink] fails nothing is reported: [root] stays empty, and
    every asset is looked up under [/assets/] at the root of the file system. *)
Theorem readlink_failure_paths :
  exists d,
    fs.init None fs.init_dirs = Some d /\
    fs.c_str (fs.root d) = Some [] /\
    forall name,
      no_nul (list_ascii_of_string name) ->
      asset_path d name
        = Some (take 255 (list_ascii_of_string "/assets/" ++ list_ascii_of_string name)).
Proof.
  destruct (init_spec None I) as (d & r & Hinit & Hdir & Hroot & Hassets).
  assert (r = []) by (vm_compute in Hdir; congruence). subst r.
  exists d. split; [exact Hinit|]. split; [exact Hroot|].
  intros name Hname.
  rewrite (asset_path_spec d _ name Hassets (c_str_no_nul _ _ Hassets) Hname).
  reflexivity.
Qed.

(** ** The input reader *)

(** X7: polling composes.  Draining two queues one after the other is
    draining their concatenation, and a quit event in the first hides the
    second altogether. *)
Theorem poll_events_app (q1 q2 : list SDL_Event) (fl : Flags) :
  poll_events (q1 ++ q2) fl =
    match poll_events q1 fl with
    | Some fl' => poll_events q2 fl'
    | None => None
    end.
Proof.
  revert fl. induction q1 as [|e q1 IH]; intros fl; [reflexivity|].
  destruct e as [|[| |]|[| |]|]; cbn [app poll_events]; try apply IH. reflexivity.
Qed.

Lemma poll_events_suffix q1 : forall q2 fl fl',
  poll_events (q1 ++ q2) fl = Some fl' -> exists fl1, poll_events q2 fl1 = Some fl'.
Proof.
  induction q1 as [|e q1 IH]; intros q2 fl fl' H; [exists fl; exact H|].
  destruct e as [|[| |]|[| |]|]; cbn [app poll_events] in H; try discriminate;
    exact (IH _ _ _ H).
Qed.

Lemma poll_events_not_about k q : forall fl fl',
  k <> SDLK_other -> Forall (not_about k) q ->
  poll_events q fl = Some fl' -> key_flag k fl' = key_flag k fl.
Proof.
  induction q as [|e q IH]; intros fl fl' Hk Hq Hpoll.
  - injection Hpoll as <-. reflexivity.
  - inversion Hq as [|? ? [Hd Hu] Hq']; subst.
    destruct e as [|[| |]|[| |]|]; cbn [poll_events] in Hpoll; try discriminate;
      try (rewrite (IH _ _ Hk Hq' Hpoll); destruct k; try reflexivity; congruence).
Qed.

(** X8: a flag follows the latest event of its key.  After a drain without
    a quit event, the flag of an arrow key is true if the last event about
    that key was a key-down, false if it was a key-up, and what it was before
    the drain if there was none; events about the other key and all other
    events leave it alone. *)
Theorem key_flag_latest (k : SDL_Keycode) (q : list SDL_Event) (fl fl' : Flags) :
  k <> SDLK_other ->
  poll_events q fl = Some fl' ->
  (Forall (not_about k) q -> key_flag k fl' = key_flag k fl) /\
  (forall q1 q2, q = q1 ++ SDL_KEYDOWN k :: q2 -> Forall (not_about k) q2 ->
                 key_flag k fl' = true) /\
  (forall q1 q2, q = q1 ++ SDL_KEYUP k :: q2 -> Forall (not_about k) q2 ->
                 key_flag k fl' = false).
Proof.
  intros Hk Hpoll. split; [|split].
  - intros Hq. exact (poll_events_not_about k q fl fl' Hk Hq Hpoll).
  - intros q1 q2 -> Hq2.
    destruct (poll_events_suffix q1 _ fl fl' Hpoll) as [fl1 H1].
    destruct k; [| |congruence]; cbn [poll_events] in H1.
    + rewrite (poll_events_not_about SDLK_LEFT q2 _ fl' Hk Hq2 H1). reflexivity.
    + rewrite (poll_events_not_about SDLK_RIGHT q2 _ fl' Hk Hq2 H1). reflexivity.
  - intros q1 q2 -> Hq2.
    destruct (poll_events_suffix q1 _ fl fl' Hpoll) as [fl1 H1].
    destruct k; [| |congruence]; cbn [poll_events] in H1.
    + rewrite (poll_events_not_about SDLK_LEFT q2 _ fl' Hk Hq2 H1). reflexivity.
    + rewrite (poll_events_not_about SDLK_RIGHT q2 _ fl' Hk Hq2 H1). reflexivity.
Qed.

Lemma key_flag_latest_witness :
  key_flag SDLK_LEFT {| move_left := true; move_right := false |} = true.
Proof.
  refine (proj1 (proj2 (key_flag_latest SDLK_LEFT
            [SDL_KEYUP SDLK_LEFT; SDL_KEYDOWN SDLK_LEFT; SDL_KEYDOWN SDLK_RIGHT; SDL_KEYUP SDLK_RIGHT]
            no_input {| move_left := true; move_right := false |} _ eq_refl))
            [SDL_KEYUP SDLK_LEFT] [SDL_KEYDOWN SDLK_RIGHT; SDL_KEYUP SDLK_RIGHT] eq_refl _).
  - discriminate.
  - repeat constructor; discriminate.
Defined.

Lemma poll_events_inert q fl : Forall inert q -> poll_events q fl = Some fl.
Proof.
  induction 1 as [|e q He _ IH]; [reflexivity|].
  destruct e as [|[| |]|[| |]|]; cbn [poll_events inert] in *; try contradiction; exact IH.
Qed.

(** ** The loop as a run *)

Section LoopFacts.

Variable sinf : f32 -> f32.

Lemma pass_flags_length frames : forall fl,
  (length (pass_flags frames fl) <= length frames)%nat /\
  (length (pass_flags frames fl) = length frames <-> ~ Exists has_quit frames).
Proof.
  induction frames as [|queue frames IH]; intros fl; cbn [pass_flags length].
  - split; [lia|]. split; [intros _ H; inversion H|reflexivity].
  - destruct (poll_events queue fl) as [fl'|] eqn:Hpoll; cbn [length].
    + destruct (IH fl') as [Hle Hiff]. split; [lia|].
      assert (Hq : ~ has_quit queue).
      { intros Hq. apply (poll_events_quit queue fl) in Hq. congruence. }
      split.
      * intros Hlen Hex. inversion Hex; subst; [contradiction|]. apply Hiff; [lia|assumption].
      * intros Hno. f_equal. apply Hiff. intros Hex. apply Hno. apply Exists_cons_tl. exact Hex.
    + split; [lia|]. split; [discriminate|].
      intros Hno. exfalso. apply Hno. apply Exists_cons_hd.
      apply (poll_events_quit queue fl). exact Hpoll.
Qed.

Lemma main_loop_trace frames : forall g fl out,
  game (main_loop sinf frames g fl out) = run sinf (pass_flags frames fl) g /\
  rendered (main_loop sinf frames g fl out) = out ++ drawn sinf (pass_flags frames fl) g.
Proof.
  induction frames as [|queue frames IH]; intros g fl out; cbn [main_loop pass_flags].
  - split; [reflexivity|]. cbn [drawn]. rewrite app_nil_r. reflexivity.
  - destruct (poll_events queue fl) as [fl'|].
    + destruct (IH (tick (update sinf g fl')) fl' (out ++ [render (update sinf g fl')]))
        as [Hg Hr].
      split; [exact Hg|]. rewrite Hr. cbn [drawn]. rewrite <- app_assoc. reflexivity.
    + split; [reflexivity|]. cbn [drawn]. rewrite app_nil_r. reflexivity.
Qed.

Lemma drawn_length fls : forall g, length (drawn sinf fls g) = length fls.
Proof. induction fls as [|fl fls IH]; intros g; cbn [drawn length]; [|rewrite IH]; reflexivity. Qed.

Lemma drawn_lookup fls : forall g i,
  (i < length fls)%nat ->
  drawn sinf fls g !! i = Some (render (run sinf (take (S i) fls) g)).
Proof.
  induction fls as [|fl fls IH]; intros g i Hi; [cbn [length] in Hi; lia|].
  destruct i as [|i]; [reflexivity|].
  cbn [length] in Hi. cbn [drawn]. change ((?a :: ?l) !! S i) with (l !! i).
  rewrite IH by lia. reflexivity.
Qed.

End LoopFacts.

(** X9: the loop is a run.  The globals the loop leaves are those of one
    update and one tick per completed pass, under the flags the polled
    events left for that pass; each completed pass draws one frame, which
    shows the positions the run has reached by then; and the loop has
    returned 0 exactly when fewer passes completed than queues were
    offered. *)
Theorem main_loop_is_run (sinf : f32 -> f32) (frames : list (list SDL_Event))
    (g : Game) (fl : Flags) :
  let t := main_loop sinf frames g fl [] in
  let fls := pass_flags frames fl in
  game t = run sinf fls g /\
  length (rendered t) = length fls /\
  (forall i, (i < length fls)%nat ->
             rendered t !! i = Some (render (run sinf (take (S i) fls) g))) /\
  (outcome t = Exit 0 <-> (length fls < length frames)%nat) /\
  (outcome t = Running <-> length fls = length frames).
Proof.
  cbv zeta. destruct (main_loop_trace sinf frames g fl []) as [Hg Hr].
  destruct (pass_flags_length frames fl) as [Hle Hiff].
  split; [exact Hg|]. split; [rewrite Hr; apply drawn_length|].
  split; [intros i Hi; rewrite Hr; apply drawn_lookup; exact Hi|].
  destruct (main_loop_outcome sinf frames g fl []) as [[Hq ->]|[Hq ->]].
  - assert (length (pass_flags frames fl) <> length frames) by tauto.
    split; split; try discriminate; try lia; reflexivity.
  - apply Hiff in Hq. split; split; try discriminate; try lia; reflexivity.
Qed.

(** X10: quitting.  Once a pass polls a quit event the program is over:
    that pass neither updates nor draws, and neither the rest of its queue
    nor any later input changes the result. *)
Theorem quit_ends_the_run (sinf : f32 -> f32) (pre post : list (list SDL_Event))
    (quitq : list SDL_Event) (g : Game) (fl : Flags) :
  ~ Exists has_quit pre ->
  has_quit quitq ->
  let t := main_loop sinf (pre ++ quitq :: post) g fl [] in
  outcome t = Exit 0 /\
  game t = game (main_loop sinf pre g fl []) /\
  rendered t = rendered (main_loop sinf pre g fl []) /\
  length (rendered t) = length pre.
Proof.
  intros Hpre Hquit. cbv zeta.
  assert (Hflags : forall frames fl0, ~ Exists has_quit frames ->
            pass_flags (frames ++ quitq :: post) fl0 = pass_flags frames fl0).
  { induction frames as [|queue frames IH]; intros fl0 Hno; cbn [app pass_flags].
    - apply (poll_events_quit quitq fl0) in Hquit. rewrite Hquit. reflexivity.
    - destruct (poll_events queue fl0) as [fl1|]; [|reflexivity].
      f_equal. apply IH. intros Hex. apply Hno. apply Exists_cons_tl. exact Hex. }
  destruct (main_loop_trace sinf (pre ++ quitq :: post) g fl []) as [Hg Hr].
  destruct (main_loop_trace sinf pre g fl []) as [Hg' Hr'].
  rewrite Hflags in Hg, Hr by exact Hpre.
  split; [|split; [congruence|split; [congruence|]]].
  - destruct (main_loop_outcome sinf (pre ++ quitq :: post) g fl []) as [[_ Ho]|[Hno _]];
      [exact Ho|].
    exfalso. apply Hno. apply Exists_app. right. apply Exists_cons_hd. exact Hquit.
  - rewrite Hr. cbn [app]. rewrite drawn_length.
    apply (pass_flags_length pre fl). exact Hpre.
Qed.

Lemma quit_ends_the_run_witness :
  let t := main_loop sinf_sample
             ([[SDL_KEYDOWN SDLK_RIGHT]; []] ++ [SDL_KEYUP SDLK_RIGHT; SDL_QUIT] :: [[]; []])
             init_game no_input [] in
  outcome t = Exit 0 /\
  game t = game (main_loop sinf_sample [[SDL_KEYDOWN SDLK_RIGHT]; []] init_game no_input []) /\
  rendered t = rendered (main_loop sinf_sample [[SDL_KEYDOWN SDLK_RIGHT]; []] init_game no_input []) /\
  length (rendered t) = length [[SDL_KEYDOWN SDLK_RIGHT]; []].
Proof.
  refine (quit_ends_the_run sinf_sample [[SDL_KEYDOWN SDLK_RIGHT]; []] [[]; []]
            [SDL_KEYUP SDLK_RIGHT; SDL_QUIT] init_game no_input _ _).
  - intros H. inversion H as [? ? Hq|? ? Hq]; subst.
    + destruct Hq as [Hq|[]]; discriminate Hq.
    + inversion Hq as [? ? Hq'|? ? Hq']; subst; [destruct Hq'|inversion Hq'].
  - right. left. reflexivity.
Defined.

(** ** The ship *)

Lemma step_player_x (sinf : f32 -> f32) g fl :
  Player.speed (player g) = 4 ->
  x (Player.size (player g)) = 64 ->
  0 <= player_x g <= screen_width - 64 ->
  player_x (step sinf fl g) = clamp_x (player_x g + 4 * heading fl).
Proof.
  intros Hspeed Hsize Hx.
  change (player_x (step sinf fl g)) with (player_x (update sinf g fl)).
  rewrite update_player_x by exact Hsize. rewrite Hspeed. cbv zeta.
  unfold screen_width in Hx. unfold heading.
  destruct (move_left fl), (move_right fl).
  - rewrite wrap_i32_sub_add by (unfold i32_min, i32_max; lia). f_equal. lia.
  - rewrite wrap_i32_id by (unfold i32_min, i32_max; lia). f_equal.
  - rewrite wrap_i32_id by (unfold i32_min, i32_max; lia). f_equal.
  - f_equal. lia.
Qed.

Lemma clamp_x_divide z : (4 | z) -> (4 | clamp_x z).
Proof.
  intros [k Hk]. unfold clamp_x, screen_width.
  destruct (Z.le_gt_cases z 0) as [H0|H0].
  - rewrite Z.max_r, Z.min_l by lia. exists 0. reflexivity.
  - destruct (Z.le_gt_cases z 576) as [H1|H1].
    + rewrite Z.max_l, Z.min_l by lia. exists k. exact Hk.
    + rewrite Z.max_l, Z.min_r by lia. exists 144. reflexivity.
Qed.

Lemma step_ship_ok (sinf : f32 -> f32) g fl : ship_ok g -> ship_ok (step sinf fl g).
Proof.
  intros (Hspeed & Hsize & Hx & Hdiv).
  split; [exact Hspeed|]. split; [exact Hsize|].
  rewrite (step_player_x sinf g fl Hspeed Hsize Hx). split; [apply clamp_x_range|].
  apply clamp_x_divide. apply Z.divide_add_r; [exact Hdiv|].
  apply Z.divide_mul_l. apply Z.divide_refl.
Qed.

Lemma run_ship_ok (sinf : f32 -> f32) fls : forall g, ship_ok g -> ship_ok (run sinf fls g).
Proof.
  induction fls as [|fl fls IH]; intros g Hg; [exact Hg|].
  change (run sinf (fl :: fls) g) with (run sinf fls (step sinf fl g)).
  apply IH. apply step_ship_ok. exact Hg.
Qed.

Lemma init_game_ship_ok : ship_ok init_game.
Proof.
  split; [reflexivity|]. split; [reflexivity|].
  split; [change (0 <= 0 <= 576); lia|]. exists 0. reflexivity.
Qed.

Lemma drawn_ship_ok (sinf : f32 -> f32) fls : forall g,
  ship_ok g -> Forall (fun f => (4 | rect_x (ship_draw f))) (drawn sinf fls g).
Proof.
  induction fls as [|fl fls IH]; intros g Hg; cbn [drawn]; constructor.
  - destruct (step_ship_ok sinf g fl Hg) as (_ & _ & _ & Hdiv). exact Hdiv.
  - apply IH. apply step_ship_ok. exact Hg.
Qed.

(** Passes under constant flags move the ship by the same clamped step
    each time. *)
Lemma run_heading (sinf : f32 -> f32) fl N : forall g,
  Player.speed (player g) = 4 ->
  x (Player.size (player g)) = 64 ->
  0 <= player_x g <= screen_width - 64 ->
  player_x (run sinf (replicate N fl) g)
    = Nat.iter N (fun z => clamp_x (z + 4 * heading fl)) (player_x g).
Proof.
  induction N as [|N IH]; intros g Hspeed Hsize Hx; [reflexivity|].
  cbn [replicate]. change (run sinf (fl :: replicate N fl) g)
    with (run sinf (replicate N fl) (step sinf fl g)).
  pose proof (step_player_x sinf g fl Hspeed Hsize Hx) as Hstep.
  rewrite IH; [|exact Hspeed|exact Hsize|rewrite Hstep; apply clamp_x_range].
  rewrite Hstep, Nat.iter_succ_r. reflexivity.
Qed.

Lemma iter_right N : forall z,
  0 <= z <= screen_width - 64 ->
  Nat.iter N (fun z => clamp_x (z + 4 * heading right_only)) z
    = Z.min (screen_width - 64) (z + 4 * Z.of_nat N).
Proof.
  induction N as [|N IH]; intros z Hz.
  - cbn [Nat.iter nat_rect]. lia.
  - rewrite Nat.iter_succ_r, IH by apply clamp_x_range.
    unfold clamp_x, heading, screen_width in *. cbn [move_left move_right right_only]. lia.
Qed.

Lemma iter_still N : forall z,
  0 <= z <= screen_width - 64 ->
  Nat.iter N (fun z => clamp_x (z + 4 * heading no_input)) z = z.
Proof.
  induction N as [|N IH]; intros z Hz; [reflexivity|].
  rewrite Nat.iter_succ_r, IH by apply clamp_x_range.
  unfold clamp_x, heading, screen_width in *. cbn [move_left move_right no_input]. lia.
Qed.

(** X11: with only "move right" held for [N] passes, a ship that starts at
    [x0] within the screen ends at [min 576 (x0 + 4 * N)]: it advances by
    its speed each pass and stops at the right edge. *)
Theorem hold_right (sinf : f32 -> f32) (g : Game) (N : nat) :
  Player.speed (player g) = 4 ->
  x (Player.size (player g)) = 64 ->
  0 <= player_x g <= screen_width - 64 ->
  player_x (run sinf (replicate N right_only) g)
    = Z.min (screen_width - 64) (player_x g + 4 * Z.of_nat N).
Proof.
  intros Hspeed Hsize Hx.
  rewrite (run_heading sinf right_only N g Hspeed Hsize Hx).
  apply iter_right. exact Hx.
Qed.

(** From the initial position the right edge is reached after 144 passes;
    one more changes nothing. *)
Lemma hold_right_witness :
  player_x (run sinf_sample (replicate 145 right_only) init_game)
    = Z.min (screen_width - 64) (player_x init_game + 4 * Z.of_nat 145).
Proof.
  exact (hold_right sinf_sample init_game 145 eq_refl eq_refl
           (conj (Z.le_refl 0) (Zle_bool_imp_le 0 576 eq_refl))).
Defined.

(** X12: the ship stays on the 4-pixel grid.  Whatever the input and the
    sine, every x the ship of [main] is drawn at, and the x it is left at,
    is a multiple of its speed 4 (0 and 576, the two ends of its range, are
    such multiples). *)
Theorem ship_on_grid (sinf : f32 -> f32) :
  (forall fls, (4 | player_x (run sinf fls init_game))) /\
  (forall env,
      Forall (fun f => (4 | rect_x (ship_draw f))) (rendered (main sinf env)) /\
      (4 | player_x (game (main sinf env)))).
Proof.
  split.
  - intros fls. apply (run_ship_ok sinf fls init_game init_game_ship_ok).
  - intros env. destruct (main_cases sinf env) as [[o ->]| ->].
    + split; [constructor|]. apply init_game_ship_ok.
    + destruct (main_loop_trace sinf (events env) init_game no_input []) as [-> ->].
      split.
      * apply drawn_ship_ok. exact init_game_ship_ok.
      * apply (run_ship_ok sinf _ init_game init_game_ship_ok).
Qed.

(** X13: the speed limit.  A ship within the screen moves by at most its
    speed 4 in a pass, in the direction the flags ask for and not at all
    when they ask for none or for both; over any passes it is displaced by
    at most 4 pixels per pass. *)
Theorem ship_speed_limit (sinf : f32 -> f32) (g : Game) :
  Player.speed (player g) = 4 ->
  x (Player.size (player g)) = 64 ->
  0 <= player_x g <= screen_width - 64 ->
  (forall fl,
      let d := player_x (step sinf fl g) - player_x g in
      Z.abs d <= 4 /\ 0 <= d * heading fl /\ (heading fl = 0 -> d = 0)) /\
  (forall fls,
      Z.abs (player_x (run sinf fls g) - player_x g) <= 4 * Z.of_nat (length fls)).
Proof.
  intros Hspeed Hsize Hx. split.
  - intros fl. cbv zeta. rewrite (step_player_x sinf g fl Hspeed Hsize Hx).
    unfold clamp_x, heading, screen_width in *.
    destruct (move_left fl), (move_right fl); lia.
  - intros fls. revert g Hspeed Hsize Hx.
    induction fls as [|fl fls IH]; intros g Hspeed Hsize Hx.
    + change (run sinf [] g) with g. cbn [length]. lia.
    + change (run sinf (fl :: fls) g) with (run sinf fls (step sinf fl g)).
      pose proof (step_player_x sinf g fl Hspeed Hsize Hx) as Hstep.
      assert (Hx' : 0 <= player_x (step sinf fl g) <= screen_width - 64).
      { rewrite Hstep. apply clamp_x_range. }
      specialize (IH (step sinf fl g) Hspeed Hsize Hx').
      assert (Hd : Z.abs (player_x (step sinf fl g) - player_x g) <= 4).
      { rewrite Hstep. unfold clamp_x, heading, screen_width in *.
        destruct (move_left fl), (move_right fl); lia. }
      cbn [length]. lia.
Qed.

Lemma ship_speed_limit_witness :
  Z.abs (player_x (run sinf_sample [right_only; right_only; left_only] init_game)
         - player_x init_game) <= 4 * Z.of_nat 3.
Proof.
  exact (proj2 (ship_speed_limit sinf_sample init_game eq_refl eq_refl
                  (conj (Z.le_refl 0) (Zle_bool_imp_le 0 576 eq_refl)))
               [right_only; right_only; left_only]).
Defined.

(** X14: no signed overflow.  In every state the program reaches, the
    subtractions and additions of the update step (on the ship's x and on
    the two clamp bounds) stay within [i32]: the undefined behaviour of
    signed overflow never arises, and the wrap-around of the model is never
    used. *)
Theorem update_never_overflows (sinf : f32 -> f32) (fls : list Flags) :
  let g := run sinf fls init_game in
  let px := player_x g in
  let speed := Player.speed (player g) in
  in_i32 (px - speed) = true /\
  in_i32 (px + speed) = true /\
  in_i32 (px - speed + speed) = true /\
  in_i32 (screen_width - x (Player.size (player g))) = true /\
  in_i32 (screen_width - x (Enemy.size (enemy g))) = true /\
  forall fl,
    player_x (update sinf g fl)
    = Z.min (Z.max (px + speed * heading fl) 0) (screen_width - x (Player.size (player g))).
Proof.
  cbv zeta.
  destruct (run_ship_ok sinf fls init_game init_game_ship_ok) as (Hspeed & Hsize & Hx & _).
  destruct (run_same_shape sinf fls init_game) as (Hps & _ & Hes & _ & _).
  set (g := run sinf fls init_game) in *.
  rewrite Hspeed, Hps, Hes. cbn [x Player.size Enemy.size player enemy init_game].
  unfold in_i32, i32_min, i32_max, screen_width in *.
  assert (Hb : forall z, -8 <= z <= 640 -> (- 2 ^ 31 <=? z) && (z <=? 2 ^ 31 - 1) = true).
  { intros z Hz. apply andb_true_intro. split; apply Z.leb_le; lia. }
  repeat (split; [apply Hb; lia|]).
  intros fl. change (player_x (update sinf g fl)) with (player_x (step sinf fl g)).
  rewrite (step_player_x sinf g fl Hspeed Hsize Hx). unfold clamp_x, screen_width. reflexivity.
Qed.

(** ** The clamp *)

(** X15: [clamp_position] for any size.  It never touches y and clamping
    twice is clamping once.  For a size that fits the screen the result lies
    in [0, screen_width - size.x] and a position already there is kept; for
    an entity wider than the screen the bounds are inverted, and the result
    is the negative [screen_width - size.x] wherever the entity was. *)
Theorem clamp_position_cases (pos sz : Vector2) :
  0 <= x sz <= i32_max ->
  y (clamp_position pos sz) = y pos /\
  clamp_position (clamp_position pos sz) sz = clamp_position pos sz /\
  (x sz <= screen_width ->
     0 <= x (clamp_position pos sz) <= screen_width - x sz /\
     (0 <= x pos <= screen_width - x sz -> clamp_position pos sz = pos)) /\
  (screen_width < x sz ->
     x (clamp_position pos sz) = screen_width - x sz /\ x (clamp_position pos sz) < 0).
Proof.
  intros Hsz. unfold clamp_position. cbn [x y].
  rewrite wrap_i32_id by (unfold i32_min, i32_max, screen_width in *; lia).
  split; [reflexivity|]. split; [f_equal; lia|]. split.
  - intros Hfit. split; [lia|]. intros Hin. destruct pos as [px py]. cbn [x y] in *.
    f_equal. lia.
  - intros Hwide. lia.
Qed.

Lemma clamp_position_cases_witness :
  x (clamp_position {| x := 100; y := 7 |} {| x := 700; y := 64 |}) = screen_width - 700 /\
  x (clamp_position {| x := 100; y := 7 |} {| x := 700; y := 64 |}) < 0.
Proof.
  refine (proj2 (proj2 (proj2 (clamp_position_cases {| x := 100; y := 7 |}
                                 {| x := 700; y := 64 |} _))) _).
  - cbn [x]. unfold i32_max. lia.
  - cbn [x]. unfold screen_width. lia.
Defined.

(** ** Ship and enemy do not interfere *)

(** X16: ship and enemy do not interfere.  The ship after a run depends on
    the flags and on where the ship was, not on the sine, the clock or the
    enemy: two runs under the same flags from states that agree on the
    player end with the same player, whatever their sines, clocks and
    enemies.  The enemy and the clock depend on the number of passes, the
    sine and where they were, not on the keys held or on the ship: two runs
    of equal length from states that agree on enemy and clock end with the
    same enemy and clock, whatever their flags and players. *)
Theorem ship_enemy_independent (sinf sinf' : f32 -> f32) (fls fls' : list Flags)
    (g g' : Game) :
  length fls = length fls' ->
  (player g = player g' ->
   player (run sinf fls g) = player (run sinf' fls g')) /\
  (enemy g = enemy g' -> elapsed_time g = elapsed_time g' ->
   enemy (run sinf fls g) = enemy (run sinf fls' g') /\
   elapsed_time (run sinf fls g) = elapsed_time (run sinf fls' g')).
Proof.
  intros Hlen. split.
  - clear Hlen fls'. revert g g'.
    induction fls as [|fl fls IH]; intros g g' H; [exact H|].
    change (run sinf (fl :: fls) g) with (run sinf fls (step sinf fl g)).
    change (run sinf' (fl :: fls) g') with (run sinf' fls (step sinf' fl g')).
    apply IH. unfold step, tick, update. cbn [player]. rewrite H. reflexivity.
  - revert fls' g g' Hlen.
    induction fls as [|fl fls IH]; intros [|fl' fls'] g g' Hlen He Ht;
      try discriminate Hlen.
    + split; assumption.
    + change (run sinf (fl :: fls) g) with (run sinf fls (step sinf fl g)).
      change (run sinf (fl' :: fls') g') with (run sinf fls' (step sinf fl' g')).
      apply IH.
      * injection Hlen as Hlen. exact Hlen.
      * unfold step, tick, update. cbn [enemy]. rewrite He, Ht. reflexivity.
      * unfold step, tick, update. cbn [elapsed_time]. rewrite Ht. reflexivity.
Qed.

(** The ship of a run from another clock, enemy and sine; the enemy of a
    run under other flags with the ship elsewhere. *)
Lemma ship_enemy_independent_witness :
  player (run sinf_sample [left_only; right_only] init_game)
    = player (run (fun t => t) [left_only; right_only] late_game) /\
  enemy (run sinf_sample [left_only; right_only] init_game)
    = enemy (run sinf_sample [no_input; both_held] ship_moved_game).
Proof.
  split.
  - exact (proj1 (ship_enemy_independent sinf_sample (fun t => t)
                    [left_only; right_only] [left_only; right_only]
                    init_game late_game eq_refl) eq_refl).
  - exact (proj1 (proj2 (ship_enemy_independent sinf_sample sinf_sample
                           [left_only; right_only] [no_input; both_held]
                           init_game ship_moved_game eq_refl) eq_refl eq_refl)).
Defined.

(** ** Starting up *)

Lemma init_long p :
  no_nul p -> (Z.to_nat max_path_len <= length p)%nat ->
  fs.init (Some p) fs.init_dirs = None.
Proof.
  intros Hp Hlen. unfold fs.init. cbn [fs.root fs.init_dirs].
  unfold fs.set_install_dir. unfold fs.bind at 1. rewrite (readlink_long p Hlen).
  unfold fs.bind, fs.strlen. rewrite first_nul_no_nul; [reflexivity|].
  apply Forall_take. exact Hp.
Qed.

Lemma main_enters_loop (sinf : f32 -> f32) env :
  starts env ->
  main sinf env = main_loop sinf (events env) init_game no_input [].
Proof.
  intros (H1 & H2 & H3 & Hfit & Himg). unfold main.
  destruct (init_defined (proc_self_exe env) Hfit) as (d & -> & Hasset).
  destruct (Hasset "ship.png"%string) as [ship_path ->].
  destruct (Hasset "enemy.png"%string) as [enemy_path ->].
  destruct (Z.ltb_spec (SDL_Init env) 0); [lia|].
  destruct (Z.ltb_spec (SDL_CreateWindowAndRenderer env) 0); [lia|].
  destruct (Z.eqb_spec (SDL_GetWindowSurface env) 0); [contradiction|].
  destruct (Z.eqb_spec (IMG_LoadTexture env ship_path) 0) as [E|_];
    [exfalso; exact (Himg _ E)|].
  destruct (Z.eqb_spec (IMG_LoadTexture env enemy_path) 0) as [E|_];
    [exfalso; exact (Himg _ E)|].
  reflexivity.
Qed.



(** X18: where [main] leaves defined behaviour.  For an executable whose
    path holds no NUL, [main] runs into undefined behaviour exactly when
    SDL and the window came up and then either the window has no surface
    (the NULL pointer is dereferenced) or the path has 256 bytes or more
    ([strlen] runs off the end of [root]). *)
Theorem main_undefined_iff (sinf : f32 -> f32) (env : Env) (p : list ascii) :
  proc_self_exe env = Some p ->
  no_nul p ->
  (outcome (main sinf env) = Undefined <->
   0 <= SDL_Init env /\ 0 <= SDL_CreateWindowAndRenderer env /\
   (SDL_GetWindowSurface env = 0 \/ (Z.to_nat max_path_len <= length p)%nat)).
Proof.
  intros Hexe Hp. unfold main. rewrite Hexe.
  destruct (Z.ltb_spec (SDL_Init env) 0) as [H1|H1].
  { cbn [outcome stopped]. split; [discriminate|lia]. }
  destruct (Z.ltb_spec (SDL_CreateWindowAndRenderer env) 0) as [H2|H2].
  { cbn [outcome stopped]. split; [discriminate|lia]. }
  destruct (Z.eqb_spec (SDL_GetWindowSurface env) 0) as [H3|H3].
  { cbn [outcome stopped]. split; [intros _|reflexivity]. repeat split; auto. }
  destruct (Nat.le_gt_cases (Z.to_nat max_path_len) (length p)) as [Hlong|Hshort].
  { rewrite (init_long p Hp Hlong). cbn [outcome stopped].
    split; [intros _|reflexivity]. repeat split; auto. }
  destruct (init_defined (Some p) Hshort) as (d & -> & Hasset).
  destruct (Hasset "ship.png"%string) as [ship_path ->].
  destruct (Hasset "enemy.png"%string) as [enemy_path ->].
  assert (Hno : ~ (0 <= SDL_Init env /\ 0 <= SDL_CreateWindowAndRenderer env /\
                   (SDL_GetWindowSurface env = 0 \/
                    (Z.to_nat max_path_len <= length p)%nat))) by lia.
  destruct (IMG_LoadTexture env ship_path =? 0).
  { cbn [outcome stopped]. split; [discriminate|contradiction]. }
  destruct (IMG_LoadTexture env enemy_path =? 0).
  { cbn [outcome stopped]. split; [discriminate|contradiction]. }
  destruct (main_loop_outcome sinf (events env) init_game no_input [])
    as [[_ ->]|[_ ->]]; (split; [discriminate|contradiction]).
Qed.

Lemma main_undefined_iff_witness :
  let env := {| SDL_Init := 0; SDL_CreateWindowAndRenderer := 0;
                SDL_GetWindowSurface := 1;
                proc_self_exe := Some (replicate 256 "a"%char);
                IMG_LoadTexture := fun _ => 1;
                events := [] |} in
  outcome (main sinf_sample env) = Undefined.
Proof.
  intros env.
  refine (proj2 (main_undefined_iff sinf_sample env (replicate 256 "a"%char) eq_refl _) _).
  - apply Forall_replicate. discriminate.
  - split; [cbn; lia|]. split; [cbn; lia|]. right. vm_compute. repeat constructor.
Defined.



(** ** A key held down *)

Lemma pass_flags_inert qs : forall fl,
  Forall (Forall inert) qs -> pass_flags qs fl = replicate (length qs) fl.
Proof.
  induction qs as [|q qs IH]; intros fl H; [reflexivity|].
  inversion H as [|? ? Hq Hqs]; subst. cbn [pass_flags length replicate].
  rewrite (poll_events_inert q fl Hq). rewrite (IH fl Hqs). reflexivity.
Qed.

Lemma pass_flags_app_inert qs rest : forall fl,
  Forall (Forall inert) qs ->
  pass_flags (qs ++ rest) fl = replicate (length qs) fl ++ pass_flags rest fl.
Proof.
  induction qs as [|q qs IH]; intros fl H; [reflexivity|].
  inversion H as [|? ? Hq Hqs]; subst. cbn [app pass_flags length replicate].
  rewrite (poll_events_inert q fl Hq). rewrite (IH fl Hqs). reflexivity.
Qed.

(** X20: a key held down.  When [main] has started and the right arrow is
    pressed in the first pass and released some passes later, with nothing
    but other events in between and after, the ship moves 4 pixels right in
    the pass of the press and in every pass up to the release (stopping at
    the edge), and not at all from the pass of the release on; one frame is
    drawn per pass. *)
Theorem key_held_moves_ship (sinf : f32 -> f32) (env : Env)
    (held after : list (list SDL_Event)) :
  starts env ->
  Forall (Forall inert) held ->
  Forall (Forall inert) after ->
  events env = [SDL_KEYDOWN SDLK_RIGHT] :: held ++ [SDL_KEYUP SDLK_RIGHT] :: after ->
  outcome (main sinf env) = Running /\
  player_x (game (main sinf env))
    = Z.min (screen_width - 64) (4 * (1 + Z.of_nat (length held))) /\
  length (rendered (main sinf env)) = (2 + length held + length after)%nat.
Proof.
  intros Hstart Hheld Hafter Hev.
  rewrite (main_enters_loop sinf env Hstart), Hev.
  set (frames := [SDL_KEYDOWN SDLK_RIGHT] :: held ++ [SDL_KEYUP SDLK_RIGHT] :: after).
  assert (Hfl : pass_flags frames no_input
                = replicate (S (length held)) right_only
                  ++ replicate (S (length after)) no_input).
  { unfold frames. cbn [pass_flags poll_events].
    change {| move_left := move_left no_input; move_right := true |} with right_only.
    rewrite (pass_flags_app_inert held _ right_only Hheld).
    cbn [pass_flags poll_events].
    change {| move_left := move_left right_only; move_right := false |} with no_input.
    rewrite (pass_flags_inert after no_input Hafter). reflexivity. }
  destruct (main_loop_trace sinf frames init_game no_input []) as [Hg Hr].
  split; [|split].
  - destruct (main_loop_outcome sinf frames init_game no_input []) as [[Hq _]|[_ Ho]];
      [|exact Ho].
    exfalso. destruct (pass_flags_length frames no_input) as [_ Hiff].
    apply Hiff; [|exact Hq]. rewrite Hfl. unfold frames. cbn [length].
    rewrite !length_app, !length_replicate. cbn [length]. lia.
  - rewrite Hg, Hfl, run_app.
    destruct (run_same_shape sinf (replicate (S (length held)) right_only) init_game)
      as (Hps & Hsp & _).
    assert (Hx : player_x (run sinf (replicate (S (length held)) right_only) init_game)
                 = Z.min (screen_width - 64) (4 * (1 + Z.of_nat (length held)))).
    { rewrite run_heading; [|reflexivity|reflexivity|change (0 <= 0 <= 576); lia].
      rewrite iter_right by (change (0 <= 0 <= 576); lia).
      change (player_x init_game) with 0. f_equal. lia. }
    rewrite run_heading; [|rewrite Hsp; reflexivity|rewrite Hps; reflexivity|].
    + rewrite iter_still; [exact Hx|]. rewrite Hx. unfold screen_width. lia.
    + rewrite Hx. unfold screen_width. lia.
  - rewrite Hr. cbn [app]. rewrite drawn_length, Hfl.
    rewrite length_app, !length_replicate. lia.
Qed.

Lemma key_held_moves_ship_witness :
  let env := {| SDL_Init := 0; SDL_CreateWindowAndRenderer := 0;
                SDL_GetWindowSurface := 1;
                proc_self_exe := Some (list_ascii_of_string "/r/build/linux/recurse_invaders");
                IMG_LoadTexture := fun _ => 1;
                events := [SDL_KEYDOWN SDLK_RIGHT] :: [[]; [SDL_other]]
                          ++ [SDL_KEYUP SDLK_RIGHT] :: [[SDL_KEYDOWN SDLK_other]] |} in
  outcome (main sinf_sample env) = Running /\
  player_x (game (main sinf_sample env)) = Z.min (screen_width - 64) (4 * (1 + Z.of_nat 2)) /\
  length (rendered (main sinf_sample env)) = 5%nat.
Proof.
  intros env.
  refine (key_held_moves_ship sinf_sample env [[]; [SDL_other]] [[SDL_KEYDOWN SDLK_other]]
            _ _ _ eq_refl).
  - split; [cbn; lia|]. split; [cbn; lia|]. split; [discriminate|].
    split; [vm_compute; repeat constructor|]. intros path. discriminate.
  - repeat constructor.
  - repeat constructor.
Defined.

(** ** The clock never passes 2^19 *)

Lemma shr_fexp_rounded_lt m2 e1 :
  0 <= m2 <= 2 ^ 24 -> -149 <= e1 ->
  exists mrs e3,
    shr_fexp f32_prec f32_emax m2 e1 loc_Exact = (mrs, e3) /\
    shr_m mrs < 2 ^ 24 /\ e1 <= e3 /\ shr_m mrs * 2 ^ (e3 - e1) = m2.
Proof.
  intros Hm He. destruct (Z.eq_dec m2 (2 ^ 24)) as [->|Hne].
  - unfold shr_fexp. change (Zdigits2 (2 ^ 24)) with 25. rewrite fexp_f32.
    replace (Z.max (25 + e1 - 24) (-149) - e1) with 1 by lia.
    eexists _, _. split; [reflexivity|]. split; [vm_compute; reflexivity|].
    split; [lia|]. replace (e1 + 1 - e1) with 1 by lia. reflexivity.
  - destruct (shr_fexp_rounded m2 e1 Hm He) as (mrs & e3 & Hs & Hval & He3 & Hup).
    exists mrs, e3. split; [exact Hs|].
    assert (e3 = e1) by (destruct (Z.eq_dec e3 (e1 + 1)) as [E|E]; [specialize (Hup E)|]; lia).
    subst e3. split; [|split; [lia|exact Hval]]. rewrite Z.sub_diag in Hval. lia.
Qed.

(** A rounded mantissa has at most 24 bits, and the exponent is one of the
    format, not below the one rounding started from. *)
Lemma binary_round_aux_shape sx mx ex lx s3 m3 e3 :
  0 <= mx ->
  binary_round_aux f32_prec f32_emax sx mx ex lx = S754_finite s3 m3 e3 ->
  Zpos m3 < 2 ^ 24 /\ -149 <= e3 /\ ex <= e3.
Proof.
  intros Hm Hres.
  destruct (shr_fexp_spec mx ex lx Hm) as (mrs & Hs & Hm1 & _).
  set (e1 := Z.max ex (fexp f32_prec f32_emax (Zdigits2 mx + ex))) in *.
  assert (He1def : e1 = Z.max ex (Z.max (Zdigits2 mx + ex - 24) (-149))) by reflexivity.
  clearbody e1.
  assert (Hlt24 : mx < 2 ^ (24 + (e1 - ex))).
  { destruct (Z.eq_dec mx 0) as [->|H0]; [apply Z.pow_pos_nonneg; lia|].
    destruct (Zdigits2_bounds mx) as [_ Hhi]; [lia|].
    pose proof (Zdigits2_pos mx ltac:(lia)) as Hdp.
    eapply Z.lt_le_trans; [exact Hhi|]. apply Z.pow_le_mono_r; lia. }
  set (k := e1 - ex) in *.
  assert (Hk : 0 < 2 ^ k) by (apply Z.pow_pos_nonneg; lia).
  set (m1 := mx / 2 ^ k) in *.
  assert (Hm1r : 0 <= m1 < 2 ^ 24).
  { split; [apply Z.div_pos; lia|]. apply Z.div_lt_upper_bound; [lia|].
    rewrite <- Z.pow_add_r by lia. replace (k + 24) with (24 + k) by lia. exact Hlt24. }
  set (m2 := round_nearest_even (shr_m mrs) (loc_of_shr_record mrs)).
  assert (Hm2 : m1 <= m2 <= m1 + 1).
  { unfold m2. rewrite Hm1. apply round_nearest_even_range. }
  destruct (shr_fexp_rounded_lt m2 e1) as (mrs3 & e3' & Hs3 & Hlt & He3 & _); [lia|lia|].
  unfold binary_round_aux in Hres. rewrite Hs in Hres. fold m2 in Hres.
  rewrite Hs3 in Hres.
  destruct (shr_m mrs3) as [|m|m]; try discriminate Hres.
  destruct (e3' <=? f32_emax - f32_prec); [|discriminate Hres].
  injection Hres as _ <- <-. split; [exact Hlt|]. lia.
Qed.

(** The sum of two positive floats, as the rounding of their exact sum at
    the lower of the two exponents. *)
Lemma f32_add_pos m e m' e' :
  exists mz ez,
    f32_add (S754_finite false m e) (S754_finite false m' e')
      = binary_round_aux f32_prec f32_emax false (Zpos mz) ez loc_Exact /\
    Z.min (Z.min e e') (-149) <= ez <= Z.min e e' /\
    Zpos mz = (Zpos m * 2 ^ (e - Z.min e e') + Zpos m' * 2 ^ (e' - Z.min e e'))
              * 2 ^ (Z.min e e' - ez).
Proof.
  unfold f32_add. cbn [SFadd].
  destruct (shl_align_spec m e (Z.min e e')) as (m1 & e1 & -> & He1 & Hm1).
  destruct (shl_align_spec m' e' (Z.min e e')) as (m2 & e2 & -> & He2 & Hm2).
  cbn [fst cond_Zopp].
  replace (Z.min e (Z.min e e')) with (Z.min e e') in He1 by lia. subst e1.
  replace (Z.min e' (Z.min e e')) with (Z.min e e') in He2 by lia. subst e2.
  rewrite <- Hm1, <- Hm2. change (Zpos m1 + Zpos m2) with (Zpos (m1 + m2)).
  unfold binary_normalize, binary_round.
  destruct (shl_align_spec (m1 + m2) (Z.min e e')
              (fexp f32_prec f32_emax (Zpos (digits2_pos (m1 + m2)) + Z.min e e')))
    as (mz & ez & -> & Hez & Hmz).
  exists mz, ez. split; [reflexivity|]. rewrite fexp_f32 in Hez. split; [lia|exact Hmz].
Qed.

(** Adding [frame_time] to 2^19, however it is written, gives 2^19. *)
Lemma add_frame_time_max k :
  (k < 24)%nat ->
  f32_add (S754_finite false (Z.to_pos (2 ^ Z.of_nat k)) (19 - Z.of_nat k)) frame_time
  = clock_max.
Proof.
  intros Hk.
  do 24 (destruct k as [|k]; [vm_compute; reflexivity|]). lia.
Qed.

(** Below 2^19 the exact sum with [frame_time] is still below 2^19. *)
Lemma sum_below_max m e :
  Zpos m < 2 ^ 24 -> e <= 19 -> Zpos m < 2 ^ (19 - e) ->
  Zpos m * 2 ^ (e - Z.min e (-29)) + 8947849 * 2 ^ (-29 - Z.min e (-29))
    < 2 ^ (19 - Z.min e (-29)).
Proof.
  intros Hm24 He Hm.
  destruct (Z.le_gt_cases (-29) e) as [Hge|Hlt].
  - replace (Z.min e (-29)) with (-29) by lia.
    change (2 ^ (-29 - -29)) with 1. change (2 ^ (19 - -29)) with (2 ^ 48).
    replace (e - -29) with (e + 29) by lia.
    set (P := 2 ^ (e + 29)).
    assert (HP : 1 <= P) by (unfold P; apply (Z.pow_le_mono_r 2 0); lia).
    destruct (Z.le_gt_cases (-4) e) as [Hbig|Hsmall].
    + assert (HPP : P * 2 ^ (19 - e) = 2 ^ 48).
      { unfold P. rewrite <- Z.pow_add_r by lia. f_equal. lia. }
      assert (HP25 : 2 ^ 25 <= P) by (unfold P; apply Z.pow_le_mono_r; lia).
      change (2 ^ 25) with 33554432 in HP25. change (2 ^ 48) with 281474976710656 in *.
      nia.
    + assert (HP24 : P <= 2 ^ 24) by (unfold P; apply Z.pow_le_mono_r; lia).
      change (2 ^ 24) with 16777216 in *. change (2 ^ 48) with 281474976710656.
      nia.
  - replace (Z.min e (-29)) with e by lia. rewrite Z.sub_diag. change (2 ^ 0) with 1.
    set (Q := 2 ^ (-29 - e)).
    assert (HQ : 2 <= Q) by (unfold Q; apply (Z.pow_le_mono_r 2 1); lia).
    assert (HQQ : 2 ^ (19 - e) = 2 ^ 48 * Q).
    { unfold Q. rewrite <- Z.pow_add_r by lia. f_equal. lia. }
    rewrite HQQ. change (2 ^ 24) with 16777216 in *.
    change (2 ^ 48) with 281474976710656. nia.
Qed.

Lemma add_frame_time_at_max m e :
  Zpos m < 2 ^ 24 -> e <= 19 -> Zpos m = 2 ^ (19 - e) ->
  f32_add (S754_finite false m e) frame_time = clock_max.
Proof.
  intros Hm24 He Heq.
  assert (He4 : -4 <= e).
  { destruct (Z.le_gt_cases (-4) e) as [|Hlt]; [assumption|exfalso].
    assert (2 ^ 24 <= 2 ^ (19 - e)) by (apply Z.pow_le_mono_r; lia). lia. }
  assert (Hmk : m = Z.to_pos (2 ^ Z.of_nat (Z.to_nat (19 - e)))).
  { rewrite Z2Nat.id by lia. rewrite <- Heq. reflexivity. }
  replace e with (19 - Z.of_nat (Z.to_nat (19 - e))) at 1 by lia.
  rewrite Hmk. apply add_frame_time_max. lia.
Qed.

Lemma add_frame_time_ok t : clock_ok t -> clock_ok (f32_add t frame_time).
Proof.
  intros [->|(m & e & -> & Hm24 & [Hlo He] & Hm)].
  - right. exists 8947849%positive, (-29). split; [vm_compute; reflexivity|]. cbn. lia.
  - destruct (Z.eq_dec (Zpos m) (2 ^ (19 - e))) as [Heq|Hne].
    + rewrite (add_frame_time_at_max m e Hm24 He Heq).
      right. exists 8388608%positive, (-4). split; [reflexivity|]. cbn. lia.
    + pose proof (sum_below_max m e Hm24 He ltac:(lia)) as Hsum.
      rewrite frame_time_value.
      destruct (f32_add_pos m e 8947849 (-29)) as (mz & ez & -> & Hez & Hmz).
      set (ex := Z.min e (-29)) in *.
      assert (Hpz : 0 < 2 ^ (ex - ez)) by (apply Z.pow_pos_nonneg; lia).
      destruct (binary_round_aux_le false (Zpos mz) ez loc_Exact 1 19)
        as [->|(m3 & e3 & H3 & He3 & Hm3)]; try lia.
      * rewrite Hmz, Z.mul_1_l.
        replace (19 - ez) with (19 - ex + (ex - ez)) by lia.
        rewrite Z.pow_add_r by lia. nia.
      * reflexivity.
      * left. reflexivity.
      * right. exists m3, e3. split; [exact H3|].
        destruct (binary_round_aux_shape false (Zpos mz) ez loc_Exact false m3 e3)
          as (H24 & H149 & _); [lia|exact H3|].
        split; [exact H24|]. split; [lia|lia].
Qed.

Lemma clock_ok_value t :
  clock_ok t -> exists q, f32_to_Q t = Some q /\ (0 <= q <= 524288)%Q.
Proof.
  intros [->|(m & e & -> & _ & [_ He] & Hm)].
  - exists 0%Q. split; [reflexivity|]. split; [apply Qle_refl|discriminate].
  - cbn [f32_to_Q cond_Zopp]. eexists. split; [reflexivity|].
    destruct e as [|p|p].
    + change (2 ^ (19 - 0)) with 524288 in Hm. unfold Qle. cbn [Qnum Qden inject_Z]. lia.
    + assert (Hp : 0 < 2 ^ Zpos p) by (apply Z.pow_pos_nonneg; lia).
      assert (Hpp : 2 ^ (19 - Zpos p) * 2 ^ Zpos p = 524288).
      { rewrite <- Z.pow_add_r by lia. replace (19 - Zpos p + Zpos p) with 19 by lia.
        reflexivity. }
      unfold Qle. cbn [Qnum Qden inject_Z]. nia.
    + assert (Hpp : 2 ^ (19 - Zneg p) = 524288 * 2 ^ Zpos p).
      { replace (19 - Zneg p) with (19 + Zpos p) by lia. rewrite Z.pow_add_r by lia.
        reflexivity. }
      unfold Qle. cbn [Qnum Qden]. rewrite Pos2Z.inj_pow. lia.
Qed.

Lemma accumulate_ok n : forall t, clock_ok t -> clock_ok (accumulate n t).
Proof.
  induction n as [|n IH]; intros t Ht; [exact Ht|].
  unfold accumulate. rewrite Nat.iter_succ_r. apply IH. apply add_frame_time_ok. exact Ht.
Qed.

Lemma accumulate_max n : accumulate n clock_max = clock_max.
Proof.
  induction n as [|n IH]; [reflexivity|].
  unfold accumulate. rewrite Nat.iter_succ_r.
  change (f32_add clock_max frame_time) with
    (f32_add (S754_finite false (Z.to_pos (2 ^ Z.of_nat 23)) (19 - Z.of_nat 23)) frame_time).
  rewrite add_frame_time_max by lia. exact IH.
Qed.

(** X21: the clock is bounded and stalls.  [elapsed_time] is always a
    finite number between 0 and 2^19 = 524288, never an infinity or a NaN;
    at 2^19 adding [frame_time] rounds back to 2^19, so a clock that holds
    this value keeps it for good. *)
Theorem clock_bounded (sinf : f32 -> f32) :
  (forall fls, exists q,
      f32_to_Q (elapsed_time (run sinf fls init_game)) = Some q /\ (0 <= q <= 524288)%Q) /\
  (forall env, exists q,
      f32_to_Q (elapsed_time (game (main sinf env))) = Some q /\ (0 <= q <= 524288)%Q) /\
  (exists q, f32_to_Q clock_max = Some q /\ (q == 524288)%Q) /\
  f32_add clock_max frame_time = clock_max /\
  (forall fls g, elapsed_time g = clock_max -> elapsed_time (run sinf fls g) = clock_max).
Proof.
  assert (Hrun : forall fls, clock_ok (elapsed_time (run sinf fls init_game))).
  { intros fls. rewrite run_elapsed_time. apply accumulate_ok. left. reflexivity. }
  split; [|split; [|split; [|split]]].
  - intros fls. apply clock_ok_value. apply Hrun.
  - intros env. apply clock_ok_value.
    destruct (main_cases sinf env) as [[o ->]| ->].
    + left. reflexivity.
    + destruct (main_loop_trace sinf (events env) init_game no_input []) as [-> _].
      apply Hrun.
  - eexists. split; [reflexivity|]. reflexivity.
  - exact (accumulate_max 1).
  - intros fls g Hg. rewrite run_elapsed_time, Hg. apply accumulate_max.
Qed.

(** ** The clock advances until it stalls *)

Lemma shr_1_eq m r s :
  0 <= m -> shr_1 (Build_shr_record m r s) = Build_shr_record (m / 2) (Z.odd m) (r || s).
Proof.
  intros Hm. destruct m as [|[p|p|]|p]; cbn [shr_1]; try lia.
  - reflexivity.
  - f_equal. rewrite Pos2Z.inj_xI. apply Z.div_unique with 1; lia.
  - f_equal. rewrite Pos2Z.inj_xO. apply Z.div_unique with 0; lia.
  - reflexivity.
Qed.

Lemma shifted_step N n mrs :
  0 <= N -> 0 <= n -> shifted N n mrs -> shifted N (n + 1) (shr_1 mrs).
Proof.
  intros HN Hn (Hm & Hr & Hs).
  set (P := 2 ^ n) in *.
  assert (HP : 0 < P) by (apply Z.pow_pos_nonneg; lia).
  assert (HP2 : 2 ^ (n + 1) = 2 * P) by (rewrite Z.pow_add_r by lia; change (2 ^ 1) with 2; lia).
  pose proof (Z.div_mod N P ltac:(lia)) as HNP.
  pose proof (Z.mod_pos_bound N P HP) as Hrem.
  set (m := N / P) in *. set (rem := N mod P) in *.
  assert (Hm0 : 0 <= m) by (apply Z.div_pos; lia).
  pose proof (Z.div_mod m 2 ltac:(lia)) as Hm2.
  pose proof (Z.mod_pos_bound m 2 ltac:(lia)) as Hb.
  pose proof (Zmod_odd m) as Hodd.
  set (b := m mod 2) in *. set (h := m / 2) in *.
  assert (Hdiv : N / 2 ^ (n + 1) = h).
  { rewrite HP2. symmetry. apply Z.div_unique with (b * P + rem); nia. }
  assert (Hmod : N mod 2 ^ (n + 1) = b * P + rem).
  { rewrite HP2. symmetry. apply Z.mod_unique with h; nia. }
  destruct mrs as [m' r s]. cbn [shr_m shr_r shr_s] in Hm, Hr, Hs. subst m'.
  rewrite shr_1_eq by exact Hm0. unfold shifted. cbn [shr_m shr_r shr_s].
  rewrite Hdiv, Hmod, HP2. split; [reflexivity|].
  assert (Hcases : (Z.odd m = true /\ b = 1) \/ (Z.odd m = false /\ b = 0)).
  { destruct (Z.odd m); [left|right]; split; auto. }
  rewrite orb_true_iff.
  destruct Hcases as [[-> ->]|[-> ->]]; split; split; intros H;
    try reflexivity; try discriminate; try nia.
  - destruct H as [H|H]; [apply Hr in H|apply Hs in H]; nia.
  - destruct (Z.le_gt_cases P (2 * rem)) as [Hc|Hc]; [left; apply Hr; exact Hc|].
    right. apply Hs. nia.
  - destruct H as [H|H]; [apply Hr in H|apply Hs in H]; nia.
  - destruct (Z.le_gt_cases P (2 * rem)) as [Hc|Hc]; [left; apply Hr; exact Hc|].
    right. apply Hs. nia.
Qed.

Lemma shifted_iter p : forall N n mrs,
  0 <= N -> 0 <= n -> shifted N n mrs ->
  shifted N (n + Zpos p) (SpecFloat.iter_pos shr_1 p mrs).
Proof.
  induction p as [p IH|p IH|]; intros N n mrs HN Hn H; cbn [SpecFloat.iter_pos].
  - replace (n + Zpos p~1) with (n + 1 + Zpos p + Zpos p) by lia.
    apply IH; [exact HN|lia|]. apply IH; [exact HN|lia|].
    apply shifted_step; assumption.
  - replace (n + Zpos p~0) with (n + Zpos p + Zpos p) by lia.
    apply IH; [exact HN|lia|]. apply IH; assumption.
  - apply shifted_step; assumption.
Qed.

(** The first shift of [binary_round_aux] on an exact number: when more
    than half a unit is dropped, the mantissa is rounded up. *)
Lemma shr_fexp_round_up mx ex :
  0 <= mx ->
  let e1 := Z.max ex (fexp f32_prec f32_emax (Zdigits2 mx + ex)) in
  2 ^ (e1 - ex) < 2 * (mx mod 2 ^ (e1 - ex)) ->
  exists mrs,
    shr_fexp f32_prec f32_emax mx ex loc_Exact = (mrs, e1) /\
    round_nearest_even (shr_m mrs) (loc_of_shr_record mrs) = mx / 2 ^ (e1 - ex) + 1.
Proof.
  intros Hm e1 Hhalf. subst e1. unfold shr_fexp, shr.
  set (f := fexp f32_prec f32_emax (Zdigits2 mx + ex)) in *.
  destruct (f - ex) as [|p|p] eqn:Hn.
  - exfalso. replace (Z.max ex f) with ex in Hhalf by lia.
    rewrite Z.sub_diag in Hhalf. change (2 ^ 0) with 1 in Hhalf.
    rewrite Z.mod_1_r in Hhalf. lia.
  - replace (Z.max ex f) with (ex + Zpos p) in * by lia.
    replace (ex + Zpos p - ex) with (Zpos p) in * by lia.
    assert (H0 : shifted mx 0 (shr_record_of_loc mx loc_Exact)).
    { unfold shifted. cbn [shr_record_of_loc shr_m shr_r shr_s]. change (2 ^ 0) with 1.
      rewrite Z.div_1_r, Z.mod_1_r. split; [reflexivity|]. split; split; try discriminate; lia. }
    pose proof (shifted_iter p mx 0 _ Hm (Z.le_refl 0) H0) as (Hq & Hr & Hs).
    rewrite Z.add_0_l in Hq, Hr, Hs.
    eexists. split; [reflexivity|].
    destruct (SpecFloat.iter_pos shr_1 p (shr_record_of_loc mx loc_Exact)) as [m r s].
    cbn [shr_m shr_r shr_s] in *. subst m.
    assert (r = true) by (apply Hr; lia). assert (s = true) by (apply Hs; lia). subst r s.
    reflexivity.
  - exfalso. replace (Z.max ex f) with ex in Hhalf by lia.
    rewrite Z.sub_diag in Hhalf. change (2 ^ 0) with 1 in Hhalf.
    rewrite Z.mod_1_r in Hhalf. lia.
Qed.

(** Rounding to nearest moves strictly above a number [c * 2^j] of the
    format when the exact value exceeds it by more than half a unit of the
    result's last place. *)
Lemma binary_round_aux_gt mx ex c j D :
  0 < c < 2 ^ 24 -> ex <= j -> -149 <= j -> 0 < D ->
  c * 2 ^ (j - ex) + D <= mx ->
  2 ^ (Z.max ex (Z.max (Zdigits2 mx + ex - 24) (-149)) - ex) < 2 * D ->
  match binary_round_aux f32_prec f32_emax false mx ex loc_Exact with
  | S754_finite _ m3 e3 => c * 2 ^ (j - ex) < Zpos m3 * 2 ^ (e3 - ex)
  | S754_infinity _ => True
  | _ => False
  end.
Proof.
  intros Hc Hex Hj HD Hle Hhalf.
  assert (Hcj : 0 < 2 ^ (j - ex)) by (apply Z.pow_pos_nonneg; lia).
  assert (Hm : 0 <= mx) by nia.
  destruct (shr_fexp_spec mx ex loc_Exact Hm) as (mrs & Hs & Hm1 & _).
  pose proof (shr_fexp_round_up mx ex Hm) as Hup. cbv zeta in Hup.
  set (e1 := Z.max ex (fexp f32_prec f32_emax (Zdigits2 mx + ex))) in *.
  assert (He1def : e1 = Z.max ex (Z.max (Zdigits2 mx + ex - 24) (-149))) by reflexivity.
  rewrite <- He1def in Hhalf. clearbody e1.
  set (k := e1 - ex) in *.
  assert (Hk0 : 0 <= k) by (unfold k; lia).
  assert (Hk : 0 < 2 ^ k) by (apply Z.pow_pos_nonneg; lia).
  pose proof (Z.div_mod mx (2 ^ k) ltac:(lia)) as Hdm.
  pose proof (Z.mod_pos_bound mx (2 ^ k) Hk) as Hrem.
  set (m1 := mx / 2 ^ k) in *. set (rem := mx mod 2 ^ k) in *.
  assert (Hm1r : 0 <= m1 < 2 ^ 24).
  { split; [apply Z.div_pos; lia|]. apply Z.div_lt_upper_bound; [lia|].
    destruct (Zdigits2_bounds mx) as [_ Hhi]; [lia|].
    eapply Z.lt_le_trans; [exact Hhi|]. rewrite <- Z.pow_add_r by lia.
    apply Z.pow_le_mono_r; lia. }
  set (m2 := round_nearest_even (shr_m mrs) (loc_of_shr_record mrs)).
  assert (Hm2 : m1 <= m2 <= m1 + 1).
  { unfold m2. rewrite Hm1. apply round_nearest_even_range. }
  assert (Hgt : c * 2 ^ (j - ex) < m2 * 2 ^ k).
  { destruct (Z.le_gt_cases e1 j) as [Hge|Hlt].
    - (* the number is on the grid of the result *)
      set (T := c * 2 ^ (j - e1)).
      assert (HT : c * 2 ^ (j - ex) = T * 2 ^ k).
      { unfold T, k. rewrite <- Z.mul_assoc, <- Z.pow_add_r by lia. do 2 f_equal. lia. }
      rewrite HT in *.
      destruct (Z.le_gt_cases (T + 1) m1) as [Hbig|Hsmall]; [nia|].
      assert (Hm1T : m1 = T) by nia.
      assert (Hround : m2 = m1 + 1).
      { destruct Hup as (mrs' & Hs' & Hr'); [fold rem; nia|].
        rewrite Hs in Hs'. injection Hs' as <-. exact Hr'. }
      nia.
    - (* the number lies below the binade of the result *)
      assert (He1 : e1 = Zdigits2 mx + ex - 24) by lia.
      destruct (Zdigits2_bounds mx) as [Hlo _]; [nia|].
      assert (H23 : 2 ^ 23 * 2 ^ k <= mx).
      { rewrite <- Z.pow_add_r by lia. eapply Z.le_trans; [|exact Hlo].
        apply Z.pow_le_mono_r; lia. }
      assert (Hm1lo : 2 ^ 23 <= m1).
      { apply Z.div_le_lower_bound; [lia|]. rewrite Z.mul_comm. exact H23. }
      assert (Hcj2 : 2 * 2 ^ (j - ex) <= 2 ^ k).
      { change 2 with (2 ^ 1) at 1. rewrite <- Z.pow_add_r by lia.
        apply Z.pow_le_mono_r; lia. }
      change (2 ^ 24) with 16777216 in *. change (2 ^ 23) with 8388608 in *. nia. }
  destruct (shr_fexp_rounded_lt m2 e1) as (mrs3 & e3 & Hs3 & Hlt3 & He3 & Hval); [lia|lia|].
  unfold binary_round_aux. rewrite Hs. fold m2. rewrite Hs3.
  assert (Hval' : shr_m mrs3 * 2 ^ (e3 - ex) = m2 * 2 ^ k).
  { rewrite <- Hval. replace (e3 - ex) with (e3 - e1 + k) by (unfold k; lia).
    rewrite Z.pow_add_r by lia. ring. }
  assert (Hp3 : 0 < 2 ^ (e3 - ex)) by (apply Z.pow_pos_nonneg; lia).
  destruct (shr_m mrs3) as [|m3|m3].
  - nia.
  - destruct (e3 <=? f32_emax - f32_prec); [|exact I]. lia.
  - nia.
Qed.

Lemma scaled_le_max t : clock_ok t -> 0 <= scaled t <= 2 ^ 168.
Proof.
  intros [->|(m & e & -> & _ & He & Hm)]; [cbn [scaled]; split; [lia|apply Z.pow_nonneg; lia]|].
  cbn [scaled].
  assert (Hp : 0 < 2 ^ (e + 149)) by (apply Z.pow_pos_nonneg; lia).
  assert (Hpp : 2 ^ (19 - e) * 2 ^ (e + 149) = 2 ^ 168).
  { rewrite <- Z.pow_add_r by lia. f_equal. lia. }
  split; [lia|]. rewrite <- Hpp. apply Z.mul_le_mono_nonneg_r; lia.
Qed.

(** Below 2^19 the sum with [frame_time] is rounded at a unit of at most
    [2^-5], less than twice [frame_time]. *)
Lemma half_unit_small mz ez :
  ez <= -29 -> 0 < mz < 2 ^ (19 - ez) ->
  2 ^ (Z.max ez (Z.max (Zdigits2 mz + ez - 24) (-149)) - ez)
    < 2 * (8947849 * 2 ^ (-29 - ez)).
Proof.
  intros Hez Hmz.
  assert (Hd : Zdigits2 mz <= 19 - ez) by (apply Zdigits2_le; lia).
  assert (Hp5 : 2 ^ 24 * 2 ^ (-29 - ez) = 2 ^ (-5 - ez)).
  { rewrite <- Z.pow_add_r by lia. f_equal. lia. }
  assert (Hpd : 0 < 2 ^ (-29 - ez)) by (apply Z.pow_pos_nonneg; lia).
  eapply Z.le_lt_trans; [apply (Z.pow_le_mono_r 2 _ (-5 - ez)); lia|].
  rewrite <- Hp5. change (2 ^ 24) with 16777216. lia.
Qed.

(** Below 2^19 adding [frame_time] gives a strictly larger float. *)
Lemma add_frame_time_gt t :
  clock_ok t -> scaled t < 2 ^ 168 -> scaled t < scaled (f32_add t frame_time).
Proof.
  intros Hok Hlt. pose proof (add_frame_time_ok t Hok) as Hok'.
  destruct Hok as [->|(m & e & -> & Hm24 & [Hlo He] & Hm)].
  - assert (H : f32_add (S754_zero false) frame_time = S754_finite false 8947849 (-29))
      by (vm_compute; reflexivity).
    rewrite H. cbn [scaled]. apply Z.mul_pos_pos; [lia|apply Z.pow_pos_nonneg; lia].
  - cbn [scaled] in Hlt |- *.
    assert (Hmlt : Zpos m < 2 ^ (19 - e)).
    { assert (Hp : 0 < 2 ^ (e + 149)) by (apply Z.pow_pos_nonneg; lia).
      assert (Hpp : 2 ^ (19 - e) * 2 ^ (e + 149) = 2 ^ 168).
      { rewrite <- Z.pow_add_r by lia. f_equal. lia. }
      rewrite <- Hpp in Hlt. apply Z.mul_lt_mono_pos_r in Hlt; assumption. }
    clear Hlt Hm.
    pose proof (sum_below_max m e Hm24 He Hmlt) as Hsum.
    rewrite frame_time_value in Hok' |- *.
    destruct (f32_add_pos m e 8947849 (-29)) as (mz & ez & Hadd & Hez & Hmz).
    rewrite Hadd in Hok' |- *. clear Hadd.
    assert (Hex : -149 <= Z.min e (-29) <= e /\ Z.min e (-29) <= -29) by lia.
    set (ex := Z.min e (-29)) in *. clearbody ex.
    assert (Hez' : -149 <= ez <= ex) by lia. clear Hez.
    assert (Hpz : 0 < 2 ^ (ex - ez)) by (apply Z.pow_pos_nonneg; lia).
    assert (Hpe : 2 ^ (e - ex) * 2 ^ (ex - ez) = 2 ^ (e - ez)).
    { rewrite <- Z.pow_add_r by lia. f_equal. lia. }
    assert (Hpf : 2 ^ (-29 - ex) * 2 ^ (ex - ez) = 2 ^ (-29 - ez)).
    { rewrite <- Z.pow_add_r by lia. f_equal. lia. }
    assert (Hp19 : 2 ^ (19 - ex) * 2 ^ (ex - ez) = 2 ^ (19 - ez)).
    { rewrite <- Z.pow_add_r by lia. f_equal. lia. }
    assert (Hpd : 0 < 8947849 * 2 ^ (-29 - ez)).
    { apply Z.mul_pos_pos; [reflexivity|apply Z.pow_pos_nonneg; lia]. }
    assert (Hmz' : Zpos m * 2 ^ (e - ez) + 8947849 * 2 ^ (-29 - ez) <= Zpos mz).
    { rewrite Hmz, <- Hpe, <- Hpf. apply Z.eq_le_incl. ring. }
    assert (Hmzlt : 0 < Zpos mz < 2 ^ (19 - ez)).
    { split; [reflexivity|]. rewrite Hmz, <- Hp19. apply Z.mul_lt_mono_pos_r; assumption. }
    clear Hsum Hmz Hpe Hpf Hp19 Hpz.
    pose proof (binary_round_aux_gt (Zpos mz) ez (Zpos m) e (8947849 * 2 ^ (-29 - ez))
                  (conj (Pos2Z.is_pos m) Hm24) ltac:(lia) Hlo Hpd Hmz'
                  (half_unit_small (Zpos mz) ez ltac:(lia) Hmzlt)) as Hgt.
    destruct (binary_round_aux f32_prec f32_emax false (Zpos mz) ez loc_Exact)
      as [s0|s0| |s3 m3 e3] eqn:Hres.
    + contradiction.
    + destruct Hok' as [H|(m' & e' & H & _)]; discriminate H.
    + destruct Hok' as [H|(m' & e' & H & _)]; discriminate H.
    + destruct (binary_round_aux_shape false (Zpos mz) ez loc_Exact s3 m3 e3)
        as (_ & _ & He3); [apply Pos2Z.is_nonneg|exact Hres|].
      assert (Hs3 : s3 = false).
      { destruct Hok' as [H|(m' & e' & H & _)]; [discriminate H|]. injection H as -> _ _.
        reflexivity. }
      subst s3. cbn [scaled].
      assert (Hz : 0 < 2 ^ (ez + 149)) by (apply Z.pow_pos_nonneg; lia).
      assert (Hq1 : 2 ^ (e + 149) = 2 ^ (e - ez) * 2 ^ (ez + 149)).
      { rewrite <- Z.pow_add_r by lia. f_equal. lia. }
      assert (Hq3 : 2 ^ (e3 + 149) = 2 ^ (e3 - ez) * 2 ^ (ez + 149)).
      { rewrite <- Z.pow_add_r by lia. f_equal. lia. }
      rewrite Hq1, Hq3, !Z.mul_assoc.
      apply Z.mul_lt_mono_pos_r; assumption.
Qed.

Lemma accumulate_S n t : accumulate (S n) t = accumulate n (f32_add t frame_time).
Proof. unfold accumulate. rewrite Nat.iter_succ_r. reflexivity. Qed.

Lemma scaled_max_stalls t :
  clock_ok t -> scaled t = 2 ^ 168 -> f32_add t frame_time = clock_max.
Proof.
  intros [->|(m & e & -> & Hm24 & [Hlo He] & Hm)] Heq.
  - cbn [scaled] in Heq. exfalso. assert (0 < 2 ^ 168) by (apply Z.pow_pos_nonneg; lia). lia.
  - cbn [scaled] in Heq. apply add_frame_time_at_max; [exact Hm24|exact He|].
    assert (Hp : 0 < 2 ^ (e + 149)) by (apply Z.pow_pos_nonneg; lia).
    assert (Hpp : 2 ^ (19 - e) * 2 ^ (e + 149) = 2 ^ 168).
    { rewrite <- Z.pow_add_r by lia. f_equal. lia. }
    rewrite <- Hpp in Heq. apply Z.mul_cancel_r in Heq; lia.
Qed.

(** Adding [frame_time] often enough reaches 2^19. *)
Lemma accumulate_reaches k : forall t,
  clock_ok t -> 2 ^ 168 - scaled t <= Z.of_nat k ->
  exists N, accumulate N t = clock_max.
Proof.
  induction k as [|k IH]; intros t Hok Hk.
  - exists 1%nat. rewrite accumulate_S. apply scaled_max_stalls; [exact Hok|].
    pose proof (scaled_le_max t Hok). lia.
  - pose proof (scaled_le_max t Hok) as Hle.
    destruct (Z.eq_dec (scaled t) (2 ^ 168)) as [Heq|Hne].
    + exists 1%nat. rewrite accumulate_S. apply scaled_max_stalls; assumption.
    + pose proof (add_frame_time_gt t Hok ltac:(lia)) as Hgt.
      destruct (IH (f32_add t frame_time) (add_frame_time_ok t Hok) ltac:(lia)) as [N HN].
      exists (S N). rewrite accumulate_S. exact HN.
Qed.

Lemma accumulate_add n n' t : accumulate (n + n') t = accumulate n' (accumulate n t).
Proof.
  revert t. induction n as [|n IH]; intros t; [reflexivity|].
  cbn [Nat.add]. rewrite !accumulate_S. apply IH.
Qed.

(** The value of a clock float as a rational, from its scaled value. *)
Lemma f32_to_Q_scaled t :
  clock_ok t ->
  exists q, f32_to_Q t = Some q /\ (q * inject_Z (2 ^ 149) == inject_Z (scaled t))%Q.
Proof.
  intros [->|(m & e & -> & _ & [Hlo He] & _)].
  - exists 0%Q. split; [reflexivity|]. cbn [scaled]. apply Qmult_0_l.
  - cbn [f32_to_Q scaled cond_Zopp]. eexists. split; [reflexivity|].
    destruct e as [|p|p].
    + rewrite <- inject_Z_mult. rewrite Z.pow_0_r, Z.mul_1_r, Z.add_0_l. reflexivity.
    + rewrite <- inject_Z_mult. rewrite Z.pow_add_r by lia.
      rewrite Z.mul_assoc. reflexivity.
    + unfold Qeq, Qmult, inject_Z. cbn [Qnum Qden].
      rewrite Pos.mul_1_r, Z.mul_1_r, Pos2Z.inj_pow.
      assert (Hpp : 2 ^ (Zneg p + 149) * 2 ^ Zpos p = 2 ^ 149).
      { rewrite <- Z.pow_add_r by lia. f_equal. lia. }
      rewrite <- Hpp. ring.
Qed.

Lemma scaled_Qlt t t' q q' :
  (q * inject_Z (2 ^ 149) == inject_Z (scaled t))%Q ->
  (q' * inject_Z (2 ^ 149) == inject_Z (scaled t'))%Q ->
  ((q < q')%Q <-> scaled t < scaled t').
Proof.
  intros Hq Hq'.
  assert (HW : (0 < inject_Z (2 ^ 149))%Q).
  { change 0%Q with (inject_Z 0). rewrite <- Zlt_Qlt. apply Z.pow_pos_nonneg; lia. }
  rewrite <- (Qmult_lt_r q q' _ HW). rewrite Hq, Hq'. rewrite <- Zlt_Qlt. reflexivity.
Qed.

Lemma clock_max_scaled :
  (524288 * inject_Z (2 ^ 149) == inject_Z (scaled clock_max))%Q.
Proof.
  change 524288%Q with (inject_Z (2 ^ 19)). rewrite <- inject_Z_mult.
  cbn [scaled clock_max]. change (Zpos 8388608) with (2 ^ 23).
  rewrite <- !Z.pow_add_r by lia. reflexivity.
Qed.

Lemma scaled_clock_max : scaled clock_max = 2 ^ 168.
Proof.
  cbn [scaled clock_max]. change (Zpos 8388608) with (2 ^ 23).
  rewrite <- Z.pow_add_r by lia. reflexivity.
Qed.

Section Stall.

Variable sinf : f32 -> f32.

Lemma run_snoc fls fl g : run sinf (fls ++ [fl]) g = step sinf fl (run sinf fls g).
Proof. rewrite run_app. reflexivity. Qed.

Lemma run_clock_ok fls : clock_ok (elapsed_time (run sinf fls init_game)).
Proof. rewrite run_elapsed_time. apply accumulate_ok. left. reflexivity. Qed.

Lemma clock_reaches_max :
  exists N, forall fls, (N <= length fls)%nat ->
                        elapsed_time (run sinf fls init_game) = clock_max.
Proof.
  destruct (accumulate_reaches (Z.to_nat (2 ^ 168)) (S754_zero false)) as [N HN].
  - left. reflexivity.
  - cbn [scaled]. rewrite Z2Nat.id by (apply Z.pow_nonneg; lia). lia.
  - exists N. intros fls Hlen. rewrite run_elapsed_time.
    change (elapsed_time init_game) with (S754_zero false).
    replace (length fls) with (N + (length fls - N))%nat by lia.
    rewrite accumulate_add, HN. apply accumulate_max.
Qed.

End Stall.

(** X22: the clock advances until it stalls, and then the enemy stands
    still.  While [elapsed_time] is below 2^19 = 524288 every pass makes it
    strictly larger; once it has reached 2^19 it is there for good.  It gets
    there after finitely many passes, and from the next pass on the enemy no
    longer moves, however long the program keeps running. *)
Theorem clock_runs_until_stall (sinf : f32 -> f32) :
  (forall fls fl, exists q q',
      f32_to_Q (elapsed_time (run sinf fls init_game)) = Some q /\
      f32_to_Q (elapsed_time (run sinf (fls ++ [fl]) init_game)) = Some q' /\
      ((q < 524288)%Q -> (q < q')%Q) /\
      ((q == 524288)%Q ->
       elapsed_time (run sinf (fls ++ [fl]) init_game) = clock_max)) /\
  (exists N, forall fls,
      (N <= length fls)%nat -> elapsed_time (run sinf fls init_game) = clock_max) /\
  (exists N, forall fls fls',
      (N <= length fls)%nat -> (N <= length fls')%nat ->
      enemy (run sinf fls init_game) = enemy (run sinf fls' init_game)).
Proof.
  split; [|split].
  - intros fls fl.
    pose proof (run_clock_ok sinf fls) as Hok.
    assert (Hnext : elapsed_time (run sinf (fls ++ [fl]) init_game)
                    = f32_add (elapsed_time (run sinf fls init_game)) frame_time).
    { rewrite run_snoc. reflexivity. }
    pose proof (add_frame_time_ok _ Hok) as Hok'.
    set (t := elapsed_time (run sinf fls init_game)) in *.
    rewrite Hnext. clearbody t.
    destruct (f32_to_Q_scaled t Hok) as (q & Hq & Hqs).
    destruct (f32_to_Q_scaled _ Hok') as (q' & Hq' & Hqs').
    exists q, q'. split; [exact Hq|]. split; [exact Hq'|]. split.
    + intros Hlt. apply (scaled_Qlt t _ q q' Hqs Hqs').
      apply add_frame_time_gt; [exact Hok|].
      rewrite <- scaled_clock_max.
      apply (scaled_Qlt t clock_max q 524288 Hqs clock_max_scaled). exact Hlt.
    + intros Heq. apply scaled_max_stalls; [exact Hok|].
      rewrite <- scaled_clock_max. apply inject_Z_injective.
      rewrite <- Hqs, <- clock_max_scaled, Heq. reflexivity.
  - apply clock_reaches_max.
  - destruct (clock_reaches_max sinf) as [N HN]. exists (S N).
    assert (Hfrozen : forall fls, (S N <= length fls)%nat ->
              enemy (run sinf fls init_game)
              = enemy (update sinf {| player := player init_game; enemy := enemy init_game;
                                      elapsed_time := clock_max |} no_input)).
    { intros fls Hlen.
      destruct (exists_last (l := fls)) as (l & fl & ->).
      { intros ->. cbn [length] in Hlen. lia. }
      rewrite length_app in Hlen. cbn [length] in Hlen.
      rewrite run_snoc. change (enemy (step sinf fl (run sinf l init_game)))
        with (enemy (update sinf (run sinf l init_game) fl)).
      destruct (run_same_shape sinf l init_game) as (_ & _ & Hes & _ & Hey).
      unfold enemy_y in Hey. unfold update. cbn [enemy elapsed_time].
      rewrite (HN l) by lia. rewrite Hes, Hey. reflexivity. }
    intros fls fls' H H'. rewrite (Hfrozen fls H), (Hfrozen fls' H'). reflexivity.
Qed.
